(** * Currency_to_Yen: currency detection and rate cache

    A shallow embedding of the detection engine of the content script
    ([parseAmount], [CURRENCY_PATTERNS], [detectCurrencies],
    [detectFromTargetElement]) and of the service worker's rate cache
    ([getExchangeRates], [convertToYen]), with the properties the
    specification states about them; then of the detection at a point
    ([detectCurrencyAtPoint]), the mouse handling and the timers of the
    content script, and the settings and messages of the service worker,
    with further properties read off the code. *)

From Stdlib Require Import ZArith NArith List Bool Lia String Ascii.
From Stdlib Require Import Sorting.Sorted.
From Stdlib Require Import Floats.SpecFloat.
From stdpp Require Import gmap.
Import ListNotations.

Local Open Scope nat_scope.

(** ** JavaScript numbers

    A JS [number] is an IEEE 754 binary64 value.  [spec_float] with
    precision 53 and maximal exponent 1024 is exactly that format, and the
    operations below are the correctly rounded ones. *)
Module JSNumber.

Definition prec : Z := 53%Z.
Definition emax : Z := 1024%Z.

Definition number : Type := spec_float.

Definition NaN : number := S754_nan.
Definition zero : number := S754_zero false.

(** The number an integer literal denotes. *)
Definition of_Z (z : Z) : number := binary_normalize prec emax z 0%Z false.

Definition mul (x y : number) : number := SFmul prec emax x y.
Definition div (x y : number) : number := SFdiv prec emax x y.
Definition sub (x y : number) : number := SFsub prec emax x y.
Definition add (x y : number) : number := SFadd prec emax x y.

(** [x < y], [x <= y], [x > y], [x >= y]: all false when an operand is NaN. *)
Definition lt (x y : number) : bool := SFltb x y.
Definition le (x y : number) : bool := SFleb x y.
Definition gt (x y : number) : bool := SFltb y x.
Definition ge (x y : number) : bool := SFleb y x.

Definition isNaN (x : number) : bool :=
  match x with S754_nan => true | _ => false end.

(** ToBoolean on a number: [+0], [-0] and [NaN] are falsy. *)
Definition truthy (x : number) : bool :=
  match x with
  | S754_zero _ | S754_nan => false
  | _ => true
  end.

(** The number nearest to the decimal [m * 10^e] (ties to even), negated
    when [neg]: what a decimal literal with the digits [m] and the decimal
    exponent [e] denotes.  An overflow rounds to infinity. *)
Definition of_decimal (neg : bool) (m : N) (e : Z) : number :=
  match m with
  | N0 => S754_zero neg
  | Npos p =>
      (if neg then SFopp else fun x => x)
      match e with
      | Z0 => binary_normalize prec emax (Zpos p) 0%Z false
      | Zpos k => binary_normalize prec emax (Zpos p * 10 ^ Zpos k)%Z 0%Z false
      | Zneg k => SFdiv prec emax (S754_finite false p 0%Z)
                        (S754_finite false (Pos.pow 10 k) 0%Z)
      end
  end.

End JSNumber.

(** ** JavaScript strings

    A JS string is a sequence of UTF-16 code units; indices and [length]
    count code units. *)
Module JSString.

Definition char : Type := N.
Definition jsstring : Type := list char.

(** An ASCII literal as a JS string. *)
Definition lit (s : string) : jsstring :=
  List.map N_of_ascii (list_ascii_of_string s).

Definition char_eqb (a b : char) : bool := N.eqb a b.

Fixpoint string_eqb (a b : jsstring) : bool :=
  match a, b with
  | [], [] => true
  | x :: a', y :: b' => char_eqb x y && string_eqb a' b'
  | _, _ => false
  end.

(** [s.substring(i, j)] for [i <= j]. *)
Definition substring (s : jsstring) (i j : nat) : jsstring :=
  firstn (j - i) (skipn i s).

Definition in_range (lo hi c : char) : bool := (N.leb lo c && N.leb c hi)%N.

(** WhiteSpace and LineTerminator code units: what [trim] strips and what
    the class [\s] contains. *)
Definition white_space : list char :=
  [9; 10; 11; 12; 13; 32; 160; 5760;
   8192; 8193; 8194; 8195; 8196; 8197; 8198; 8199; 8200; 8201; 8202;
   8232; 8233; 8239; 8287; 12288; 65279]%N.

Definition is_space (c : char) : bool := existsb (char_eqb c) white_space.

Fixpoint trimStart (s : jsstring) : jsstring :=
  match s with
  | c :: s' => if is_space c then trimStart s' else s
  | [] => []
  end.

Definition trimEnd (s : jsstring) : jsstring := rev (trimStart (rev s)).

Definition trim (s : jsstring) : jsstring := trimEnd (trimStart s).

(** Upper-casing of the letters [a]..[z]; every other code unit is kept.
    The strings this is applied to were matched by ASCII alternatives. *)
Definition upper (c : char) : char :=
  if in_range 97%N 122%N c then (c - 32)%N else c.

Definition toUpperCase (s : jsstring) : jsstring := List.map upper s.

(** Lower-casing of [A]..[Z], for tag names. *)
Definition lower (c : char) : char :=
  if in_range 65%N 90%N c then (c + 32)%N else c.

Definition toLowerCase (s : jsstring) : jsstring := List.map lower s.

Definition is_digit (c : char) : bool := in_range 48%N 57%N c.

(** [s.includes(c)] for a one-character needle. *)
Definition includes_char (s : jsstring) (c : char) : bool :=
  existsb (char_eqb c) s.

End JSString.

Import JSNumber JSString.

(** ** Regular expressions

    The backtracking matcher of ECMAScript, for the constructs the patterns
    of the detector use: character classes, concatenation, ordered
    alternation, greedy quantifiers on a class, the greedy optional group,
    capture groups, and the assertions [^] and [\b]. *)
Module RegExp.

(** A character class is the list of its code units. *)
Definition char_class : Type := list char.

Inductive regex : Type :=
| Empty
| Char (cls : char_class)
| Cat (r1 r2 : regex)
| Alt (r1 r2 : regex)
| Repeat (cls : char_class) (min : nat) (max : option nat)
| Opt (r : regex)
| Capture (n : nat) (r : regex)
| LineStart
| WordBoundary.

(** Canonicalize of a non-unicode pattern: with the [i] flag a code unit is
    compared through its upper-case form.  For a code unit at or above 128
    the canonical form is never below 128, and no code unit upper-cases to
    a white-space character, so on the ASCII and white-space classes used
    here upper-casing [a]..[z] decides the comparison. *)
Definition canonicalize (ignoreCase : bool) (c : char) : char :=
  if ignoreCase then upper c else c.

Definition in_class (ignoreCase : bool) (cls : char_class) (c : char) : bool :=
  existsb (fun a => char_eqb (canonicalize ignoreCase a)
                             (canonicalize ignoreCase c)) cls.

(** IsWordChar: [a-zA-Z0-9_]. *)
Definition is_word_char (c : char) : bool :=
  in_range 97%N 122%N c || in_range 65%N 90%N c || in_range 48%N 57%N c
  || char_eqb c 95%N.

Definition word_at (s : jsstring) (i : nat) : bool :=
  match nth_error s i with
  | Some c => is_word_char c
  | None => false
  end.

Definition word_before (s : jsstring) (i : nat) : bool :=
  match i with
  | O => false
  | S j => word_at s j
  end.

(** Capture spans, by group number. *)
Definition captures : Type := list (nat * (nat * nat)).

Definition get_capture (c : captures) (n : nat) : option (nat * nat) :=
  match find (fun e => Nat.eqb (fst e) n) c with
  | Some e => Some (snd e)
  | None => None
  end.

Section Matcher.

Variable ignoreCase : bool.
Variable s : jsstring.

(** Greedy [{min,max}] on a class: take as many as possible, give back one
    at a time.  [fuel] bounds the iterations still allowed. *)
Fixpoint repeat_class {R} (cls : char_class) (min fuel : nat) (i : nat)
    (k : nat -> option R) : option R :=
  let stop := match min with O => k i | S _ => None end in
  match fuel with
  | O => stop
  | S fuel' =>
      match nth_error s i with
      | Some c =>
          if in_class ignoreCase cls c then
            match repeat_class cls (Nat.pred min) fuel' (S i) k with
            | Some x => Some x
            | None => stop
            end
          else stop
      | None => stop
      end
  end.

(** [rmatch r i c k]: match [r] at index [i] with captures [c], then run the
    continuation [k]; [None] is failure, on which the caller backtracks. *)
Fixpoint rmatch {R} (r : regex) (i : nat) (c : captures)
    (k : nat -> captures -> option R) : option R :=
  match r with
  | Empty => k i c
  | Char cls =>
      match nth_error s i with
      | Some ch => if in_class ignoreCase cls ch then k (S i) c else None
      | None => None
      end
  | Cat r1 r2 => rmatch r1 i c (fun j c' => rmatch r2 j c' k)
  | Alt r1 r2 =>
      match rmatch r1 i c k with
      | Some x => Some x
      | None => rmatch r2 i c k
      end
  | Repeat cls min max =>
      let fuel := match max with
                  | Some m => m
                  | None => length s - i
                  end in
      repeat_class cls min fuel i (fun j => k j c)
  | Opt r1 =>
      match rmatch r1 i c k with
      | Some x => Some x
      | None => k i c
      end
  | Capture n r1 => rmatch r1 i c (fun j c' => k j ((n, (i, j)) :: c'))
  | LineStart => match i with O => k i c | S _ => None end
  | WordBoundary =>
      if xorb (word_before s i) (word_at s i) then k i c else None
  end.

(** The first index at or after [i] at which the pattern matches, with the
    end of the match and its captures. *)
Fixpoint search (r : regex) (fuel i : nat) : option (nat * nat * captures) :=
  match rmatch r i [] (fun j c => Some (j, c)) with
  | Some (j, c) => Some (i, j, c)
  | None =>
      match fuel with
      | O => None
      | S fuel' => search r fuel' (S i)
      end
  end.

End Matcher.

(** A match array: [index], [m[0]] and the numbered groups. *)
Record MatchArray : Type := mkMatch {
  index : nat;
  matched : jsstring;
  groups : captures;
  input : jsstring
}.

(** [m[n]] for [n >= 1]; a group that did not take part is [undefined]. *)
Definition group (m : MatchArray) (n : nat) : option jsstring :=
  match get_capture (groups m) n with
  | Some (a, b) => Some (substring (input m) a b)
  | None => None
  end.

(** A RegExp object: its pattern, its [i] flag and the mutable [lastIndex]. *)
Record RegExpObject : Type := mkRegExp {
  source : regex;
  ignoreCase : bool;
  lastIndex : nat
}.

Definition set_lastIndex (re : RegExpObject) (i : nat) : RegExpObject :=
  mkRegExp (source re) (ignoreCase re) i.

(** [re.exec(text)] of a global pattern: the search starts at [lastIndex];
    a match moves [lastIndex] to its end, a failure resets it to 0. *)
Definition exec (re : RegExpObject) (text : jsstring)
  : option MatchArray * RegExpObject :=
  if length text <? lastIndex re then (None, set_lastIndex re 0)
  else
    match search (ignoreCase re) text (source re)
                 (length text - lastIndex re) (lastIndex re) with
    | Some (i, j, c) =>
        (Some (mkMatch i (substring text i j) c text), set_lastIndex re j)
    | None => (None, set_lastIndex re 0)
    end.

(** [str.match(re)] of a pattern without the [g] flag: one search from 0. *)
Definition match_once (ic : bool) (r : regex) (text : jsstring)
  : option MatchArray :=
  match search ic text r (length text) 0 with
  | Some (i, j, c) => Some (mkMatch i (substring text i j) c text)
  | None => None
  end.

(** Pattern-building helpers. *)
Definition str (t : jsstring) : regex :=
  fold_right (fun c r => Cat (Char [c]) r) Empty t.

Fixpoint alts (rs : list regex) : regex :=
  match rs with
  | [] => Empty
  | [r] => r
  | r :: rs' => Alt r (alts rs')
  end.

Fixpoint cats (rs : list regex) : regex :=
  match rs with
  | [] => Empty
  | [r] => r
  | r :: rs' => Cat r (cats rs')
  end.

(** A lower bound on the length of any match. *)
Fixpoint min_len (r : regex) : nat :=
  match r with
  | Empty | LineStart | WordBoundary | Opt _ => 0
  | Char _ => 1
  | Cat r1 r2 => min_len r1 + min_len r2
  | Alt r1 r2 => Nat.min (min_len r1) (min_len r2)
  | Repeat _ min _ => min
  | Capture _ r1 => min_len r1
  end.

(** Whether group [n] takes part in every match of [r]. *)
Fixpoint defines (r : regex) (n : nat) : bool :=
  match r with
  | Capture m r1 => Nat.eqb m n || defines r1 n
  | Cat r1 r2 => defines r1 n || defines r2 n
  | Alt r1 r2 => defines r1 n && defines r2 n
  | _ => false
  end.

End RegExp.

Import RegExp.

(** ** The currency detector (content script) *)
Module Detector.

(** A currency code is a string; [CurrencyCode] is a union of sixteen
    string literals that is erased at run time. *)
Definition CurrencyCode : Type := jsstring.

Definition JPY : CurrencyCode := lit "JPY".

Record DetectedCurrency : Type := mkDetected {
  code : CurrencyCode;
  amount : number;
  originalText : jsstring;
  startIndex : nat;
  endIndex : nat
}.

(** Property lookup in an object literal with string keys. *)
Fixpoint lookup_obj (o : list (jsstring * CurrencyCode)) (key : jsstring)
  : option CurrencyCode :=
  match o with
  | [] => None
  | (k, v) :: o' => if string_eqb k key then Some v else lookup_obj o' key
  end.

Definition SYMBOL_TO_CODE : list (jsstring * CurrencyCode) :=
  [ ([36%N], lit "USD");
    ([8364%N], lit "EUR");
    ([163%N], lit "GBP");
    ([8361%N], lit "KRW");
    (lit "US$", lit "USD");
    (lit "HK$", lit "HKD");
    (lit "AU$", lit "AUD");
    (lit "A$", lit "AUD");
    (lit "CA$", lit "CAD");
    (lit "C$", lit "CAD");
    (lit "SG$", lit "SGD");
    (lit "S$", lit "SGD");
    (lit "NT$", lit "TWD");
    ([3647%N], lit "THB");
    ([8377%N], lit "INR");
    ([8369%N], lit "PHP");
    (lit "RM", lit "MYR");
    (lit "CHF", lit "CHF") ].

Definition MAX_AMOUNT : number := of_Z 1000000000.

(** Decimal digits at the head of [s]: the digits read so far as a number,
    how many were read, and the rest of the string. *)
Fixpoint read_digits (s : jsstring) (acc : N) (n : nat) : N * nat * jsstring :=
  match s with
  | c :: s' =>
      if is_digit c then read_digits s' (acc * 10 + (c - 48))%N (S n)
      else (acc, n, s)
  | [] => (acc, n, [])
  end.

(** An optional sign at the head of [s]: whether it is [-], and the rest. *)
Definition read_sign (s : jsstring) : bool * jsstring :=
  match s with
  | 45%N :: s' => (true, s')
  | 43%N :: s' => (false, s')
  | _ => (false, s)
  end.

(** The value of an exponent part [e], [e+] or [e-] followed by digits at
    the head of [s]; 0 when there is none. *)
Definition read_exponent (s : jsstring) : Z :=
  match s with
  | c :: s' =>
      if char_eqb c 101%N || char_eqb c 69%N then
        let (neg, s'') := read_sign s' in
        let '(ev, ne, _) := read_digits s'' 0%N 0 in
        if ne =? 0 then 0%Z
        else if neg then (- Z.of_N ev)%Z else Z.of_N ev
      else 0%Z
  | [] => 0%Z
  end.

Definition starts_with (p s : jsstring) : bool :=
  string_eqb p (firstn (length p) s).

(** [parseFloat]: leading white space is skipped, and the result is the
    number denoted by the longest prefix that is a decimal literal (sign,
    [Infinity] or digits with an optional fraction and exponent), NaN when
    there is none. *)
Definition parseFloat (s : jsstring) : number :=
  let (neg, s1) := read_sign (trimStart s) in
  if starts_with (lit "Infinity") s1 then S754_infinity neg
  else
    let '(ip, ni, rest) := read_digits s1 0%N 0 in
    let '(fp, nf, rest') :=
      match rest with
      | 46%N :: r => read_digits r ip 0
      | _ => (ip, 0, rest)
      end in
    if (ni =? 0) && (nf =? 0) then NaN
    else of_decimal neg fp (read_exponent rest' - Z.of_nat nf).

Definition parseAmount (amountStr : jsstring) : number :=
  let cleaned := trim amountStr in
  let cleaned := List.filter (fun c => negb (char_eqb c 44%N)) cleaned in
  let amount := parseFloat cleaned in
  if isNaN amount || le amount zero || gt amount MAX_AMOUNT then zero
  else amount.

Record PatternRule : Type := mkRule {
  pattern : RegExpObject;
  getCode : MatchArray -> option CurrencyCode;
  getAmount : MatchArray -> number
}.

Definition digit : char_class :=
  [48; 49; 50; 51; 52; 53; 54; 55; 56; 57]%N.
Definition digit_or_comma : char_class := digit ++ [44%N].
Definition dollar : char_class := [36%N].

(** [([\d,]{1,15}(?:\.\d{1,2})?)] as group [n]. *)
Definition amount_group (n : nat) : regex :=
  Capture n (Cat (Repeat digit_or_comma 1 (Some 15))
                 (Opt (Cat (Char [46%N]) (Repeat digit 1 (Some 2))))).

Definition spaces : regex := Repeat white_space 0 None.

Definition words (ws : list string) : regex :=
  alts (List.map (fun w => str (lit w)) ws).

Definition dollar_prefixes : regex :=
  words ["US"; "HK"; "AU"; "CA"; "SG"; "NT"; "A"; "C"; "S"]%string.

Definition iso_codes : regex :=
  words ["USD"; "EUR"; "GBP"; "CNY"; "KRW"; "AUD"; "CAD"; "CHF"; "HKD";
         "SGD"; "TWD"; "THB"; "INR"; "PHP"; "MYR"]%string.

(** The argument of [parseAmount(match[n])].  The groups the rules read,
    here and in [getCode], take part in every match of their pattern
    (lemma [groups_read_defined]), so the [undefined] case does not
    arise. *)
Definition group_text (m : MatchArray) (n : nat) : jsstring :=
  match group m n with
  | Some t => t
  | None => []
  end.

Definition prefix_mapping : list (jsstring * CurrencyCode) :=
  [ (lit "US", lit "USD"); (lit "HK", lit "HKD"); (lit "AU", lit "AUD");
    (lit "A", lit "AUD"); (lit "CA", lit "CAD"); (lit "C", lit "CAD");
    (lit "SG", lit "SGD"); (lit "S", lit "SGD"); (lit "NT", lit "TWD") ].

Definition CURRENCY_PATTERNS : list PatternRule :=
  [ (* /(?:US|HK|AU|CA|SG|NT|A|C|S)\$\s*([\d,]{1,15}(?:\.\d{1,2})?)\b/gi *)
    mkRule
      (mkRegExp
         (cats [dollar_prefixes; Char dollar; spaces; amount_group 1;
                WordBoundary]) true 0)
      (fun m =>
         let prefix :=
           match match_once true
                   (cats [LineStart; Capture 1 dollar_prefixes; Char dollar])
                   (matched m) with
           | Some m' => option_map toUpperCase (group m' 1)
           | None => None
           end in
         lookup_obj prefix_mapping
           (match prefix with Some p => p | None => [] end))
      (fun m => parseAmount (group_text m 1));
    (* /([$€£₩₹₱฿])\s*([\d,]{1,15}(?:\.\d{1,2})?)\b/g *)
    mkRule
      (mkRegExp
         (cats [Capture 1 (Char [36; 8364; 163; 8361; 8377; 8369; 3647]%N);
                spaces; amount_group 2; WordBoundary]) false 0)
      (fun m =>
         match group m 1 with
         | Some k => lookup_obj SYMBOL_TO_CODE k
         | None => None
         end)
      (fun m => parseAmount (group_text m 2));
    (* /\b([\d,]{1,15}(?:\.\d{1,2})?)\s*(USD|...|MYR)\b/gi *)
    mkRule
      (mkRegExp
         (cats [WordBoundary; amount_group 1; spaces; Capture 2 iso_codes;
                WordBoundary]) true 0)
      (fun m => option_map toUpperCase (group m 2))
      (fun m => parseAmount (group_text m 1));
    (* /\b(USD|...|MYR)\s*([\d,]{1,15}(?:\.\d{1,2})?)\b/gi *)
    mkRule
      (mkRegExp
         (cats [WordBoundary; Capture 1 iso_codes; spaces; amount_group 2;
                WordBoundary]) true 0)
      (fun m => option_map toUpperCase (group m 1))
      (fun m => parseAmount (group_text m 2));
    (* /RM\s*([\d,]{1,15}(?:\.\d{1,2})?)\b/gi *)
    mkRule
      (mkRegExp
         (cats [str (lit "RM"); spaces; amount_group 1; WordBoundary]) true 0)
      (fun _ => Some (lit "MYR"))
      (fun m => parseAmount (group_text m 1));
    (* /CHF\s*([\d,]{1,15}(?:\.\d{1,2})?)\b/gi *)
    mkRule
      (mkRegExp
         (cats [str (lit "CHF"); spaces; amount_group 1; WordBoundary]) true 0)
      (fun _ => Some (lit "CHF"))
      (fun m => parseAmount (group_text m 1)) ].

(** The two arrays the scan fills: [results] and [foundRanges]. *)
Record Found : Type := mkFound {
  results : list DetectedCurrency;
  foundRanges : list (nat * nat)
}.

(** [!code]: [null] and the empty string are falsy. *)
Definition code_falsy (c : option CurrencyCode) : bool :=
  match c with
  | None | Some [] => true
  | Some (_ :: _) => false
  end.

Definition isOverlapping (ranges : list (nat * nat)) (startIndex endIndex : nat)
  : bool :=
  existsb
    (fun range =>
       ((fst range <=? startIndex) && (startIndex <? snd range))
       || ((fst range <? endIndex) && (endIndex <=? snd range))
       || ((startIndex <=? fst range) && (snd range <=? endIndex)))
    ranges.

(** The first half of the loop body: the code and the amount of a match,
    and the [continue] cases.  [None] is [continue]. *)
Definition candidate (rule : PatternRule) (m : MatchArray)
  : option DetectedCurrency :=
  let code := getCode rule m in
  let amount := getAmount rule m in
  if code_falsy code || le amount zero then None
  else
    match code with
    | None => None
    | Some code =>
        if string_eqb code JPY then None
        else
          let startIndex := index m in
          let endIndex := index m + length (matched m) in
          Some (mkDetected code amount (matched m) startIndex endIndex)
    end.

(** The second half: the overlap test against [foundRanges] and the two
    [push]es. *)
Definition accept (d : DetectedCurrency) (acc : Found) : Found :=
  if negb (isOverlapping (foundRanges acc) (startIndex d) (endIndex d)) then
    mkFound (results acc ++ [d])
            (foundRanges acc ++ [(startIndex d, endIndex d)])
  else acc.

(** The body of the [while] loop for one match. *)
Definition visit (rule : PatternRule) (m : MatchArray) (acc : Found) : Found :=
  match candidate rule m with
  | None => acc
  | Some d => accept d acc
  end.

(** [while ((match = pattern.exec(text)) !== null) { ... }].  The loop runs
    as long as [exec] finds a match; [fuel] counts the iterations still
    allowed and [None] means they ran out. *)
Fixpoint scan (fuel : nat) (re : RegExpObject)
    (rule : PatternRule) (text : jsstring) (acc : Found)
  : option (Found * RegExpObject) :=
  match fuel with
  | O => None
  | S fuel' =>
      match exec re text with
      | (None, re') => Some (acc, re')
      | (Some m, re') => scan fuel' re' rule text (visit rule m acc)
      end
  end.

(** The [for ... of CURRENCY_PATTERNS] loop; each pattern is rewound with
    [pattern.lastIndex = 0] before it is used, and keeps the [lastIndex] the
    scan leaves behind. *)
Fixpoint scan_all (patterns : list PatternRule) (text : jsstring) (acc : Found)
  : option (Found * list PatternRule) :=
  match patterns with
  | [] => Some (acc, [])
  | rule :: rest =>
      match scan (S (length text)) (set_lastIndex (pattern rule) 0)
                 rule text acc with
      | None => None
      | Some (acc', re') =>
          match scan_all rest text acc' with
          | None => None
          | Some (acc'', rest') =>
              Some (acc'', mkRule re' (getCode rule) (getAmount rule) :: rest')
          end
      end
  end.

(** [results.sort((a, b) => a.startIndex - b.startIndex)]: a stable sort
    by [startIndex]. *)
Fixpoint insert_by_start (x : DetectedCurrency) (l : list DetectedCurrency)
  : list DetectedCurrency :=
  match l with
  | [] => [x]
  | y :: l' =>
      if startIndex x <=? startIndex y then x :: y :: l'
      else y :: insert_by_start x l'
  end.

Definition sort_by_start (l : list DetectedCurrency) : list DetectedCurrency :=
  fold_right insert_by_start [] l.

(** [detectCurrencies(text)], run on the module's pattern objects in the
    state [patterns]; returns the matches and the state left behind. *)
Definition detectCurrencies (patterns : list PatternRule) (text : jsstring)
  : option (list DetectedCurrency * list PatternRule) :=
  match scan_all patterns text (mkFound [] []) with
  | None => None
  | Some (acc, patterns') => Some (sort_by_start (results acc), patterns')
  end.

End Detector.

Import Detector.

(** ** Candidates and the matches retained

    The scan of [detectCurrencies] read as two steps: every pattern lists
    its candidates over the whole text, and the candidates are then taken
    or dropped one after the other.  A candidate carries the position of
    its rule in [CURRENCY_PATTERNS]. *)
Module Resolver.

(** The successive results of [exec] on one pattern. *)
Fixpoint matches (fuel : nat) (re : RegExpObject) (text : jsstring)
  : list MatchArray :=
  match fuel with
  | O => []
  | S fuel' =>
      match exec re text with
      | (None, _) => []
      | (Some m, re') => m :: matches fuel' re' text
      end
  end.

Definition rule_candidates (rule : PatternRule) (text : jsstring)
  : list DetectedCurrency :=
  omap (candidate rule)
       (matches (S (length text)) (set_lastIndex (pattern rule) 0) text).

Fixpoint candidates_from (tier : nat) (rules : list PatternRule)
    (text : jsstring) : list (nat * DetectedCurrency) :=
  match rules with
  | [] => []
  | rule :: rest =>
      List.map (fun d => (tier, d)) (rule_candidates rule text)
      ++ candidates_from (S tier) rest text
  end.

Definition candidates (text : jsstring) : list (nat * DetectedCurrency) :=
  candidates_from 0 CURRENCY_PATTERNS text.

(** Two spans overlap when they share a position. *)
Definition overlap (a b : DetectedCurrency) : Prop :=
  startIndex a < endIndex b /\ startIndex b < endIndex a.

Definition span_disjoint (a b : DetectedCurrency) : Prop :=
  endIndex a <= startIndex b \/ endIndex b <= startIndex a.

Definition take (acc : list (nat * DetectedCurrency))
    (c : nat * DetectedCurrency) : list (nat * DetectedCurrency) :=
  if isOverlapping
       (List.map (fun e => (startIndex (snd e), endIndex (snd e))) acc)
       (startIndex (snd c)) (endIndex (snd c))
  then acc
  else acc ++ [c].

(** The candidates that are taken, in the order they were taken. *)
Definition retained (text : jsstring) : list (nat * DetectedCurrency) :=
  fold_left take (candidates text) [].

(** The span of a match lies in the text, is at least as long as the
    pattern's shortest match, and [m[0]] is the text of that span. *)
Definition match_within (text : jsstring) (len : nat) (m : MatchArray) : Prop :=
  len <= length (matched m)
  /\ index m + length (matched m) <= length text
  /\ matched m = substring text (index m) (index m + length (matched m)).

Definition match_end (m : MatchArray) : nat := index m + length (matched m).

(** A pattern object rewound to [lastIndex = 0]. *)
Definition rewound (rule : PatternRule) : PatternRule :=
  mkRule (set_lastIndex (pattern rule) 0) (getCode rule) (getAmount rule).

Definition nonempty_pattern (rule : PatternRule) : Prop :=
  1 <= min_len (source (pattern rule)).

(** The amount of a rule is what [parseAmount] returns. *)
Definition amount_parsed (rule : PatternRule) : Prop :=
  forall m : MatchArray, exists t : jsstring, getAmount rule m = parseAmount t.

(** The pattern objects of the module when the [lastIndex] of the [i]-th
    one is [f i]: the states the module can be in between two calls. *)
Fixpoint set_lastIndexes (f : nat -> nat) (i : nat) (rules : list PatternRule)
  : list PatternRule :=
  match rules with
  | [] => []
  | rule :: rest =>
      mkRule (set_lastIndex (pattern rule) (f i)) (getCode rule)
             (getAmount rule)
      :: set_lastIndexes f (S i) rest
  end.

Definition patterns_in_state (f : nat -> nat) : list PatternRule :=
  set_lastIndexes f 0 CURRENCY_PATTERNS.

Definition span (d : DetectedCurrency) : nat * nat :=
  (startIndex d, endIndex d).

Definition nonempty_span (d : DetectedCurrency) : Prop :=
  startIndex d < endIndex d.

(** The scan's two arrays agree, and what was taken so far is pairwise
    disjoint. *)
Definition found_ok (acc : Found) : Prop :=
  foundRanges acc = List.map span (results acc)
  /\ Forall nonempty_span (results acc)
  /\ ForallOrdPairs span_disjoint (results acc).

(** What the scan and the sort come to: the candidates of the patterns in
    rule order, taken or dropped one after the other, then sorted. *)
Definition detected (text : jsstring) : list DetectedCurrency :=
  sort_by_start
    (results
       (fold_left (fun a d => accept d a)
          (flat_map (fun r => rule_candidates r text) CURRENCY_PATTERNS)
          (mkFound [] []))).

(** Candidates are listed by rule, and within a rule by position. *)
Definition listed_before (x y : nat * DetectedCurrency) : Prop :=
  fst x < fst y \/ (fst x = fst y /\ endIndex (snd x) <= startIndex (snd y)).

Definition tagged_ok (acc : list (nat * DetectedCurrency)) : Prop :=
  Forall (fun e => nonempty_span (snd e)) acc
  /\ ForallOrdPairs (fun x y => span_disjoint (snd x) (snd y)) acc.

Definition start_le (a b : DetectedCurrency) : Prop :=
  startIndex a <= startIndex b.

(** What every match of a text satisfies. *)
Definition amount_in_range (d : DetectedCurrency) : Prop :=
  lt zero (amount d) = true /\ le (amount d) MAX_AMOUNT = true.

Definition text_of_span (text : jsstring) (d : DetectedCurrency) : Prop :=
  originalText d = substring text (startIndex d) (endIndex d)
  /\ endIndex d - startIndex d = length (originalText d)
  /\ 0 < length (originalText d).

(** A match written with ASCII literals. *)
Definition detected_as (c : string) (a : number) (t : string) (s e : nat)
  : DetectedCurrency :=
  mkDetected (lit c) a (lit t) s e.

Definition well_formed (text : jsstring) (d : DetectedCurrency) : Prop :=
  nonempty_span d /\ text_of_span text d /\ code d <> JPY
  /\ amount_in_range d.

End Resolver.

Import Resolver.

(** ** Detection from the hovered element *)
Module Dom.

Record DOMRect : Type := mkRect {
  left : number;
  right : number;
  top : number;
  bottom : number;
  width : number;
  height : number
}.

(** What [detectFromTargetElement] reads of an element. *)
Record Element : Type := mkElement {
  tagName : jsstring;
  textContent : option jsstring;
  innerText : option jsstring;
  getAttribute : jsstring -> option jsstring;
  getBoundingClientRect : DOMRect
}.

Definition excluded_tags : list jsstring :=
  List.map lit ["script"; "style"; "input"; "textarea"; "select"; "body";
                "html"; "head"]%string.

(** [s?.trim() || ''] *)
Definition trim_or_empty (s : option jsstring) : jsstring :=
  match s with
  | Some t => trim t
  | None => []
  end.

(** [!text || text.length < 2] *)
Definition too_short (text : jsstring) : bool :=
  match text with
  | [] => true
  | _ => length text <? 2
  end.

(** An attribute value that is neither [null] nor empty. *)
Definition attribute (el : Element) (name : string) : option jsstring :=
  match getAttribute el (lit name) with
  | Some (c :: v) => Some (c :: v)
  | _ => None
  end.

Definition first_some {A} (a b : option A) : option A :=
  match a with
  | Some x => Some x
  | None => b
  end.

Definition isCustomElement (tag : jsstring) : bool :=
  includes_char tag 45%N || string_eqb tag (lit "number-flow-react").

(** The text the element is read for: [textContent], then [innerText] for
    a custom element, then [aria-label], [title] and the data attributes. *)
Definition element_text (el : Element) : jsstring :=
  let tag := toLowerCase (tagName el) in
  let text := trim_or_empty (textContent el) in
  let text :=
    match text with
    | [] => if isCustomElement tag then trim_or_empty (innerText el) else text
    | _ => text
    end in
  let text :=
    if too_short text then
      match attribute el "aria-label" with
      | Some v => trim v
      | None => text
      end
    else text in
  let text :=
    if too_short text then
      match attribute el "title" with
      | Some v => trim v
      | None => text
      end
    else text in
  if too_short text then
    match first_some (attribute el "data-value")
            (first_some (attribute el "data-amount")
                        (attribute el "data-price")) with
    | Some v => trim v
    | None => text
    end
  else text.

Definition padding : number := of_Z 5.

Definition maxLength (custom : bool) : nat := if custom then 100 else 50.
Definition maxWidth (custom : bool) : number :=
  if custom then of_Z 200 else of_Z 150.
Definition maxHeight : number := of_Z 60.

Definition isInBounds (rect : DOMRect) (x y : number) : bool :=
  ge x (sub (left rect) padding)
  && le x (add (right rect) padding)
  && ge y (sub (top rect) padding)
  && le y (add (bottom rect) padding).

(** [detectFromTargetElement(element, x, y)], run on the pattern objects in
    the state [patterns]. *)
Definition detectFromTargetElement (patterns : list PatternRule)
    (el : Element) (x y : number)
  : option (option DetectedCurrency * list PatternRule) :=
  let tag := toLowerCase (tagName el) in
  if existsb (string_eqb tag) excluded_tags then Some (None, patterns)
  else
    let custom := isCustomElement tag in
    let text := element_text el in
    if (length text <? 1) || (maxLength custom <? length text) then
      Some (None, patterns)
    else
      let rect := getBoundingClientRect el in
      if gt (width rect) (maxWidth custom) || gt (height rect) maxHeight then
        Some (None, patterns)
      else if negb (isInBounds rect x y) then Some (None, patterns)
      else
        match detectCurrencies patterns text with
        | None => None
        | Some (currencies, patterns') =>
            Some (match currencies with
                  | d :: _ => Some d
                  | [] => None
                  end, patterns')
        end.

(** A [<span>$100</span>] of 40 by 20 at the origin. *)
Definition price_span : Element :=
  mkElement (lit "SPAN") (Some (lit "$100")) None (fun _ => None)
    (mkRect (of_Z 0) (of_Z 40) (of_Z 0) (of_Z 20) (of_Z 40) (of_Z 20)).

End Dom.

(** ** The service worker: rate cache and conversion *)
Module ServiceWorker.

(** Time stamps are integral milliseconds ([Date.now()]). *)
Definition CACHE_DURATION : Z := (60 * 60 * 1000)%Z.

(** A table of rates is a plain object with numbers as its own
    properties: the finite map holds the own properties, and behind them
    are the members of [Object.prototype], which a read reaches when the
    object has no own property of that name.  [Object.prototype] is taken
    to be as ECMAScript defines it (Annex B included), with nothing added
    or removed. *)
Definition prototype_members : list jsstring :=
  List.map lit
    ["constructor"; "__defineGetter__"; "__defineSetter__";
     "hasOwnProperty"; "__lookupGetter__"; "__lookupSetter__";
     "isPrototypeOf"; "propertyIsEnumerable"; "toString"; "valueOf";
     "__proto__"; "toLocaleString"]%string.

Definition is_prototype_member (k : jsstring) : bool :=
  existsb (string_eqb k) prototype_members.

Definition proto_key : jsstring := lit "__proto__".

(** What reading a property of a table gives: a number of its own, a
    member of [Object.prototype] (a function, or for [__proto__] the
    prototype object itself), or [undefined]. *)
Inductive Value : Type :=
| Num (n : number)
| Inherited (name : jsstring)
| Undefined.

(** [o[k]] *)
Definition object_get (o : gmap (list N) number) (k : jsstring) : Value :=
  match o !! k with
  | Some n => Num n
  | None => if is_prototype_member k then Inherited k else Undefined
  end.

(** [o[k] = v] for a number [v].  Without an own property [__proto__] the
    assignment to that name goes to the setter of [Object.prototype],
    which ignores a value that is neither an object nor [null]; the other
    members are writable data properties, so assigning to their names
    creates an own property. *)
Definition object_set (o : gmap (list N) number) (k : jsstring) (v : number)
  : gmap (list N) number :=
  match o !! k with
  | Some _ => <[k := v]> o
  | None => if string_eqb k proto_key then o else <[k := v]> o
  end.

(** ToBoolean and ToNumber: objects are truthy and, those of
    [Object.prototype] having no numeric primitive value, convert to
    [NaN]; [undefined] is falsy and converts to [NaN]. *)
Definition truthy_value (v : Value) : bool :=
  match v with
  | Num n => truthy n
  | Inherited _ => true
  | Undefined => false
  end.

Definition to_number (v : Value) : number :=
  match v with
  | Num n => n
  | Inherited _ => NaN
  | Undefined => NaN
  end.

Record CachedRates : Type := mkCached {
  rates : gmap (list N) number;
  date : jsstring;
  fetchedAt : Z
}.

(** The body of the remote answer. *)
Record ExchangeRateResponse : Type := mkResponse {
  resp_amount : number;
  resp_base : jsstring;
  resp_date : jsstring;
  resp_rates : gmap (list N) number
}.

(** What [fetch] and [response.json()] can come to. *)
Inductive FetchOutcome : Type :=
| NetworkFailure
| HttpStatus (status : nat)
| BadBody
| Body (data : ExchangeRateResponse).

Inductive Error : Type :=
| StorageFailure
| FetchFailure
| ApiError (status : nat)
| JsonFailure
| UnsupportedCurrency (code : CurrencyCode).

Inductive Result (A : Type) : Type :=
| Ok (a : A)
| Throw (e : Error).
Arguments Ok {A} a.
Arguments Throw {A} e.

Inductive LogEntry : Type :=
| LogMemoryHit
| LogStorageHit
| WarnReadError
| LogFetching
| LogSaved
| WarnSaveError.

(** The outside of the worker: the clock, the persisted store and the
    remote source, each answering its [n]-th call. *)
Record Env : Type := mkEnv {
  now : nat -> Z;
  storage_get_fails : nat -> bool;
  storage_set_fails : nat -> bool;
  remote : nat -> FetchOutcome
}.

(** The worker's state: the module variable [memoryCache], the record
    under the key [cachedRates] of [chrome.storage.local], how often the
    outside was called so far, and the console. *)
Record World : Type := mkWorld {
  memoryCache : option CachedRates;
  storage : option CachedRates;
  ticks : nat;
  reads : nat;
  writes : nat;
  fetches : nat;
  console : list LogEntry
}.

Definition M (A : Type) : Type := Env -> World -> Result A * World.

Definition ret {A} (a : A) : M A := fun _ w => (Ok a, w).

Definition bind {A B} (m : M A) (f : A -> M B) : M B :=
  fun env w =>
    match m env w with
    | (Ok a, w') => f a env w'
    | (Throw e, w') => (Throw e, w')
    end.

Definition throw {A} (e : Error) : M A := fun _ w => (Throw e, w).

(** [try { m } catch (err) { h }] *)
Definition try_catch {A} (m : M A) (h : Error -> M A) : M A :=
  fun env w =>
    match m env w with
    | (Ok a, w') => (Ok a, w')
    | (Throw e, w') => h e env w'
    end.

Notation "'do' x <- m ; k" := (bind m (fun x => k))
  (at level 10, x name, m at level 100, k at level 200).
Notation "'run' m ; k" := (bind m (fun _ => k))
  (at level 10, m at level 100, k at level 200).

Definition date_now : M Z :=
  fun env w =>
    (Ok (now env (ticks w)),
     mkWorld (memoryCache w) (storage w) (S (ticks w)) (reads w) (writes w)
             (fetches w) (console w)).

Definition read_memoryCache : M (option CachedRates) :=
  fun _ w => (Ok (memoryCache w), w).

Definition write_memoryCache (c : CachedRates) : M unit :=
  fun _ w =>
    (Ok tt,
     mkWorld (Some c) (storage w) (ticks w) (reads w) (writes w) (fetches w)
             (console w)).

(** [chrome.storage.local.get('cachedRates')] *)
Definition storage_get : M (option CachedRates) :=
  fun env w =>
    let w' := mkWorld (memoryCache w) (storage w) (ticks w) (S (reads w))
                      (writes w) (fetches w) (console w) in
    if storage_get_fails env (reads w) then (Throw StorageFailure, w')
    else (Ok (storage w), w').

(** [chrome.storage.local.set({ cachedRates })] *)
Definition storage_set (c : CachedRates) : M unit :=
  fun env w =>
    if storage_set_fails env (writes w) then
      (Throw StorageFailure,
       mkWorld (memoryCache w) (storage w) (ticks w) (reads w) (S (writes w))
               (fetches w) (console w))
    else
      (Ok tt,
       mkWorld (memoryCache w) (Some c) (ticks w) (reads w) (S (writes w))
               (fetches w) (console w)).

(** [fetch(`${API_BASE}/latest?base=JPY`)] *)
Definition fetch_latest : M FetchOutcome :=
  fun env w =>
    (Ok (remote env (fetches w)),
     mkWorld (memoryCache w) (storage w) (ticks w) (reads w) (writes w)
             (S (fetches w)) (console w)).

Definition log (e : LogEntry) : M unit :=
  fun _ w =>
    (Ok tt,
     mkWorld (memoryCache w) (storage w) (ticks w) (reads w) (writes w)
             (fetches w) (console w ++ [e])).

Definition one : number := of_Z 1.

(** [for (const [code, rate] of Object.entries(data.rates))
       rates[code] = 1 / rate;] and then [rates['JPY'] = 1]. *)
Definition invert_rates (remote_rates : gmap (list N) number)
  : gmap (list N) number :=
  let rates :=
    fold_left (fun (acc : gmap (list N) number) (e : list N * number) =>
                 object_set acc (fst e) (div one (snd e)))
              (map_to_list remote_rates) ∅ in
  object_set rates JPY one.

(** Steps 1 and 2 of [getExchangeRates]: the table of a tier that is still
    fresh, if there is one. *)
Definition from_memory : M (option CachedRates) :=
  do mc <- read_memoryCache ;
  match mc with
  | Some c =>
      do t <- date_now ;
      if (t - fetchedAt c <? CACHE_DURATION)%Z then
        run log LogMemoryHit ; ret (Some c)
      else ret None
  | None => ret None
  end.

Definition from_storage : M (option CachedRates) :=
  try_catch
    (do stored <- storage_get ;
     match stored with
     | Some cached =>
         do t <- date_now ;
         if (t - fetchedAt cached <? CACHE_DURATION)%Z then
           run log LogStorageHit ;
           run write_memoryCache cached ;
           ret (Some cached)
         else ret None
     | None => ret None
     end)
    (fun _ => run log WarnReadError ; ret None).

(** Steps 3 and 4: the remote fetch and the two stores. *)
Definition from_remote : M CachedRates :=
  run log LogFetching ;
  do response <- fetch_latest ;
  match response with
  | NetworkFailure => throw FetchFailure
  | HttpStatus status => throw (ApiError status)
  | BadBody => throw JsonFailure
  | Body data =>
      let rates := invert_rates (resp_rates data) in
      do t <- date_now ;
      let cachedRates := mkCached rates (resp_date data) t in
      run write_memoryCache cachedRates ;
      run try_catch (run storage_set cachedRates ; log LogSaved)
                    (fun _ => log WarnSaveError) ;
      ret cachedRates
  end.

Definition getExchangeRates : M CachedRates :=
  do hit <- from_memory ;
  match hit with
  | Some c => ret c
  | None =>
      do hit <- from_storage ;
      match hit with
      | Some c => ret c
      | None => from_remote
      end
  end.

(** The [rate] of the answer is what the lookup gave, which need not be
    a number. *)
Record Conversion : Type := mkConversion {
  yen : number;
  rate : Value;
  conv_date : jsstring
}.

Definition convertToYen (amount : number) (fromCurrency : CurrencyCode)
  : M Conversion :=
  do c <- getExchangeRates ;
  let rate := object_get (rates c) fromCurrency in
  if negb (truthy_value rate) then throw (UnsupportedCurrency fromCurrency)
  else
    let yen := mul amount (to_number rate) in
    ret (mkConversion yen rate (date c)).

(** Whether the in-process table is fresh at the first reading of the
    clock, and whether the persisted one is at the reading after it. *)
Definition memory_fresh (env : Env) (w : World) : bool :=
  match memoryCache w with
  | Some c => (now env (ticks w) - fetchedAt c <? CACHE_DURATION)%Z
  | None => false
  end.

Definition ticks_after_memory (w : World) : nat :=
  match memoryCache w with
  | Some _ => S (ticks w)
  | None => ticks w
  end.

Definition storage_fresh (env : Env) (w : World) : bool :=
  negb (storage_get_fails env (reads w))
  && match storage w with
     | Some c =>
         (now env (ticks_after_memory w) - fetchedAt c <? CACHE_DURATION)%Z
     | None => false
     end.

(** The clock readings used up once the persisted tier was looked at:
    the store is timed only when it was read and held a table. *)
Definition ticks_after_storage (env : Env) (w : World) : nat :=
  if storage_get_fails env (reads w) then ticks_after_memory w
  else
    match storage w with
    | Some _ => S (ticks_after_memory w)
    | None => ticks_after_memory w
    end.

(** The state in which the remote fetch starts when neither tier had a
    fresh table. *)
Definition after_miss (env : Env) (w : World) : World :=
  mkWorld (memoryCache w) (storage w) (ticks_after_storage env w)
          (S (reads w)) (writes w) (fetches w)
          (console w ++ (if storage_get_fails env (reads w)
                         then [WarnReadError] else [])).

(** The table built from a remote answer at clock reading [t]. *)
Definition fresh_table (data : ExchangeRateResponse) (t : Z) : CachedRates :=
  mkCached (invert_rates (resp_rates data)) (resp_date data) t.

(** The error a failed fetch raises. *)
Definition fetch_error (o : FetchOutcome) : Error :=
  match o with
  | HttpStatus status => ApiError status
  | BadBody => JsonFailure
  | _ => FetchFailure
  end.

(** The state a call leaves. *)
Definition after_call (env : Env) (w : World) : World :=
  snd (getExchangeRates env w).

(** A freshly started worker with an empty store. *)
Definition empty_world : World := mkWorld None None 0 0 0 0 [].

Definition minutes (n : Z) : Z := (n * 60 * 1000)%Z.

(** All clock readings from the [n]-th on lie less than the cache
    duration apart. *)
Definition within_window (env : Env) (n : nat) : Prop :=
  forall i j : nat,
    n <= i -> n <= j -> (now env i - now env j < CACHE_DURATION)%Z.

(** The clock readings from the [a]-th up to and without the [b]-th lie
    less than the cache duration apart: with [a] the readings taken before
    a run and [b] those taken after it, these are the readings the run
    makes. *)
Definition readings_within (env : Env) (a b : nat) : Prop :=
  forall i j : nat,
    a <= i < b -> a <= j < b -> (now env i - now env j < CACHE_DURATION)%Z.

(** An outside that never changes: the clock stands at [t], the store
    works or fails as [get_fails] and [set_fails] say, and the remote
    source always answers [r]. *)
Definition steady_env (t : Z) (get_fails set_fails : bool) (r : FetchOutcome)
  : Env :=
  mkEnv (fun _ => t) (fun _ => get_fails) (fun _ => set_fails) (fun _ => r).

Definition USD : CurrencyCode := lit "USD".

(** The table of scenario 4: [{USD: 150, JPY: 1}] of 2024-01-01. *)
Definition table_2024 : CachedRates :=
  mkCached (<[USD := of_Z 150]> (<[JPY := of_Z 1]> ∅)) (lit "2024-01-01") 0.

(** A remote answer with one factor for USD. *)
Definition usd_answer (x : number) : ExchangeRateResponse :=
  mkResponse (of_Z 1) (lit "JPY") (lit "2024-01-01") (<[USD := x]> ∅).

(** A remote answer that lists JPY itself. *)
Definition jpy_answer (x : number) : ExchangeRateResponse :=
  mkResponse (of_Z 1) (lit "JPY") (lit "2024-01-01") (<[JPY := x]> ∅).

(** A remote answer with the key [__proto__], as [JSON.parse] gives for
    [{"__proto__": x}]. *)
Definition proto_answer (x : number) : ExchangeRateResponse :=
  mkResponse (of_Z 1) (lit "JPY") (lit "2024-01-01") (<[proto_key := x]> ∅).

(** The clock of scenario 6: the calls read it at T, T + 30 min and then at
    T + 90 min, with T = 0. *)
Definition scenario_clock (i : nat) : Z :=
  match i with
  | 0 => 0%Z
  | 1 => minutes 30
  | _ => minutes 90
  end.

Definition scenario_env : Env :=
  mkEnv scenario_clock (fun _ => false) (fun _ => false)
        (fun _ => Body (usd_answer (div one (of_Z 150)))).

End ServiceWorker.

(** ** Detection at a point (content script) *)
Module PointDetection.

Import Dom.

(** [s.substring(i, j)] for any [i] and [j]: the arguments are swapped when
    [i > j]. *)
Definition substring_any (s : jsstring) (i j : nat) : jsstring :=
  substring s (Nat.min i j) (Nat.max i j).

Definition boundary_tags : list jsstring :=
  List.map lit ["body"; "html"; "head"]%string.

Definition maxDepth : nat := 15.

(** The [while] loop of [detectFromParentElements] over the chain of
    [parentElement]s, nearest first, with [depth] ancestors already
    passed. *)
Fixpoint walk_parents (patterns : list PatternRule) (ancestors : list Element)
    (depth : nat) (x y : number)
  : option (option DetectedCurrency * list PatternRule) :=
  match ancestors with
  | [] => Some (None, patterns)
  | current :: rest =>
      if depth <? maxDepth then
        let tag := toLowerCase (tagName current) in
        if existsb (string_eqb tag) boundary_tags then Some (None, patterns)
        else
          match (if includes_char tag 45%N
                 then detectFromTargetElement patterns current x y
                 else Some (None, patterns)) with
          | None => None
          | Some (Some d, patterns1) => Some (Some d, patterns1)
          | Some (None, patterns1) =>
              match detectFromTargetElement patterns1 current x y with
              | None => None
              | Some (Some d, patterns2) => Some (Some d, patterns2)
              | Some (None, patterns2) =>
                  walk_parents patterns2 rest (S depth) x y
              end
          end
      else Some (None, patterns)
  end.

(** [detectFromParentElements(element, x, y)], given the ancestors of the
    element. *)
Definition detectFromParentElements (patterns : list PatternRule)
    (ancestors : list Element) (x y : number)
  : option (option DetectedCurrency * list PatternRule) :=
  walk_parents patterns ancestors 0 x y.

(** What the detector reads of the node a caret range starts in:
    whether it is a text node, its [textContent], and the bounding box of
    the range between two offsets of the node ([None] when building the
    range or measuring it throws). *)
Record CaretNode : Type := mkCaretNode {
  isTextNode : bool;
  nodeText : option jsstring;
  rangeRect : nat -> nat -> option DOMRect
}.

(** What [document.caretRangeFromPoint(x, y)] comes to. *)
Inductive CaretResult : Type :=
| CaretThrows
| CaretNull
| CaretAt (node : CaretNode) (startOffset : nat).

Definition Document : Type := number -> number -> CaretResult.

(** [isPointInTextRange]: the same padded bounds test as for an element;
    [false] when the range cannot be built. *)
Definition isPointInTextRange (node : CaretNode) (startOffset endOffset : nat)
    (x y : number) : bool :=
  match rangeRect node startOffset endOffset with
  | Some rect => isInBounds rect x y
  | None => false
  end.

(** The [for ... of currencies] loop of [detectFromCaretRange]. *)
Fixpoint first_at_offset (node : CaretNode) (currencies : list DetectedCurrency)
    (relativeOffset start : nat) (x y : number) : option DetectedCurrency :=
  match currencies with
  | [] => None
  | currency :: rest =>
      if (startIndex currency <=? relativeOffset)
         && (relativeOffset <=? endIndex currency) then
        let actualStart := startIndex currency + start in
        let actualEnd := endIndex currency + start in
        if isPointInTextRange node actualStart actualEnd x y then
          Some (mkDetected (code currency) (amount currency)
                           (originalText currency) actualStart actualEnd)
        else first_at_offset node rest relativeOffset start x y
      else first_at_offset node rest relativeOffset start x y
  end.

Definition detectFromCaretRange (patterns : list PatternRule) (doc : Document)
    (x y : number) : option (option DetectedCurrency * list PatternRule) :=
  match doc x y with
  | CaretThrows => Some (None, patterns)
  | CaretNull => Some (None, patterns)
  | CaretAt node offset =>
      if negb (isTextNode node) then Some (None, patterns)
      else
        let text := match nodeText node with Some t => t | None => [] end in
        let start := offset - 50 in
        let end_ := Nat.min (length text) (offset + 50) in
        let surroundingText := substring_any text start end_ in
        match detectCurrencies patterns surroundingText with
        | None => None
        | Some (currencies, patterns') =>
            Some (first_at_offset node currencies (offset - start) start x y,
                  patterns')
        end
  end.

(** [detectCurrencyAtPoint(element, x, y)], given the document and the
    ancestors of the element. *)
Definition detectCurrencyAtPoint (patterns : list PatternRule) (doc : Document)
    (element : Element) (ancestors : list Element) (x y : number)
  : option (option DetectedCurrency * list PatternRule) :=
  match detectFromCaretRange patterns doc x y with
  | None => None
  | Some (Some d, patterns1) => Some (Some d, patterns1)
  | Some (None, patterns1) =>
      match detectFromTargetElement patterns1 element x y with
      | None => None
      | Some (Some d, patterns2) => Some (Some d, patterns2)
      | Some (None, patterns2) =>
          detectFromParentElements patterns2 ancestors x y
      end
  end.

(** The ancestors the walk can reach: those below the first [body],
    [html] or [head], and at most [maxDepth] of them. *)
Fixpoint below_boundary (ancestors : list Element) : list Element :=
  match ancestors with
  | [] => []
  | a :: rest =>
      if existsb (string_eqb (toLowerCase (tagName a))) boundary_tags then []
      else a :: below_boundary rest
  end.

Definition reachable_ancestors (ancestors : list Element) : list Element :=
  firstn maxDepth (below_boundary ancestors).

(** The match of an element read with fresh pattern objects. *)
Definition target_match (el : Element) (x y : number)
  : option DetectedCurrency :=
  match detectFromTargetElement CURRENCY_PATTERNS el x y with
  | Some (r, _) => r
  | None => None
  end.

(** The first element of a list that has a match. *)
Fixpoint first_match (els : list Element) (x y : number)
  : option DetectedCurrency :=
  match els with
  | [] => None
  | el :: rest =>
      match target_match el x y with
      | Some d => Some d
      | None => first_match rest x y
      end
  end.

(** The match at the caret read with fresh pattern objects. *)
Definition caret_match (doc : Document) (x y : number)
  : option DetectedCurrency :=
  match detectFromCaretRange CURRENCY_PATTERNS doc x y with
  | Some (r, _) => r
  | None => None
  end.

Definition or_first {A} (a b : option A) : option A :=
  match a with
  | Some v => Some v
  | None => b
  end.

(** The three methods in their order: the caret, the element, the
    ancestors. *)
Definition point_match (doc : Document) (element : Element)
    (ancestors : list Element) (x y : number) : option DetectedCurrency :=
  or_first (caret_match doc x y)
    (or_first (target_match element x y)
       (first_match (reachable_ancestors ancestors) x y)).

(** What holds of every match handed on. *)
Definition sound_match (d : DetectedCurrency) : Prop :=
  lt zero (amount d) = true
  /\ le (amount d) MAX_AMOUNT = true
  /\ code d <> JPY
  /\ startIndex d < endIndex d
  /\ endIndex d - startIndex d = length (originalText d).

Definition sound_result (r : option DetectedCurrency) : Prop :=
  match r with
  | Some d => sound_match d
  | None => True
  end.

Definition node_text (node : CaretNode) : jsstring :=
  match nodeText node with
  | Some t => t
  | None => []
  end.

(** A text node holding [t] whose ranges all have the box [rect]. *)
Definition text_node (t : string) (rect : DOMRect) : CaretNode :=
  mkCaretNode true (Some (lit t)) (fun _ _ => Some rect).

Definition small_box : DOMRect :=
  mkRect (of_Z 0) (of_Z 40) (of_Z 0) (of_Z 20) (of_Z 40) (of_Z 20).

(** A document whose caret is always at offset 60 of one text node of 68
    characters, inside the [$100] at 58. *)
Definition hotel_text : string :=
  "The total for the two tickets and the hotel room comes to $100 today".

Definition hotel_document : Document :=
  fun _ _ => CaretAt (text_node hotel_text small_box) 60.

(** A document without a caret position anywhere. *)
Definition no_caret : Document := fun _ _ => CaretNull.

End PointDetection.

(** ** The content script's mouse handling *)
Module ContentScript.

Import Dom PointDetection.

(** The calls into the tooltip module. *)
Inductive TooltipCall : Type :=
| CancelHideTooltip
| ShowTooltip (currency : DetectedCurrency) (x y : number)
| HideTooltip.

(** What [processMousePosition] reads of a mouse event: the target with its
    ancestors, whether the target lies in the extension's own tooltip
    ([target.closest('#currency-to-yen-tooltip')]), and the pointer. *)
Record HoverEvent : Type := mkHover {
  target : Element;
  targetAncestors : list Element;
  insideTooltip : bool;
  clientX : number;
  clientY : number
}.

(** The module variable [lastDetectedCurrency] and the detector's pattern
    objects. *)
Record PageState : Type := mkPage {
  lastDetectedCurrency : option DetectedCurrency;
  pagePatterns : list PatternRule
}.

(** [last.originalText === c.originalText && last.startIndex === c.startIndex] *)
Definition same_currency (last c : DetectedCurrency) : bool :=
  string_eqb (originalText last) (originalText c)
  && (startIndex last =? startIndex c).

Definition processMousePosition (doc : Document) (st : PageState)
    (event : HoverEvent) : option (list TooltipCall * PageState) :=
  if insideTooltip event then Some ([CancelHideTooltip], st)
  else
    match detectCurrencyAtPoint (pagePatterns st) doc (target event)
            (targetAncestors event) (clientX event) (clientY event) with
    | None => None
    | Some (Some currency, patterns') =>
        match lastDetectedCurrency st with
        | Some last =>
            if same_currency last currency then
              Some ([CancelHideTooltip], mkPage (Some last) patterns')
            else
              Some ([ShowTooltip currency (clientX event) (clientY event)],
                    mkPage (Some currency) patterns')
        | None =>
            Some ([ShowTooltip currency (clientX event) (clientY event)],
                  mkPage (Some currency) patterns')
        end
    | Some (None, patterns') =>
        match lastDetectedCurrency st with
        | Some _ => Some ([HideTooltip], mkPage None patterns')
        | None => Some ([], mkPage None patterns')
        end
    end.

Definition is_show (c : TooltipCall) : bool :=
  match c with
  | ShowTooltip _ _ _ => true
  | _ => false
  end.

Definition is_hide (c : TooltipCall) : bool :=
  match c with
  | HideTooltip => true
  | _ => false
  end.

(** What the handler does outside the tooltip, in terms of the match at
    the point. *)
Definition hover_outcome (last : option DetectedCurrency)
    (found : option DetectedCurrency) (x y : number)
  : list TooltipCall * option DetectedCurrency :=
  match found, last with
  | Some currency, Some l =>
      if same_currency l currency then ([CancelHideTooltip], Some l)
      else ([ShowTooltip currency x y], Some currency)
  | Some currency, None => ([ShowTooltip currency x y], Some currency)
  | None, Some _ => ([HideTooltip], None)
  | None, None => ([], None)
  end.

(** The pointer at (10, 10) over [price_span], outside the tooltip. *)
Definition over_price_span : HoverEvent :=
  mkHover price_span [] false (of_Z 10) (of_Z 10).

Definition fresh_page : PageState := mkPage None CURRENCY_PATTERNS.

(** A [<span>hello</span>] of the same size, and the pointer over it. *)
Definition plain_span : Element :=
  mkElement (lit "SPAN") (Some (lit "hello")) None (fun _ => None)
    (getBoundingClientRect price_span).

Definition over_plain_span : HoverEvent :=
  mkHover plain_span [] false (of_Z 10) (of_Z 10).

End ContentScript.

(** ** The content script's timers and event loop *)
Module Timers.

Import Dom PointDetection ContentScript.

(** What a timer of the page runs: the debounced handling of a mouse
    move, the delayed display of [showTooltip], the delayed hiding of
    [hideTooltip]. *)
Inductive Callback : Type :=
| MoveCallback (event : HoverEvent)
| ShowCallback (currency : DetectedCurrency) (x y : number)
| HideCallback.

(** The timers of the window: those set and neither run nor cleared,
    oldest first, and the handle the next [setTimeout] returns.  Handles
    are positive and not used twice. *)
Record TimerTable : Type := mkTable {
  pending : list (nat * Callback);
  next_handle : nat
}.

Definition setTimeout (cb : Callback) (tb : TimerTable) : nat * TimerTable :=
  (next_handle tb,
   mkTable (pending tb ++ [(next_handle tb, cb)]) (S (next_handle tb))).

Definition clearTimeout (id : nat) (tb : TimerTable) : TimerTable :=
  mkTable (List.filter (fun t => negb (fst t =? id)) (pending tb))
          (next_handle tb).

(** [if (timer) { clearTimeout(timer); timer = null; }]: [null] and 0 are
    falsy. *)
Definition clear_if_set (timer : option nat) (tb : TimerTable)
  : option nat * TimerTable :=
  match timer with
  | Some (S n) => (None, clearTimeout (S n) tb)
  | _ => (timer, tb)
  end.

(** The module variables [showTimer] and [hideTimer] of the tooltip. *)
Record TooltipTimers : Type := mkTooltipTimers {
  showTimer : option nat;
  hideTimer : option nat
}.

Definition showTooltip (currency : DetectedCurrency) (x y : number)
    (tt : TooltipTimers) (tb : TimerTable) : TooltipTimers * TimerTable :=
  let (_, tb1) := clear_if_set (showTimer tt) tb in
  let (h, tb2) := clear_if_set (hideTimer tt) tb1 in
  let (id, tb3) := setTimeout (ShowCallback currency x y) tb2 in
  (mkTooltipTimers (Some id) h, tb3).

Definition hideTooltip (tt : TooltipTimers) (tb : TimerTable)
  : TooltipTimers * TimerTable :=
  let (s, tb1) := clear_if_set (showTimer tt) tb in
  let (id, tb2) := setTimeout HideCallback tb1 in
  (mkTooltipTimers s (Some id), tb2).

Definition cancelHideTooltip (tt : TooltipTimers) (tb : TimerTable)
  : TooltipTimers * TimerTable :=
  let (h, tb1) := clear_if_set (hideTimer tt) tb in
  (mkTooltipTimers (showTimer tt) h, tb1).

Definition destroyTooltip (tt : TooltipTimers) (tb : TimerTable)
  : TooltipTimers * TimerTable :=
  let (s, tb1) := clear_if_set (showTimer tt) tb in
  let (h, tb2) := clear_if_set (hideTimer tt) tb1 in
  (mkTooltipTimers s h, tb2).

Definition tooltip_call (c : TooltipCall) (tt : TooltipTimers)
    (tb : TimerTable) : TooltipTimers * TimerTable :=
  match c with
  | CancelHideTooltip => cancelHideTooltip tt tb
  | ShowTooltip currency x y => showTooltip currency x y tt tb
  | HideTooltip => hideTooltip tt tb
  end.

Definition tooltip_calls (calls : list TooltipCall) (tt : TooltipTimers)
    (tb : TimerTable) : TooltipTimers * TimerTable :=
  fold_left (fun r c => tooltip_call c (fst r) (snd r)) calls (tt, tb).

(** The module variables of the content script. *)
Record ContentState : Type := mkContent {
  isEnabled : bool;
  mouseMoveTimer : option nat;
  pageState : PageState
}.

Record Window : Type := mkWindow {
  content : ContentState;
  tooltip : TooltipTimers;
  timers : TimerTable
}.

(** [handleMouseMove]: the timer of the move before is cleared and one
    for this move is set. *)
Definition handleMouseMove (event : HoverEvent) (w : Window) : Window :=
  if negb (isEnabled (content w)) then w
  else
    let tb1 := snd (clear_if_set (mouseMoveTimer (content w)) (timers w)) in
    let (id, tb2) := setTimeout (MoveCallback event) tb1 in
    mkWindow (mkContent (isEnabled (content w)) (Some id)
                        (pageState (content w)))
             (tooltip w) tb2.

(** [lastDetectedCurrency = null; hideTooltip();] *)
Definition forget_and_hide (w : Window) : Window :=
  let (tt, tb) := hideTooltip (tooltip w) (timers w) in
  mkWindow (mkContent (isEnabled (content w)) (mouseMoveTimer (content w))
                      (mkPage None (pagePatterns (pageState (content w)))))
           tt tb.

(** What [handleMouseOut] reads of [event.relatedTarget]: whether it lies
    in the tooltip and whether [document.body] contains it. *)
Record RelatedTarget : Type := mkRelated {
  inTooltip : bool;
  inBody : bool
}.

Definition handleMouseOut (relatedTarget : option RelatedTarget) (w : Window)
  : Window :=
  match relatedTarget with
  | Some r =>
      if inTooltip r then w
      else if negb (inBody r) then forget_and_hide w
      else w
  | None => forget_and_hide w
  end.

(** The listener of [chrome.storage.onChanged] for a change of
    [settings] in the [sync] area. *)
Definition settingsChanged (enabled : bool) (w : Window) : Window :=
  let c := mkContent enabled (mouseMoveTimer (content w))
                     (pageState (content w)) in
  if negb enabled then
    let (tt, tb) := hideTooltip (tooltip w) (timers w) in mkWindow c tt tb
  else mkWindow c (tooltip w) (timers w).

(** [loadSettings] when the worker answers with success. *)
Definition settingsLoaded (enabled : bool) (w : Window) : Window :=
  mkWindow (mkContent enabled (mouseMoveTimer (content w))
                      (pageState (content w)))
           (tooltip w) (timers w).

(** The timer with the given handle runs, if it is pending.  The move
    callback handles its event and then resets [mouseMoveTimer]; the hide
    callback resets [hideTimer]; the show callback touches no timer. *)
Definition runTimer (doc : Document) (id : nat) (w : Window) : Window :=
  match List.find (fun t => fst t =? id) (pending (timers w)) with
  | None => w
  | Some (_, cb) =>
      let tb := clearTimeout id (timers w) in
      match cb with
      | MoveCallback event =>
          match processMousePosition doc (pageState (content w)) event with
          | Some (calls, st') =>
              let (tt, tb') := tooltip_calls calls (tooltip w) tb in
              mkWindow (mkContent (isEnabled (content w)) None st') tt tb'
          | None => mkWindow (content w) (tooltip w) tb
          end
      | ShowCallback _ _ _ => mkWindow (content w) (tooltip w) tb
      | HideCallback =>
          mkWindow (content w)
                   (mkTooltipTimers (showTimer (tooltip w)) None) tb
      end
  end.

(** What happens to the page. *)
Inductive Event : Type :=
| MouseMove (event : HoverEvent)
| MouseOut (relatedTarget : option RelatedTarget)
| Scroll
| SettingsLoaded (enabled : bool)
| SettingsChanged (enabled : bool)
| BeforeUnload
| TimerRuns (handle : nat).

Definition step (doc : Document) (e : Event) (w : Window) : Window :=
  match e with
  | MouseMove event => handleMouseMove event w
  | MouseOut relatedTarget => handleMouseOut relatedTarget w
  | Scroll => forget_and_hide w
  | SettingsLoaded enabled => settingsLoaded enabled w
  | SettingsChanged enabled => settingsChanged enabled w
  | BeforeUnload =>
      let (tt, tb) := destroyTooltip (tooltip w) (timers w) in
      mkWindow (content w) tt tb
  | TimerRuns id => runTimer doc id w
  end.

Definition run_events (doc : Document) (events : list Event) (w : Window) : Window :=
  fold_left (fun w e => step doc e w) events w.

(** The page when the script has been loaded. *)
Definition initial_window : Window :=
  mkWindow (mkContent true None (mkPage None CURRENCY_PATTERNS))
           (mkTooltipTimers None None) (mkTable [] 1).

Definition is_move (t : nat * Callback) : bool :=
  match snd t with
  | MoveCallback _ => true
  | _ => false
  end.

Definition is_show_timer (t : nat * Callback) : bool :=
  match snd t with
  | ShowCallback _ _ _ => true
  | _ => false
  end.

(** A pending move callback is the one [mouseMoveTimer] names, a pending
    show callback the one [showTimer] names, and it shows a sound
    match. *)
Definition owned (m s : option nat) (t : nat * Callback) : Prop :=
  match snd t with
  | MoveCallback _ => m = Some (fst t)
  | ShowCallback c _ _ => s = Some (fst t) /\ sound_match c
  | HideCallback => True
  end.

Fixpoint distinct_handles (l : list (nat * Callback)) : Prop :=
  match l with
  | [] => True
  | t :: rest =>
      Forall (fun u => fst u <> fst t) rest /\ distinct_handles rest
  end.

Definition table_ok (tb : TimerTable) : Prop :=
  0 < next_handle tb
  /\ Forall (fun t => 0 < fst t < next_handle tb) (pending tb)
  /\ distinct_handles (pending tb).

Definition timers_ok (m s : option nat) (tb : TimerTable) : Prop :=
  table_ok tb /\ Forall (owned m s) (pending tb).

Definition window_ok (w : Window) : Prop :=
  timers_ok (mouseMoveTimer (content w)) (showTimer (tooltip w)) (timers w)
  /\ exists f, pagePatterns (pageState (content w)) = patterns_in_state f.

Definition no_move (tb : TimerTable) : Prop :=
  Forall (fun t => is_move t = false) (pending tb).

Definition no_show (tb : TimerTable) : Prop :=
  Forall (fun t => is_show_timer t = false) (pending tb).

(** The events whose handlers call [hideTooltip] whatever the state. *)
Definition always_hides (e : Event) : bool :=
  match e with
  | Scroll => true
  | MouseOut None => true
  | MouseOut (Some r) => negb (inTooltip r) && negb (inBody r)
  | SettingsChanged enabled => negb enabled
  | _ => false
  end.

End Timers.

(** ** The service worker: settings and messages *)
Module WorkerMessages.

Import ServiceWorker.

Record ExtensionSettings : Type := mkSettings {
  enabled : bool;
  showOriginalAmount : bool;
  tooltipDelay : number
}.

(** [Partial<ExtensionSettings>]: a field is [None] when the key is
    absent. *)
Record PartialSettings : Type := mkPartial {
  enabled_opt : option bool;
  showOriginalAmount_opt : option bool;
  tooltipDelay_opt : option number
}.

Definition DEFAULT_SETTINGS : ExtensionSettings :=
  mkSettings true true (of_Z 200).

Definition or_else {A} (o : option A) (d : A) : A :=
  match o with
  | Some a => a
  | None => d
  end.

(** [{ ...base, ...over }] *)
Definition spread (base : ExtensionSettings) (over : PartialSettings)
  : ExtensionSettings :=
  mkSettings (or_else (enabled_opt over) (enabled base))
             (or_else (showOriginalAmount_opt over) (showOriginalAmount base))
             (or_else (tooltipDelay_opt over) (tooltipDelay base)).

(** A full settings object as a stored record. *)
Definition as_partial (s : ExtensionSettings) : PartialSettings :=
  mkPartial (Some (enabled s)) (Some (showOriginalAmount s))
            (Some (tooltipDelay s)).

Definition no_settings : PartialSettings := mkPartial None None None.

(** [chrome.storage.sync]: the record under the key [settings], and how
    often it was read and written. *)
Record SyncStore : Type := mkSync {
  stored_settings : option PartialSettings;
  sync_reads : nat;
  sync_writes : nat
}.

(** Whether the [n]-th read and the [n]-th write of the store fail. *)
Record SyncEnv : Type := mkSyncEnv {
  sync_get_fails : nat -> bool;
  sync_set_fails : nat -> bool
}.

(** [getSettings]: a failed read is caught and answered with the
    defaults. *)
Definition getSettings (env : SyncEnv) (st : SyncStore)
  : ExtensionSettings * SyncStore :=
  let st' := mkSync (stored_settings st) (S (sync_reads st)) (sync_writes st) in
  if sync_get_fails env (sync_reads st) then (DEFAULT_SETTINGS, st')
  else
    (spread DEFAULT_SETTINGS (or_else (stored_settings st) no_settings), st').

(** [setSettings]: the write is not guarded, its failure is thrown. *)
Definition setSettings (settings : PartialSettings) (env : SyncEnv)
    (st : SyncStore) : Result ExtensionSettings * SyncStore :=
  let (current, st1) := getSettings env st in
  let updated := spread current settings in
  if sync_set_fails env (sync_writes st1) then
    (Throw StorageFailure,
     mkSync (stored_settings st1) (sync_reads st1) (S (sync_writes st1)))
  else
    (Ok updated,
     mkSync (Some (as_partial updated)) (sync_reads st1) (S (sync_writes st1))).

(** A message to the worker: its [type] and the fields the handlers read
    ([amount] and [currency], [settings]). *)
Record Message : Type := mkMessage {
  msg_type : jsstring;
  msg_amount : number;
  msg_currency : CurrencyCode;
  msg_settings : PartialSettings
}.

Inductive ResponseData : Type :=
| ConversionData (c : Conversion)
| RatesData (c : CachedRates)
| SettingsData (s : ExtensionSettings).

(** The text of the [error] field: the message of the error thrown, or
    the fixed text for an unknown message type. *)
Inductive ErrorText : Type :=
| MessageOf (e : Error)
| UnknownMessageType.

Record MessageResponse : Type := mkMsgResponse {
  success : bool;
  data : option ResponseData;
  error : option ErrorText
}.

(** The worker as a whole: the rate cache, the settings store and the
    errors written with [console.error]. *)
Record Worker : Type := mkWorker {
  cache : World;
  sync : SyncStore;
  error_log : list ErrorText
}.

Definition succeeded (d : ResponseData) : MessageResponse :=
  mkMsgResponse true (Some d) None.

Definition failed (w : Worker) (c : World) (s : SyncStore) (e : Error)
  : MessageResponse * Worker :=
  (mkMsgResponse false None (Some (MessageOf e)),
   mkWorker c s (error_log w ++ [MessageOf e])).

(** [handleMessage]: the [switch] over [message.type] inside the
    [try]/[catch] that turns every error into a failure response. *)
Definition handleMessage (env : Env) (senv : SyncEnv) (message : Message)
    (w : Worker) : MessageResponse * Worker :=
  if string_eqb (msg_type message) (lit "CONVERT_TO_YEN") then
    match convertToYen (msg_amount message) (msg_currency message) env
            (cache w) with
    | (Ok result, c) =>
        (succeeded (ConversionData result), mkWorker c (sync w) (error_log w))
    | (Throw e, c) => failed w c (sync w) e
    end
  else if string_eqb (msg_type message) (lit "GET_ALL_RATES") then
    match getExchangeRates env (cache w) with
    | (Ok rates, c) =>
        (succeeded (RatesData rates), mkWorker c (sync w) (error_log w))
    | (Throw e, c) => failed w c (sync w) e
    end
  else if string_eqb (msg_type message) (lit "GET_SETTINGS") then
    let (settings, s) := getSettings senv (sync w) in
    (succeeded (SettingsData settings), mkWorker (cache w) s (error_log w))
  else if string_eqb (msg_type message) (lit "SET_SETTINGS") then
    match setSettings (msg_settings message) senv (sync w) with
    | (Ok settings, s) =>
        (succeeded (SettingsData settings),
         mkWorker (cache w) s (error_log w))
    | (Throw e, s) => failed w (cache w) s e
    end
  else
    (mkMsgResponse false None (Some UnknownMessageType), w).

Definition known_types : list jsstring :=
  List.map lit ["CONVERT_TO_YEN"; "GET_ALL_RATES"; "GET_SETTINGS";
                "SET_SETTINGS"]%string.

(** A store that works. *)
Definition sync_ok : SyncEnv := mkSyncEnv (fun _ => false) (fun _ => false).

Definition empty_sync : SyncStore := mkSync None 0 0.

End WorkerMessages.

Import Dom ServiceWorker.
Import PointDetection ContentScript Timers WorkerMessages.

(** * Properties *)

(** ** The matcher: where a match can end *)
Section MatcherFacts.

Variable ic : bool.
Variable s : jsstring.

Lemma nth_error_in_range {A} (l : list A) (i : nat) (a : A) :
  nth_error l i = Some a -> S i <= length l.
Proof.
  intros H. apply Nat.le_succ_l. apply nth_error_Some. congruence.
Qed.

Lemma repeat_class_inv {R} (cls : char_class) (fuel : nat) :
  forall (min i : nat) (k : nat -> option R) (x : R),
    repeat_class ic s cls min fuel i k = Some x ->
    exists j, k j = Some x /\ i + min <= j /\ (i <= length s -> j <= length s).
Proof.
  induction fuel as [|fuel IH]; intros min i k x H; simpl in H.
  - destruct min; [|discriminate]. exists i. repeat split; auto; lia.
  - assert (Hstop : match min with O => k i | S _ => None end = Some x ->
                    exists j, k j = Some x /\ i + min <= j
                              /\ (i <= length s -> j <= length s)).
    { destruct min; [|discriminate]. intros Hk. exists i.
      repeat split; auto; lia. }
    destruct (nth_error s i) as [c|] eqn:Hc; [|auto].
    destruct (in_class ic cls c); [|auto].
    destruct (repeat_class ic s cls (Nat.pred min) fuel (S i) k) as [y|] eqn:Hr;
      [|auto].
    injection H as ->.
    apply IH in Hr as (j & Hk & Hlo & Hhi).
    apply nth_error_in_range in Hc.
    exists j. split; [exact Hk|]. split; [destruct min; simpl in *; lia|].
    intros _. apply Hhi. exact Hc.
Qed.

Lemma rmatch_inv {R} (r : regex) :
  forall (i : nat) (c : captures) (k : nat -> captures -> option R) (x : R),
    rmatch ic s r i c k = Some x ->
    exists j c', k j c' = Some x /\ i + min_len r <= j
                 /\ (i <= length s -> j <= length s).
Proof.
  induction r as [|cls|r1 IH1 r2 IH2|r1 IH1 r2 IH2|cls min max|r1 IH1
                  |n r1 IH1| |];
    intros i c k x H; simpl in H.
  - exists i, c. repeat split; auto; simpl; lia.
  - destruct (nth_error s i) as [ch|] eqn:Hc; [|discriminate].
    destruct (in_class ic cls ch); [|discriminate].
    apply nth_error_in_range in Hc.
    exists (S i), c. repeat split; auto; simpl; lia.
  - apply IH1 in H as (j1 & c1 & H & Hlo1 & Hhi1).
    apply IH2 in H as (j2 & c2 & H & Hlo2 & Hhi2).
    exists j2, c2. repeat split; auto; simpl; lia.
  - destruct (rmatch ic s r1 i c k) as [y|] eqn:H1.
    + injection H as ->. apply IH1 in H1 as (j & c' & H & Hlo & Hhi).
      exists j, c'. repeat split; auto; simpl; lia.
    + apply IH2 in H as (j & c' & H & Hlo & Hhi).
      exists j, c'. repeat split; auto; simpl; lia.
  - apply repeat_class_inv in H as (j & H & Hlo & Hhi).
    exists j, c. repeat split; auto.
  - destruct (rmatch ic s r1 i c k) as [y|] eqn:H1.
    + injection H as ->. apply IH1 in H1 as (j & c' & H & Hlo & Hhi).
      exists j, c'. repeat split; auto; simpl; lia.
    + exists i, c. repeat split; auto; simpl; lia.
  - apply IH1 in H as (j & c' & H & Hlo & Hhi).
    exists j, ((n, (i, j)) :: c'). repeat split; auto.
  - destruct i; [|discriminate]. exists 0, c. repeat split; auto.
  - destruct (xorb (word_before s i) (word_at s i)); [|discriminate].
    exists i, c. repeat split; auto; simpl; lia.
Qed.

Lemma search_inv (r : regex) (fuel : nat) :
  forall (i a j : nat) (c : captures),
    search ic s r fuel i = Some (a, j, c) ->
    i <= a /\ a + min_len r <= j /\ (i + fuel <= length s -> j <= length s).
Proof.
  induction fuel as [|fuel IH]; intros i a j c H; simpl in H.
  - destruct (rmatch ic s r i [] (fun j c => Some (j, c))) as [[j' c']|] eqn:Hm;
      [|discriminate].
    injection H as <- <- <-.
    apply rmatch_inv in Hm as (j & c0 & Hk & Hlo & Hhi).
    injection Hk as <- <-. repeat split; auto. intros; apply Hhi; lia.
  - destruct (rmatch ic s r i [] (fun j c => Some (j, c))) as [[j' c']|] eqn:Hm.
    + injection H as <- <- <-.
      apply rmatch_inv in Hm as (j & c0 & Hk & Hlo & Hhi).
      injection Hk as <- <-. repeat split; auto. intros; apply Hhi; lia.
    + apply IH in H as (Ha & Hlo & Hhi).
      repeat split; auto; try lia; intros; apply Hhi; lia.
Qed.

Lemma rmatch_captures {R} (r : regex) :
  forall (i : nat) (c : captures) (k : nat -> captures -> option R) (x : R),
    rmatch ic s r i c k = Some x ->
    exists j c',
      k j c' = Some x
      /\ forall n, defines r n = true \/ get_capture c n <> None ->
                   get_capture c' n <> None.
Proof.
  induction r as [|cls|r1 IH1 r2 IH2|r1 IH1 r2 IH2|cls min max|r1 IH1
                  |m r1 IH1| |];
    intros i c k x H; simpl in H.
  - exists i, c. split; [exact H|]. intros n [Hn|Hn]; [discriminate|exact Hn].
  - destruct (nth_error s i) as [ch|]; [|discriminate].
    destruct (in_class ic cls ch); [|discriminate].
    exists (S i), c. split; [exact H|].
    intros n [Hn|Hn]; [discriminate|exact Hn].
  - apply IH1 in H as (j1 & c1 & H & H1).
    apply IH2 in H as (j2 & c2 & H & H2).
    exists j2, c2. split; [exact H|]. simpl.
    intros n [Hn|Hn].
    + apply orb_true_iff in Hn as [Hn|Hn]; auto.
    + auto.
  - destruct (rmatch ic s r1 i c k) as [y|] eqn:Hy.
    + injection H as ->. apply IH1 in Hy as (j & c' & H & H1).
      exists j, c'. split; [exact H|]. simpl.
      intros n [Hn|Hn]; [apply andb_true_iff in Hn as [Hn _]|]; auto.
    + apply IH2 in H as (j & c' & H & H2).
      exists j, c'. split; [exact H|]. simpl.
      intros n [Hn|Hn]; [apply andb_true_iff in Hn as [_ Hn]|]; auto.
  - apply repeat_class_inv in H as (j & H & _).
    exists j, c. split; [exact H|].
    intros n [Hn|Hn]; [discriminate|exact Hn].
  - destruct (rmatch ic s r1 i c k) as [y|] eqn:Hy.
    + injection H as ->. apply IH1 in Hy as (j & c' & H & H1).
      exists j, c'. split; [exact H|].
      intros n [Hn|Hn]; [discriminate|auto].
    + exists i, c. split; [exact H|].
      intros n [Hn|Hn]; [discriminate|exact Hn].
  - apply IH1 in H as (j & c' & H & H1).
    exists j, ((m, (i, j)) :: c'). split; [exact H|].
    intros n Hn. unfold get_capture. simpl.
    destruct (Nat.eqb m n) eqn:Hmn; [discriminate|].
    apply H1. destruct Hn as [Hn|Hn]; [|auto].
    simpl in Hn. rewrite Hmn in Hn. auto.
  - destruct i; [|discriminate]. exists 0, c. split; [exact H|].
    intros n [Hn|Hn]; [discriminate|exact Hn].
  - destruct (xorb (word_before s i) (word_at s i)); [|discriminate].
    exists i, c. split; [exact H|].
    intros n [Hn|Hn]; [discriminate|exact Hn].
Qed.

Lemma search_captures (r : regex) (fuel : nat) :
  forall (i a j : nat) (c : captures) (n : nat),
    search ic s r fuel i = Some (a, j, c) ->
    defines r n = true -> get_capture c n <> None.
Proof.
  induction fuel as [|fuel IH]; intros i a j c n H Hn; simpl in H;
    destruct (rmatch ic s r i [] (fun j c => Some (j, c))) as [[j' c']|] eqn:Hm;
    try discriminate.
  - injection H as <- <- <-.
    apply rmatch_captures in Hm as (j & c0 & Hk & Hc).
    injection Hk as <- <-. auto.
  - injection H as <- <- <-.
    apply rmatch_captures in Hm as (j & c0 & Hk & Hc).
    injection Hk as <- <-. auto.
  - eapply IH; eassumption.
Qed.

End MatcherFacts.

(** ** [exec] and the scan of one pattern *)

Lemma substring_length (t : jsstring) (i j : nat) :
  i <= j -> j <= length t -> length (substring t i j) = j - i.
Proof.
  intros Hij Hj. unfold substring.
  rewrite firstn_length_le; [reflexivity|]. rewrite length_skipn. lia.
Qed.

Lemma exec_some (re re' : RegExpObject) (text : jsstring) (m : MatchArray) :
  exec re text = (Some m, re') ->
  lastIndex re <= index m
  /\ match_within text (min_len (source re)) m
  /\ re' = set_lastIndex re (index m + length (matched m)).
Proof.
  unfold exec. destruct (length text <? lastIndex re) eqn:Hlt; [discriminate|].
  apply Nat.ltb_ge in Hlt.
  destruct (search _ _ _ _ _) as [[[a j] c]|] eqn:Hs; [|discriminate].
  intros H. injection H as <- <-.
  apply search_inv in Hs as (Ha & Hlo & Hhi).
  assert (Hj : j <= length text) by (apply Hhi; lia).
  assert (Hlen : length (substring text a j) = j - a)
    by (apply substring_length; lia).
  unfold match_within. simpl. rewrite Hlen.
  replace (a + (j - a)) with j by lia.
  repeat split; auto; lia.
Qed.

Lemma exec_groups (re re' : RegExpObject) (text : jsstring) (m : MatchArray)
    (n : nat) :
  exec re text = (Some m, re') ->
  defines (source re) n = true -> group m n <> None.
Proof.
  unfold exec. destruct (length text <? lastIndex re); [discriminate|].
  destruct (search _ _ _ _ _) as [[[a j] c]|] eqn:Hs; [|discriminate].
  intros H Hn. injection H as <- <-. unfold group. simpl.
  pose proof (search_captures _ _ _ _ _ _ _ _ n Hs Hn) as Hc.
  destruct (get_capture c n) as [[a' b']|]; [discriminate|congruence].
Qed.

Lemma exec_none (re re' : RegExpObject) (text : jsstring) :
  exec re text = (None, re') -> re' = set_lastIndex re 0.
Proof.
  unfold exec. destruct (length text <? lastIndex re).
  - intros H. injection H as <-. reflexivity.
  - destruct (search _ _ _ _ _) as [[[a j] c]|]; [discriminate|].
    intros H. injection H as <-. reflexivity.
Qed.

Lemma matches_ordered (text : jsstring) (fuel : nat) :
  forall re : RegExpObject,
    Forall (fun m => lastIndex re <= index m
                     /\ match_within text (min_len (source re)) m)
           (matches fuel re text)
    /\ ForallOrdPairs (fun m1 m2 => match_end m1 <= index m2)
                      (matches fuel re text).
Proof.
  induction fuel as [|fuel IH]; intros re; simpl.
  - split; constructor.
  - destruct (exec re text) as [[m|] re'] eqn:He; [|split; constructor].
    apply exec_some in He as (Hidx & Hm & ->).
    destruct (IH (set_lastIndex re (index m + length (matched m))))
      as [Hall Hord].
    simpl in Hall. split.
    + constructor; [auto|].
      eapply Forall_impl; [exact Hall|]. simpl.
      intros m' [Hle Hw]. split; [lia | exact Hw].
    + constructor; [|exact Hord].
      eapply Forall_impl; [exact Hall|]. simpl.
      intros m' [Hle _]. exact Hle.
Qed.

Lemma matches_groups (text : jsstring) (n : nat) (fuel : nat) :
  forall re : RegExpObject,
    defines (source re) n = true ->
    Forall (fun m => group m n <> None) (matches fuel re text).
Proof.
  induction fuel as [|fuel IH]; intros re Hn; simpl; [constructor|].
  destruct (exec re text) as [[m|] re'] eqn:He; [|constructor].
  constructor; [eapply exec_groups; eassumption|].
  apply exec_some in He as (_ & _ & ->). apply IH. exact Hn.
Qed.

(** The rules read [match[1]], and the symbol rule and the two code rules
    also [match[2]]; these groups are defined in every match. *)
Lemma groups_read_defined (text : jsstring) :
  Forall (fun rule =>
            Forall (fun m => group m 1 <> None)
                   (matches (S (length text))
                            (set_lastIndex (pattern rule) 0) text))
         CURRENCY_PATTERNS
  /\ Forall (fun rule =>
               Forall (fun m => group m 2 <> None)
                      (matches (S (length text))
                               (set_lastIndex (pattern rule) 0) text))
            (firstn 3 (skipn 1 CURRENCY_PATTERNS)).
Proof.
  split; repeat constructor; apply matches_groups; reflexivity.
Qed.

(** The loop ends: with a pattern that cannot match the empty string,
    [S (length text)] iterations are enough, and the loop has then visited
    the successive matches in order and left [lastIndex] at 0. *)
Lemma scan_matches (rule : PatternRule) (text : jsstring) (fuel : nat) :
  forall (re : RegExpObject) (acc : Found),
    1 <= min_len (source re) ->
    lastIndex re <= length text ->
    length text < fuel + lastIndex re ->
    scan fuel re rule text acc
    = Some (fold_left (fun a m => visit rule m a) (matches fuel re text) acc,
            set_lastIndex re 0).
Proof.
  induction fuel as [|fuel IH]; intros re acc Hmin Hli Hfuel; [lia|].
  simpl. destruct (exec re text) as [[m|] re'] eqn:He.
  - apply exec_some in He as (Hidx & (Hlen & Hend & _) & ->).
    rewrite IH; simpl; auto; lia.
  - apply exec_none in He as ->. reflexivity.
Qed.

Lemma fold_visit (rule : PatternRule) (ms : list MatchArray) :
  forall acc : Found,
    fold_left (fun a m => visit rule m a) ms acc
    = fold_left (fun a d => accept d a) (omap (candidate rule) ms) acc.
Proof.
  induction ms as [|m ms IH]; intros acc; simpl; [reflexivity|].
  rewrite IH. unfold visit. destruct (candidate rule m); reflexivity.
Qed.

Lemma scan_all_candidates (text : jsstring) (rules : list PatternRule) :
  forall acc : Found,
    Forall nonempty_pattern rules ->
    scan_all rules text acc
    = Some (fold_left (fun a d => accept d a)
                      (flat_map (fun r => rule_candidates r text) rules) acc,
            List.map rewound rules).
Proof.
  induction rules as [|rule rules IH]; intros acc Hne; [reflexivity|].
  inversion Hne as [|? ? Hr Hrs]; subst.
  cbn [scan_all flat_map List.map].
  rewrite scan_matches; [|exact Hr|simpl; lia|simpl; lia].
  rewrite IH by assumption.
  rewrite fold_left_app, fold_visit. reflexivity.
Qed.

(** ** Taking and dropping candidates *)

Lemma string_eqb_eq (a : jsstring) :
  forall b : jsstring, string_eqb a b = true <-> a = b.
Proof.
  induction a as [|x a IH]; intros [|y b]; simpl; split;
    try discriminate; try reflexivity.
  - intros H. apply andb_true_iff in H as [Hx Hab].
    apply N.eqb_eq in Hx. apply IH in Hab. congruence.
  - intros H. injection H as -> ->. apply andb_true_iff. split.
    + apply N.eqb_refl.
    + apply IH. reflexivity.
Qed.

(** On spans that are not empty the three-way test of the scan is the
    test that the spans share a position. *)
Lemma overlap_test (a b s e : nat) :
  a < b -> s < e ->
  ((a <=? s) && (s <? b) || (a <? e) && (e <=? b) || (s <=? a) && (b <=? e)
   = true)
  <-> (a < e /\ s < b).
Proof.
  intros Hab Hse.
  rewrite !orb_true_iff, !andb_true_iff, !Nat.leb_le, !Nat.ltb_lt. lia.
Qed.

Lemma isOverlapping_false (l : list DetectedCurrency) (s e : nat) :
  s < e -> Forall nonempty_span l ->
  isOverlapping (List.map span l) s e = false ->
  Forall (fun c => endIndex c <= s \/ e <= startIndex c) l.
Proof.
  intros Hse Hne H. induction Hne as [|c l Hc Hne IH]; [constructor|].
  simpl in H. apply orb_false_iff in H as [Hhd Htl].
  constructor; [|auto].
  unfold nonempty_span in Hc.
  destruct (Nat.le_gt_cases (endIndex c) s) as [|Hs]; [auto|].
  destruct (Nat.le_gt_cases e (startIndex c)) as [|He]; [auto|].
  assert (Ht : startIndex c < e /\ s < endIndex c) by lia.
  apply (overlap_test _ _ _ _ Hc Hse) in Ht. simpl in Hhd. congruence.
Qed.

Lemma isOverlapping_true (l : list DetectedCurrency) (s e : nat) :
  s < e -> Forall nonempty_span l ->
  isOverlapping (List.map span l) s e = true ->
  Exists (fun c => startIndex c < e /\ s < endIndex c) l.
Proof.
  intros Hse Hne H. induction Hne as [|c l Hc Hne IH]; [discriminate|].
  simpl in H. apply orb_true_iff in H as [Hhd|Htl].
  - left. apply (overlap_test _ _ _ _ Hc Hse). exact Hhd.
  - right. auto.
Qed.

Lemma ForallOrdPairs_snoc {A} (R : A -> A -> Prop) (l : list A) (x : A) :
  ForallOrdPairs R l -> Forall (fun a => R a x) l ->
  ForallOrdPairs R (l ++ [x]).
Proof.
  intros Hl Hx. induction Hl as [|a l Ha Hl IH]; simpl.
  - constructor; constructor.
  - inversion Hx as [|? ? Hax Hx']; subst. constructor; [|auto].
    apply Forall_app. split; [exact Ha|]. constructor; [exact Hax|constructor].
Qed.

Lemma accept_ok (d : DetectedCurrency) (acc : Found) :
  nonempty_span d -> found_ok acc -> found_ok (accept d acc).
Proof.
  intros Hd (Hr & Hne & Hdis). unfold accept.
  destruct (isOverlapping (foundRanges acc) (startIndex d) (endIndex d)) eqn:Ho;
    simpl; [repeat split; assumption|].
  rewrite Hr in Ho. apply isOverlapping_false in Ho; [|exact Hd|exact Hne].
  repeat split; simpl.
  - rewrite Hr, List.map_app. reflexivity.
  - apply Forall_app. split; [exact Hne|]. constructor; [exact Hd|constructor].
  - apply ForallOrdPairs_snoc; [exact Hdis|].
    eapply Forall_impl; [exact Ho|]. unfold span_disjoint. simpl. tauto.
Qed.

Lemma fold_accept_ok (ds : list DetectedCurrency) :
  forall acc : Found,
    Forall nonempty_span ds -> found_ok acc ->
    found_ok (fold_left (fun a d => accept d a) ds acc).
Proof.
  induction ds as [|d ds IH]; intros acc Hds Hacc; simpl; [exact Hacc|].
  inversion Hds; subst. apply IH; [assumption|]. apply accept_ok; assumption.
Qed.

(** Only candidates are taken. *)
Lemma fold_accept_Forall (P : DetectedCurrency -> Prop)
    (ds : list DetectedCurrency) :
  forall acc : Found,
    Forall P ds -> Forall P (results acc) ->
    Forall P (results (fold_left (fun a d => accept d a) ds acc)).
Proof.
  induction ds as [|d ds IH]; intros acc Hds Hacc; simpl; [exact Hacc|].
  inversion Hds; subst. apply IH; [assumption|]. unfold accept.
  destruct (negb _); simpl; [|exact Hacc].
  apply Forall_app. split; [exact Hacc|]. constructor; [assumption|constructor].
Qed.

Lemma found_ok_empty : found_ok (mkFound [] []).
Proof. repeat split; constructor. Qed.

(** ** The sort by [startIndex] *)

Lemma insert_by_start_Forall (P : DetectedCurrency -> Prop)
    (x : DetectedCurrency) (l : list DetectedCurrency) :
  P x -> Forall P l -> Forall P (insert_by_start x l).
Proof.
  intros Hx Hl. induction Hl as [|y l Hy Hl IH]; simpl.
  - constructor; [exact Hx|constructor].
  - destruct (startIndex x <=? startIndex y); repeat constructor; auto.
Qed.

Lemma sort_by_start_Forall (P : DetectedCurrency -> Prop)
    (l : list DetectedCurrency) :
  Forall P l -> Forall P (sort_by_start l).
Proof.
  intros Hl. induction Hl as [|x l Hx Hl IH]; simpl; [constructor|].
  apply insert_by_start_Forall; assumption.
Qed.

Lemma insert_by_start_sorted (x : DetectedCurrency)
    (l : list DetectedCurrency) :
  StronglySorted start_le l -> StronglySorted start_le (insert_by_start x l).
Proof.
  intros Hl. induction Hl as [|y l Hl IH Hy]; simpl.
  - repeat constructor.
  - destruct (startIndex x <=? startIndex y) eqn:Hxy.
    + apply Nat.leb_le in Hxy. constructor; [constructor; assumption|].
      constructor; [exact Hxy|].
      eapply Forall_impl; [exact Hy|]. unfold start_le. intros; lia.
    + apply Nat.leb_gt in Hxy. constructor; [exact IH|].
      apply insert_by_start_Forall; [unfold start_le; lia | exact Hy].
Qed.

Lemma sort_by_start_sorted (l : list DetectedCurrency) :
  StronglySorted start_le (sort_by_start l).
Proof.
  induction l as [|x l IH]; simpl; [constructor|].
  apply insert_by_start_sorted. exact IH.
Qed.

Lemma span_disjoint_sym (a b : DetectedCurrency) :
  span_disjoint a b -> span_disjoint b a.
Proof. unfold span_disjoint. tauto. Qed.

Lemma insert_by_start_disjoint (x : DetectedCurrency)
    (l : list DetectedCurrency) :
  Forall (span_disjoint x) l -> ForallOrdPairs span_disjoint l ->
  ForallOrdPairs span_disjoint (insert_by_start x l).
Proof.
  intros Hx Hl. induction Hl as [|y l Hy Hl IH]; simpl.
  - repeat constructor.
  - inversion Hx as [|? ? Hxy Hx']; subst.
    destruct (startIndex x <=? startIndex y).
    + constructor; [exact Hx|]. constructor; assumption.
    + constructor; [|auto].
      apply insert_by_start_Forall; [|exact Hy].
      apply span_disjoint_sym. exact Hxy.
Qed.

Lemma sort_by_start_disjoint (l : list DetectedCurrency) :
  ForallOrdPairs span_disjoint l ->
  ForallOrdPairs span_disjoint (sort_by_start l).
Proof.
  intros Hl. induction Hl as [|x l Hx Hl IH]; simpl; [constructor|].
  apply insert_by_start_disjoint; [|exact IH].
  apply sort_by_start_Forall. exact Hx.
Qed.

(** ** Comparisons of numbers *)

Lemma MAX_AMOUNT_value :
  MAX_AMOUNT = S754_finite false 8388608000000000 (-23).
Proof. reflexivity. Qed.

Lemma positive_of_not_le_zero (a : number) :
  isNaN a = false -> le a zero = false -> lt zero a = true.
Proof.
  destruct a as [s|[|]| |[|] m e]; simpl; try discriminate; reflexivity.
Qed.

Lemma le_of_not_gt (a : number) (m : positive) (e : Z) :
  isNaN a = false -> gt a (S754_finite false m e) = false ->
  le a (S754_finite false m e) = true.
Proof.
  unfold gt, le, SFltb, SFleb.
  destruct a as [s|[|]| |[|] m' e']; simpl; try discriminate; try reflexivity.
  intros _. rewrite (Z.compare_antisym e e').
  destruct (e ?= e')%Z; simpl; try discriminate; try reflexivity.
  change (Pos.compare_cont Eq m m') with (Pos.compare m m').
  change (Pos.compare_cont Eq m' m) with (Pos.compare m' m).
  rewrite (Pos.compare_antisym m m').
  destruct (m ?= m')%positive; simpl; try discriminate; reflexivity.
Qed.

Lemma parseAmount_range (t : jsstring) :
  parseAmount t = zero
  \/ (lt zero (parseAmount t) = true /\ le (parseAmount t) MAX_AMOUNT = true).
Proof.
  unfold parseAmount.
  set (a := parseFloat _).
  destruct (isNaN a || le a zero || gt a MAX_AMOUNT) eqn:H; [left; reflexivity|].
  apply orb_false_iff in H as [H Hgt]. apply orb_false_iff in H as [Hnan Hle].
  right. split.
  - apply positive_of_not_le_zero; assumption.
  - rewrite MAX_AMOUNT_value in *. apply le_of_not_gt; assumption.
Qed.

(** ** What a candidate is *)

Lemma patterns_nonempty : Forall nonempty_pattern CURRENCY_PATTERNS.
Proof. repeat constructor; unfold nonempty_pattern; simpl; lia. Qed.

Lemma patterns_amount_parsed : Forall amount_parsed CURRENCY_PATTERNS.
Proof. repeat constructor; intros m; eexists; reflexivity. Qed.

Lemma candidate_inv (rule : PatternRule) (m : MatchArray)
    (d : DetectedCurrency) :
  candidate rule m = Some d ->
  code d <> JPY
  /\ le (amount d) zero = false
  /\ amount d = getAmount rule m
  /\ originalText d = matched m
  /\ startIndex d = index m
  /\ endIndex d = index m + length (matched m).
Proof.
  unfold candidate.
  destruct (code_falsy (getCode rule m) || le (getAmount rule m) zero) eqn:H;
    [discriminate|].
  apply orb_false_iff in H as [_ Hle].
  destruct (getCode rule m) as [c|]; [|discriminate].
  destruct (string_eqb c JPY) eqn:Hj; [discriminate|].
  intros H. injection H as <-. simpl. repeat split; auto.
  intros ->. rewrite (proj2 (string_eqb_eq JPY JPY) eq_refl) in Hj.
  discriminate.
Qed.

Lemma Forall_omap_impl {A B} (f : A -> option B) (P : A -> Prop)
    (Q : B -> Prop) (l : list A) :
  Forall P l -> (forall a b, P a -> f a = Some b -> Q b) ->
  Forall Q (omap f l).
Proof.
  intros Hl Hf. induction Hl as [|a l Ha Hl IH]; cbn; [constructor|].
  destruct (f a) as [b|] eqn:Hb; [|exact IH].
  constructor; [eapply Hf; eassumption | exact IH].
Qed.

Lemma ForallOrdPairs_omap {A B} (f : A -> option B) (R : A -> A -> Prop)
    (T : B -> B -> Prop) (l : list A) :
  ForallOrdPairs R l ->
  (forall a a' b b', R a a' -> f a = Some b -> f a' = Some b' -> T b b') ->
  ForallOrdPairs T (omap f l).
Proof.
  intros Hl Hf. induction Hl as [|a l Ha Hl IH]; cbn; [constructor|].
  destruct (f a) as [b|] eqn:Hb; [|exact IH].
  constructor; [|exact IH].
  eapply Forall_omap_impl; [exact Ha|].
  intros a' b' Haa' Hb'. eapply Hf; eassumption.
Qed.

Lemma rule_candidates_well_formed (rule : PatternRule) (text : jsstring) :
  nonempty_pattern rule -> amount_parsed rule ->
  Forall (well_formed text) (rule_candidates rule text).
Proof.
  intros Hne Hamt. unfold rule_candidates.
  destruct (matches_ordered text (S (length text))
              (set_lastIndex (pattern rule) 0)) as [Hall _].
  eapply Forall_omap_impl; [exact Hall|]. simpl.
  intros m d [_ (Hlen & Hend & Htxt)] Hd.
  apply candidate_inv in Hd as (Hjpy & Hle & Ha & Ho & Hs & He).
  unfold nonempty_pattern in Hne.
  unfold well_formed, nonempty_span, text_of_span, amount_in_range.
  rewrite Ho, Hs, He. repeat split; try assumption; try lia.
  - destruct (Hamt m) as [t Ht]. rewrite Ha, Ht in *.
    destruct (parseAmount_range t) as [Hz|[Hpos _]]; [|exact Hpos].
    rewrite Hz in Hle. discriminate.
  - destruct (Hamt m) as [t Ht]. rewrite Ha, Ht in *.
    destruct (parseAmount_range t) as [Hz|[_ Hmax]]; [|exact Hmax].
    rewrite Hz in Hle. discriminate.
Qed.

(** The candidates of one rule come in text order, each after the end of
    the one before. *)
Lemma rule_candidates_ordered (rule : PatternRule) (text : jsstring) :
  ForallOrdPairs (fun c a => endIndex c <= startIndex a)
                 (rule_candidates rule text).
Proof.
  unfold rule_candidates.
  destruct (matches_ordered text (S (length text))
              (set_lastIndex (pattern rule) 0)) as [_ Hord].
  eapply ForallOrdPairs_omap; [exact Hord|].
  intros m m' d d' Hmm Hd Hd'.
  apply candidate_inv in Hd as (_ & _ & _ & _ & _ & He).
  apply candidate_inv in Hd' as (_ & _ & _ & _ & Hs & _).
  unfold match_end in Hmm. lia.
Qed.

Lemma candidates_well_formed (text : jsstring) (rules : list PatternRule) :
  Forall nonempty_pattern rules -> Forall amount_parsed rules ->
  Forall (well_formed text) (flat_map (fun r => rule_candidates r text) rules).
Proof.
  intros Hne. induction Hne as [|r rules Hr Hne IH]; intros Hamt; simpl;
    [constructor|].
  inversion Hamt; subst. apply Forall_app. split; [|auto].
  apply rule_candidates_well_formed; assumption.
Qed.

(** ** [detectCurrencies] in any state of the pattern objects *)

Lemma rule_candidates_state (re : RegExpObject) (i : nat)
    (gc : MatchArray -> option CurrencyCode) (ga : MatchArray -> number)
    (text : jsstring) :
  rule_candidates (mkRule (set_lastIndex re i) gc ga) text
  = rule_candidates (mkRule re gc ga) text.
Proof. reflexivity. Qed.

Lemma set_lastIndexes_candidates (f : nat -> nat) (text : jsstring)
    (rules : list PatternRule) :
  forall i : nat,
    flat_map (fun r => rule_candidates r text) (set_lastIndexes f i rules)
    = flat_map (fun r => rule_candidates r text) rules.
Proof.
  induction rules as [|[re gc ga] rules IH]; intros i; simpl; [reflexivity|].
  rewrite IH. f_equal.
Qed.

Lemma set_lastIndexes_rewound (f : nat -> nat) (rules : list PatternRule) :
  forall i : nat,
    List.map rewound (set_lastIndexes f i rules) = List.map rewound rules.
Proof.
  induction rules as [|[re gc ga] rules IH]; intros i; simpl; [reflexivity|].
  rewrite IH. reflexivity.
Qed.

Lemma set_lastIndexes_nonempty (f : nat -> nat) (rules : list PatternRule) :
  forall i : nat,
    Forall nonempty_pattern rules ->
    Forall nonempty_pattern (set_lastIndexes f i rules).
Proof.
  induction rules as [|[re gc ga] rules IH]; intros i H; simpl; [constructor|].
  inversion H; subst. constructor; [assumption|]. apply IH. assumption.
Qed.

Lemma patterns_rewound : List.map rewound CURRENCY_PATTERNS = CURRENCY_PATTERNS.
Proof. reflexivity. Qed.

Lemma patterns_initial : patterns_in_state (fun _ => 0) = CURRENCY_PATTERNS.
Proof. reflexivity. Qed.

(** The call returns, whatever [lastIndex] the pattern objects were left
    with: it returns the matches [detected text] and leaves every
    [lastIndex] at 0. *)
Lemma detectCurrencies_detected (f : nat -> nat) (text : jsstring) :
  detectCurrencies (patterns_in_state f) text
  = Some (detected text, CURRENCY_PATTERNS).
Proof.
  unfold detectCurrencies, patterns_in_state.
  rewrite scan_all_candidates
    by (apply set_lastIndexes_nonempty, patterns_nonempty).
  rewrite set_lastIndexes_candidates, set_lastIndexes_rewound, patterns_rewound.
  reflexivity.
Qed.

Lemma detectCurrencies_initial (text : jsstring) (out : list DetectedCurrency) :
  detected text = out ->
  detectCurrencies CURRENCY_PATTERNS text = Some (out, CURRENCY_PATTERNS).
Proof. intros <-. exact (detectCurrencies_detected (fun _ => 0) text). Qed.

Lemma detected_well_formed (text : jsstring) :
  Forall (well_formed text) (detected text).
Proof.
  unfold detected. apply sort_by_start_Forall.
  apply fold_accept_Forall; [|constructor].
  apply candidates_well_formed;
    [apply patterns_nonempty | apply patterns_amount_parsed].
Qed.

Lemma detected_disjoint (text : jsstring) :
  ForallOrdPairs span_disjoint (detected text).
Proof.
  unfold detected. apply sort_by_start_disjoint.
  apply fold_accept_ok; [|apply found_ok_empty].
  eapply Forall_impl;
    [apply (candidates_well_formed text CURRENCY_PATTERNS);
     [apply patterns_nonempty | apply patterns_amount_parsed]|].
  intros d Hd. apply Hd.
Qed.

(** ** Candidates with their rule, and which of them are retained *)

Lemma tagged_spans (acc : list (nat * DetectedCurrency)) :
  List.map (fun e => (startIndex (snd e), endIndex (snd e))) acc
  = List.map span (List.map snd acc).
Proof. rewrite List.map_map. reflexivity. Qed.

Lemma candidates_from_snd (text : jsstring) (rules : list PatternRule) :
  forall i : nat,
    List.map snd (candidates_from i rules text)
    = flat_map (fun r => rule_candidates r text) rules.
Proof.
  induction rules as [|r rules IH]; intros i; simpl; [reflexivity|].
  rewrite List.map_app, List.map_map, IH. simpl. rewrite List.map_id.
  reflexivity.
Qed.

Lemma fold_take_results (cs : list (nat * DetectedCurrency)) :
  forall (tacc : list (nat * DetectedCurrency)) (acc : Found),
    results acc = List.map snd tacc ->
    foundRanges acc = List.map span (results acc) ->
    results (fold_left (fun a d => accept d a) (List.map snd cs) acc)
    = List.map snd (fold_left take cs tacc).
Proof.
  induction cs as [|c cs IH]; intros tacc acc Hr Hf; simpl; [exact Hr|].
  assert (Ho : isOverlapping
                 (List.map (fun e => (startIndex (snd e), endIndex (snd e)))
                           tacc)
                 (startIndex (snd c)) (endIndex (snd c))
               = isOverlapping (foundRanges acc)
                   (startIndex (snd c)) (endIndex (snd c)))
    by (rewrite tagged_spans, <- Hr, <- Hf; reflexivity).
  apply IH; unfold accept, take; try rewrite Ho;
    destruct (isOverlapping (foundRanges acc) _ _); simpl; auto.
  - rewrite List.map_app, Hr. reflexivity.
  - rewrite List.map_app, Hf. reflexivity.
Qed.

(** The matches returned are the retained candidates, sorted. *)
Lemma detected_retained (text : jsstring) :
  detected text = sort_by_start (List.map snd (retained text)).
Proof.
  unfold detected, retained, candidates.
  rewrite <- (candidates_from_snd text CURRENCY_PATTERNS 0).
  rewrite (fold_take_results _ [] (mkFound [] [])); reflexivity.
Qed.

Lemma ForallOrdPairs_app {A} (R : A -> A -> Prop) (l1 l2 : list A) :
  ForallOrdPairs R l1 -> ForallOrdPairs R l2 ->
  Forall (fun a => Forall (R a) l2) l1 ->
  ForallOrdPairs R (l1 ++ l2).
Proof.
  intros H1 H2 H12. induction H1 as [|a l1 Ha H1 IH]; simpl; [exact H2|].
  inversion H12 as [|? ? Hal2 H12']; subst. constructor; [|auto].
  apply Forall_app. split; assumption.
Qed.

Lemma ForallOrdPairs_map {A B} (g : A -> B) (R : A -> A -> Prop)
    (T : B -> B -> Prop) (l : list A) :
  ForallOrdPairs R l -> (forall a a', R a a' -> T (g a) (g a')) ->
  ForallOrdPairs T (List.map g l).
Proof.
  intros Hl Hg. induction Hl as [|a l Ha Hl IH]; simpl; constructor; auto.
  apply Forall_map. eapply Forall_impl; [exact Ha|]. auto.
Qed.

(** Candidates are listed by rule, and within a rule by position. *)
Lemma candidates_from_listed (text : jsstring) (rules : list PatternRule) :
  forall i : nat,
    Forall (fun e => i <= fst e) (candidates_from i rules text)
    /\ ForallOrdPairs listed_before (candidates_from i rules text).
Proof.
  induction rules as [|r rules IH]; intros i; simpl;
    [split; constructor|].
  destruct (IH (S i)) as [Hge Hord]. split.
  - apply Forall_app. split.
    + apply Forall_map. apply Forall_forall. intros; simpl; lia.
    + eapply Forall_impl; [exact Hge|]. intros e He. simpl in *. lia.
  - apply ForallOrdPairs_app; [|exact Hord|].
    + eapply ForallOrdPairs_map; [apply rule_candidates_ordered|].
      intros a a' H. right. simpl. auto.
    + apply Forall_map. apply Forall_forall. intros d _. simpl.
      eapply Forall_impl; [exact Hge|]. intros e He. left. simpl in *. lia.
Qed.

Lemma ForallOrdPairs_before {A} (R : A -> A -> Prop) (pre post : list A)
    (x : A) :
  ForallOrdPairs R (pre ++ x :: post) -> Forall (fun y => R y x) pre.
Proof.
  induction pre as [|y pre IH]; simpl; intros H; [constructor|].
  inversion H as [|? ? Hy H']; subst. constructor; [|auto].
  apply Forall_app in Hy as [_ Hy]. inversion Hy; assumption.
Qed.

Lemma ForallOrdPairs_In {A} (R : A -> A -> Prop) (l : list A) (x y : A) :
  ForallOrdPairs R l -> In x l -> In y l -> x <> y -> R x y \/ R y x.
Proof.
  intros Hl. induction Hl as [|a l Ha Hl IH]; simpl; [tauto|].
  rewrite Forall_forall in Ha.
  intros [->|Hx] [->|Hy] Hne; try congruence.
  - left. apply Ha. apply list_elem_of_In. exact Hy.
  - right. apply Ha. apply list_elem_of_In. exact Hx.
  - auto.
Qed.

(** What was taken stays, and only candidates are taken. *)
Lemma fold_take_keeps (cs : list (nat * DetectedCurrency)) :
  forall (acc : list (nat * DetectedCurrency)) (x : nat * DetectedCurrency),
    In x acc -> In x (fold_left take cs acc).
Proof.
  induction cs as [|c cs IH]; intros acc x Hx; simpl; [exact Hx|].
  apply IH. unfold take. destruct (isOverlapping _ _ _); [exact Hx|].
  apply in_or_app. left. exact Hx.
Qed.

Lemma fold_take_from (cs : list (nat * DetectedCurrency)) :
  forall (acc : list (nat * DetectedCurrency)) (x : nat * DetectedCurrency),
    In x (fold_left take cs acc) -> In x acc \/ In x cs.
Proof.
  induction cs as [|c cs IH]; intros acc x Hx; simpl in *; [auto|].
  apply IH in Hx as [Hx|Hx]; [|auto].
  unfold take in Hx. destruct (isOverlapping _ _ _); [auto|].
  apply in_app_or in Hx as [Hx|[<-|[]]]; auto.
Qed.

Lemma take_ok (acc : list (nat * DetectedCurrency))
    (c : nat * DetectedCurrency) :
  nonempty_span (snd c) -> tagged_ok acc -> tagged_ok (take acc c).
Proof.
  intros Hc [Hne Hdis]. unfold take. rewrite tagged_spans.
  destruct (isOverlapping _ _ _) eqn:Ho; [split; assumption|].
  apply isOverlapping_false in Ho;
    [|exact Hc|apply Forall_map; exact Hne].
  rewrite Forall_map in Ho. split.
  - apply Forall_app. split; [exact Hne|]. constructor; [exact Hc|constructor].
  - apply ForallOrdPairs_snoc; [exact Hdis|].
    eapply Forall_impl; [exact Ho|]. unfold span_disjoint. simpl. tauto.
Qed.

Lemma fold_take_ok (cs : list (nat * DetectedCurrency)) :
  forall acc : list (nat * DetectedCurrency),
    Forall (fun e => nonempty_span (snd e)) cs -> tagged_ok acc ->
    tagged_ok (fold_left take cs acc).
Proof.
  induction cs as [|c cs IH]; intros acc Hcs Hacc; simpl; [exact Hacc|].
  inversion Hcs; subst. apply IH; [assumption|]. apply take_ok; assumption.
Qed.

Lemma candidates_nonempty (text : jsstring) :
  Forall (fun e => nonempty_span (snd e)) (candidates text).
Proof.
  rewrite <- Forall_map with (f := snd) (P := nonempty_span).
  unfold candidates. rewrite candidates_from_snd.
  eapply Forall_impl;
    [apply (candidates_well_formed text CURRENCY_PATTERNS);
     [apply patterns_nonempty | apply patterns_amount_parsed]|].
  intros d Hd. apply Hd.
Qed.

Lemma retained_ok (text : jsstring) : tagged_ok (retained text).
Proof.
  apply fold_take_ok; [apply candidates_nonempty|]. split; constructor.
Qed.

(** A candidate that nothing taken before it overlaps is taken. *)
Lemma take_free (acc : list (nat * DetectedCurrency))
    (c : nat * DetectedCurrency) :
  nonempty_span (snd c) ->
  Forall (fun e => nonempty_span (snd e)) acc ->
  Forall (fun e => ~ overlap (snd e) (snd c)) acc ->
  take acc c = acc ++ [c].
Proof.
  intros Hc Hne Hfree. unfold take. rewrite tagged_spans.
  destruct (isOverlapping _ _ _) eqn:Ho; [|reflexivity].
  apply isOverlapping_true in Ho;
    [|exact Hc|apply Forall_map; exact Hne].
  apply Exists_exists in Ho as (d & Hd & Hov).
  apply list_elem_of_In, in_map_iff in Hd as (e & <- & He).
  rewrite Forall_forall in Hfree.
  exfalso. apply (Hfree e); [apply list_elem_of_In; exact He|].
  unfold overlap. tauto.
Qed.

(** ** The claims about [detectCurrencies] *)

(** Scenario 1 of the specification. *)
Example detect_price_with_separators :
  detectCurrencies CURRENCY_PATTERNS (lit "Price: $1,234.50 today")
  = Some ([detected_as "USD" (of_decimal false 123450 (-2)) "$1,234.50" 7 16],
          CURRENCY_PATTERNS).
Proof. apply detectCurrencies_initial. vm_compute. reflexivity. Qed.

(** Scenario 3: one match by the amount-then-code rule, one by the
    code-then-amount rule. *)
Example detect_both_orders :
  detectCurrencies CURRENCY_PATTERNS (lit "100 USD or USD 100")
  = Some ([detected_as "USD" (of_Z 100) "100 USD" 0 7;
           detected_as "USD" (of_Z 100) "USD 100" 11 18],
          CURRENCY_PATTERNS)
  /\ retained (lit "100 USD or USD 100")
     = [(2, detected_as "USD" (of_Z 100) "100 USD" 0 7);
        (3, detected_as "USD" (of_Z 100) "USD 100" 11 18)].
Proof.
  split; [apply detectCurrencies_initial|]; vm_compute; reflexivity.
Qed.

(** Amounts that are not positive or exceed [MAX_AMOUNT] are skipped; 1e9
    itself is kept. *)
Example detect_amount_bounds :
  detectCurrencies CURRENCY_PATTERNS
    (lit "$1000000000 $1000000000.01 $0 $0.00")
  = Some ([detected_as "USD" (of_Z 1000000000) "$1000000000" 0 11],
          CURRENCY_PATTERNS).
Proof. apply detectCurrencies_initial. vm_compute. reflexivity. Qed.

(** C1.  For every text, and whatever state the pattern objects are in,
    [detectCurrencies] returns a list whose spans
    [[startIndex, endIndex)] are pairwise disjoint and which is sorted by
    [startIndex] in ascending order. *)
Theorem detectCurrencies_disjoint_sorted (f : nat -> nat) (text : jsstring) :
  exists out : list DetectedCurrency,
    detectCurrencies (patterns_in_state f) text = Some (out, CURRENCY_PATTERNS)
    /\ ForallOrdPairs span_disjoint out
    /\ StronglySorted start_le out.
Proof.
  exists (detected text). split; [apply detectCurrencies_detected|]. split.
  - apply detected_disjoint.
  - apply sort_by_start_sorted.
Qed.

(** C3.  Every match [detectCurrencies] returns has an amount above 0 and
    at most [MAX_AMOUNT] (1e9), a code other than JPY, and an [endIndex]
    above its [startIndex]. *)
Theorem detectCurrencies_amount_code_span (f : nat -> nat) (text : jsstring) :
  exists out : list DetectedCurrency,
    detectCurrencies (patterns_in_state f) text = Some (out, CURRENCY_PATTERNS)
    /\ Forall (fun d => lt zero (amount d) = true
                        /\ le (amount d) MAX_AMOUNT = true
                        /\ code d <> JPY
                        /\ startIndex d < endIndex d) out.
Proof.
  exists (detected text). split; [apply detectCurrencies_detected|].
  eapply Forall_impl; [apply detected_well_formed|].
  intros d (Hne & _ & Hjpy & Hpos & Hmax). auto.
Qed.

(** C9.  Detection does not depend on the [lastIndex] the module's pattern
    objects carry: from any such state a call returns the same list as
    from the initial one, and a second call on the same text, run in the
    state the first one left, returns that list again. *)
Theorem detectCurrencies_idempotent (f : nat -> nat) (text : jsstring) :
  exists (out : list DetectedCurrency) (st : list PatternRule),
    detectCurrencies (patterns_in_state f) text = Some (out, st)
    /\ detectCurrencies st text = Some (out, st)
    /\ detectCurrencies CURRENCY_PATTERNS text = Some (out, st).
Proof.
  exists (detected text), CURRENCY_PATTERNS.
  split; [apply detectCurrencies_detected|].
  split; exact (detectCurrencies_detected (fun _ => 0) text).
Qed.

(** C10.  For every match returned on a text, [originalText] is the
    substring of the text at [[startIndex, endIndex)], so
    [endIndex - startIndex] is the length of [originalText], and it is
    positive. *)
Theorem detectCurrencies_originalText (f : nat -> nat) (text : jsstring) :
  exists out : list DetectedCurrency,
    detectCurrencies (patterns_in_state f) text = Some (out, CURRENCY_PATTERNS)
    /\ Forall (fun d =>
                 originalText d = substring text (startIndex d) (endIndex d)
                 /\ endIndex d - startIndex d = length (originalText d)
                 /\ 0 < length (originalText d)) out.
Proof.
  exists (detected text). split; [apply detectCurrencies_detected|].
  eapply Forall_impl; [apply detected_well_formed|].
  intros d (_ & Htxt & _). exact Htxt.
Qed.

Lemma insert_by_start_In (x y : DetectedCurrency) (l : list DetectedCurrency) :
  In y (insert_by_start x l) <-> y = x \/ In y l.
Proof.
  induction l as [|z l IH]; simpl; [intuition congruence|].
  destruct (startIndex x <=? startIndex z); simpl; [intuition congruence|].
  rewrite IH. intuition congruence.
Qed.

Lemma sort_by_start_In (y : DetectedCurrency) (l : list DetectedCurrency) :
  In y (sort_by_start l) <-> In y l.
Proof.
  induction l as [|x l IH]; simpl; [tauto|].
  rewrite insert_by_start_In, IH. intuition congruence.
Qed.

(** A candidate is retained when no match retained from a rule listed
    before its own overlaps it, and every candidate of a later rule that
    overlaps it is then dropped. *)
Lemma unblocked_candidate_retained (text : jsstring) (i j : nat)
    (a b : DetectedCurrency) :
  In (i, a) (candidates text) ->
  In (j, b) (candidates text) ->
  i < j ->
  overlap a b ->
  (forall h c, In (h, c) (retained text) -> h < i -> ~ overlap c a) ->
  In (i, a) (retained text) /\ ~ In (j, b) (retained text).
Proof.
  intros Ha Hb Hij Hab Hfree.
  assert (Hin : In (i, a) (retained text)).
  { destruct (in_split _ _ Ha) as (pre & post & Hsplit).
    pose proof (candidates_nonempty text) as Hne.
    destruct (candidates_from_listed text CURRENCY_PATTERNS 0) as [_ Hord].
    fold (candidates text) in Hord.
    unfold retained in *. rewrite Hsplit in *.
    rewrite fold_left_app in *. simpl in *.
    apply Forall_app in Hne as [Hpre Hne]. inversion Hne as [|? ? Hane _]; subst.
    apply ForallOrdPairs_before in Hord.
    set (acc := fold_left take pre []) in *.
    assert (Hacc : forall e, In e acc -> In e pre).
    { intros e He. apply fold_take_from in He as [[]|He]. exact He. }
    assert (Hkept : forall e, In e acc ->
                    In e (fold_left take post (take acc (i, a)))).
    { intros e He. apply fold_take_keeps.
      apply (fold_take_keeps [(i, a)]). exact He. }
    assert (Htake : take acc (i, a) = acc ++ [(i, a)]).
    { apply take_free; [exact Hane| |].
      - apply Forall_forall. intros e He%list_elem_of_In.
        rewrite Forall_forall in Hpre. apply Hpre, list_elem_of_In. auto.
      - apply Forall_forall. intros [h c] He%list_elem_of_In. simpl.
        rewrite Forall_forall in Hord.
        destruct (Hord (h, c)) as [Hlt|[Heq Hend]];
          [apply list_elem_of_In; auto| |].
        + simpl in Hlt. apply (Hfree h c); [|exact Hlt]. auto.
        + simpl in Hend. unfold overlap. lia. }
    rewrite Htake. apply fold_take_keeps.
    apply in_or_app. right. left. reflexivity. }
  split; [exact Hin|]. intros Hjb.
  destruct (retained_ok text) as [_ Hdis].
  destruct (ForallOrdPairs_In _ _ _ _ Hdis Hin Hjb) as [H|H].
  - intros E. injection E as E _. lia.
  - unfold span_disjoint, overlap in *. simpl in *. lia.
  - unfold span_disjoint, overlap in *. simpl in *. lia.
Qed.

(** C2, as amended.  On ["US$100 and HK$100"] the two matches are USD then
    HKD, both candidates of the national-dollar rule (rule 0), the bare
    [$] candidates being dropped.  In general, when candidates of two
    rules overlap and no match retained from a rule listed before the
    earlier rule overlaps the earlier rule's candidate, that candidate is
    retained and returned and the later rule's candidate is dropped,
    whatever the lengths of the spans. *)
Theorem earlier_rule_wins_unless_blocked :
  (detectCurrencies CURRENCY_PATTERNS (lit "US$100 and HK$100")
   = Some ([detected_as "USD" (of_Z 100) "US$100" 0 6;
            detected_as "HKD" (of_Z 100) "HK$100" 11 17],
           CURRENCY_PATTERNS)
   /\ retained (lit "US$100 and HK$100")
      = [(0, detected_as "USD" (of_Z 100) "US$100" 0 6);
         (0, detected_as "HKD" (of_Z 100) "HK$100" 11 17)])
  /\ forall (text : jsstring) (i j : nat) (a b : DetectedCurrency),
       In (i, a) (candidates text) ->
       In (j, b) (candidates text) ->
       i < j ->
       overlap a b ->
       (forall h c, In (h, c) (retained text) -> h < i -> ~ overlap c a) ->
       In (i, a) (retained text)
       /\ ~ In (j, b) (retained text)
       /\ exists out : list DetectedCurrency,
            detectCurrencies CURRENCY_PATTERNS text
            = Some (out, CURRENCY_PATTERNS)
            /\ In a out.
Proof.
  split; [split; [apply detectCurrencies_initial|]; vm_compute; reflexivity|].
  intros text i j a b Ha Hb Hij Hab Hfree.
  destruct (unblocked_candidate_retained text i j a b) as [Hin Hout]; auto.
  repeat split; auto.
  exists (detected text).
  split; [exact (detectCurrencies_detected (fun _ => 0) text)|].
  rewrite detected_retained. apply sort_by_start_In.
  apply in_map_iff. exists (i, a). auto.
Qed.

(** The amended C2 at ["US$100"]: the candidate [US$100] of the
    national-dollar rule against the candidate [$100] of the symbol rule. *)
Lemma earlier_rule_wins_unless_blocked_witness :
  In (0, detected_as "USD" (of_Z 100) "US$100" 0 6)
     (retained (lit "US$100"))
  /\ ~ In (1, detected_as "USD" (of_Z 100) "$100" 2 6)
          (retained (lit "US$100"))
  /\ exists out : list DetectedCurrency,
       detectCurrencies CURRENCY_PATTERNS (lit "US$100")
       = Some (out, CURRENCY_PATTERNS)
       /\ In (detected_as "USD" (of_Z 100) "US$100" 0 6) out.
Proof.
  apply (proj2 earlier_rule_wins_unless_blocked (lit "US$100") 0 1).
  - vm_compute. left. reflexivity.
  - vm_compute. right. left. reflexivity.
  - lia.
  - unfold overlap. simpl. lia.
  - intros h c _ Hh. lia.
Defined.

(** C2 as stated fails: on ["$100 USD 200"] the candidate ["100 USD"] of
    the amount-then-code rule (rule 2) and the candidate ["USD 200"] of the
    code-then-amount rule (rule 3) overlap, and it is the later rule's
    candidate that is retained: ["100 USD"] was dropped for overlapping
    ["$100"]. *)
Lemma later_rule_retained :
  In (2, detected_as "USD" (of_Z 100) "100 USD" 1 8)
     (candidates (lit "$100 USD 200"))
  /\ In (3, detected_as "USD" (of_Z 200) "USD 200" 5 12)
        (candidates (lit "$100 USD 200"))
  /\ overlap (detected_as "USD" (of_Z 100) "100 USD" 1 8)
             (detected_as "USD" (of_Z 200) "USD 200" 5 12)
  /\ ~ In (2, detected_as "USD" (of_Z 100) "100 USD" 1 8)
          (retained (lit "$100 USD 200"))
  /\ In (3, detected_as "USD" (of_Z 200) "USD 200" 5 12)
        (retained (lit "$100 USD 200"))
  /\ detectCurrencies CURRENCY_PATTERNS (lit "$100 USD 200")
     = Some ([detected_as "USD" (of_Z 100) "$100" 0 4;
              detected_as "USD" (of_Z 200) "USD 200" 5 12],
             CURRENCY_PATTERNS).
Proof.
  split; [vm_compute; right; left; reflexivity|].
  split; [vm_compute; right; right; left; reflexivity|].
  split; [unfold overlap; simpl; lia|].
  split; [vm_compute; intros [H|[H|[]]]; discriminate H|].
  split; [vm_compute; right; left; reflexivity|].
  apply detectCurrencies_initial. vm_compute. reflexivity.
Qed.

(** ** The element fallback *)

Lemma gt_smaller_bound (h : number) (m1 m2 : positive) (e1 e2 : Z) :
  (e1 < e2)%Z ->
  gt h (S754_finite false m1 e1) = false ->
  gt h (S754_finite false m2 e2) = false.
Proof.
  unfold gt, SFltb. intros He.
  destruct h as [s|[|]| |[|] m e]; simpl; try discriminate; try reflexivity.
  destruct (Z.compare_spec e1 e) as [->| |]; destruct (Z.compare_spec e2 e);
    intros Hbound; try discriminate Hbound; try reflexivity; lia.
Qed.

(** Past its guards, the function is the first match of the element's
    text. *)
Lemma detectFromTargetElement_passed (patterns : list PatternRule)
    (el : Element) (x y : number) :
  let tag := toLowerCase (tagName el) in
  let custom := isCustomElement tag in
  let rect := getBoundingClientRect el in
  existsb (string_eqb tag) excluded_tags = false ->
  (length (element_text el) <? 1)
  || (maxLength custom <? length (element_text el)) = false ->
  gt (width rect) (maxWidth custom) || gt (height rect) maxHeight = false ->
  isInBounds rect x y = true ->
  detectFromTargetElement patterns el x y
  = match detectCurrencies patterns (element_text el) with
    | None => None
    | Some (currencies, patterns') =>
        Some (match currencies with d :: _ => Some d | [] => None end,
              patterns')
    end.
Proof.
  intros tag custom rect H1 H2 H3 H4. unfold detectFromTargetElement.
  fold tag. rewrite H1. fold custom. rewrite H2. fold rect. rewrite H3, H4.
  reflexivity.
Qed.

(** C8.  [detectFromTargetElement] returns a match only when the text of
    the element has at least one and at most 50 characters (100 for a
    custom element), the point lies in the bounding box widened by 5 on
    each side, and the box is no wider than 150 (200 for a custom element)
    and no higher than 60; for a custom element this is within the 200 by
    100 the claim states.  The match is the first one of the text. *)
Theorem detectFromTargetElement_only_when (patterns patterns' : list PatternRule)
    (el : Element) (x y : number) (d : DetectedCurrency) :
  detectFromTargetElement patterns el x y = Some (Some d, patterns') ->
  let custom := isCustomElement (toLowerCase (tagName el)) in
  let rect := getBoundingClientRect el in
  (1 <= length (element_text el)
   /\ length (element_text el) <= (if custom then 100 else 50))
  /\ (ge x (sub (left rect) (of_Z 5)) = true
      /\ le x (add (right rect) (of_Z 5)) = true
      /\ ge y (sub (top rect) (of_Z 5)) = true
      /\ le y (add (bottom rect) (of_Z 5)) = true)
  /\ (gt (width rect) (if custom then of_Z 200 else of_Z 150) = false
      /\ gt (height rect) (if custom then of_Z 100 else of_Z 60) = false
      /\ gt (height rect) (of_Z 60) = false)
  /\ exists rest : list DetectedCurrency,
       detectCurrencies patterns (element_text el)
       = Some (d :: rest, patterns').
Proof.
  intros H custom rect. unfold detectFromTargetElement in H.
  fold custom rect in H.
  destruct (existsb _ excluded_tags); [discriminate|].
  destruct ((length (element_text el) <? 1)
            || (maxLength custom <? length (element_text el))) eqn:Hlen;
    [discriminate|].
  destruct (gt (width rect) (maxWidth custom) || gt (height rect) maxHeight)
    eqn:Hsize; [discriminate|].
  destruct (isInBounds rect x y) eqn:Hin; [|discriminate]. simpl in H.
  apply orb_false_iff in Hlen as [Hlo Hhi].
  apply Nat.ltb_ge in Hlo, Hhi.
  apply orb_false_iff in Hsize as [Hw Hh].
  unfold isInBounds in Hin.
  apply andb_true_iff in Hin as [Hin Hb]. apply andb_true_iff in Hin as [Hin Ht].
  apply andb_true_iff in Hin as [Hl Hr].
  split; [split; [exact Hlo | exact Hhi]|].
  split; [auto|].
  split.
  - split; [exact Hw|]. split; [|exact Hh].
    destruct custom; [|exact Hh].
    revert Hh.
    change (gt (height rect) (S754_finite false 8444249301319680 (-47)) = false
            -> gt (height rect) (S754_finite false 7036874417766400 (-46))
               = false).
    apply gt_smaller_bound. lia.
  - destruct (detectCurrencies patterns (element_text el))
      as [[[|d' rest] st]|]; try discriminate.
    injection H as -> ->. exists rest. reflexivity.
Qed.

(** C8 on a [<span>$100</span>] of 40 by 20 with the pointer at (10, 10). *)
Lemma detectFromTargetElement_only_when_witness :
  detectFromTargetElement CURRENCY_PATTERNS price_span (of_Z 10) (of_Z 10)
  = Some (Some (detected_as "USD" (of_Z 100) "$100" 0 4), CURRENCY_PATTERNS)
  /\ (1 <= length (element_text price_span)
      /\ length (element_text price_span) <= 50)
  /\ gt (width (getBoundingClientRect price_span)) (of_Z 150) = false
  /\ gt (height (getBoundingClientRect price_span)) (of_Z 60) = false.
Proof.
  assert (H : detectFromTargetElement CURRENCY_PATTERNS price_span
                (of_Z 10) (of_Z 10)
              = Some (Some (detected_as "USD" (of_Z 100) "$100" 0 4),
                      CURRENCY_PATTERNS)).
  { rewrite detectFromTargetElement_passed by (vm_compute; reflexivity).
    rewrite (detectCurrencies_initial _
               [detected_as "USD" (of_Z 100) "$100" 0 4])
      by (vm_compute; reflexivity).
    reflexivity. }
  split; [exact H|].
  destruct (detectFromTargetElement_only_when _ _ _ _ _ _ H)
    as (Hlen & _ & (Hw & _ & Hh) & _).
  split; [exact Hlen|]. split; [exact Hw | exact Hh].
Defined.

(** ** The rate cache, case by case *)

Ltac unfold_worker :=
  unfold getExchangeRates, from_memory, from_storage, from_remote,
    bind, try_catch, ret, throw, log, date_now, read_memoryCache,
    write_memoryCache, storage_get, storage_set, fetch_latest in *.

Lemma getExchangeRates_memory_hit (env : Env) (w : World) (c : CachedRates) :
  memoryCache w = Some c ->
  (now env (ticks w) - fetchedAt c <? CACHE_DURATION)%Z = true ->
  getExchangeRates env w
  = (Ok c, mkWorld (Some c) (storage w) (S (ticks w)) (reads w) (writes w)
                   (fetches w) (console w ++ [LogMemoryHit])).
Proof.
  intros Hm Hfresh. destruct w as [mc st tk rd wr ft cs]. simpl in *. subst mc.
  unfold_worker. simpl. rewrite Hfresh. reflexivity.
Qed.

Lemma getExchangeRates_storage_hit (env : Env) (w : World) (c : CachedRates) :
  memory_fresh env w = false ->
  storage_get_fails env (reads w) = false ->
  storage w = Some c ->
  (now env (ticks_after_memory w) - fetchedAt c <? CACHE_DURATION)%Z = true ->
  getExchangeRates env w
  = (Ok c, mkWorld (Some c) (Some c) (S (ticks_after_memory w)) (S (reads w))
                   (writes w) (fetches w) (console w ++ [LogStorageHit])).
Proof.
  intros Hm Hget Hs Hfresh. destruct w as [mc st tk rd wr ft cs].
  unfold memory_fresh, ticks_after_memory in *. simpl in *. subst st.
  unfold_worker. simpl.
  destruct mc as [c0|]; simpl; [rewrite Hm|]; simpl; rewrite Hget; simpl;
    rewrite Hfresh; reflexivity.
Qed.

Lemma getExchangeRates_miss (env : Env) (w : World) :
  memory_fresh env w = false ->
  storage_fresh env w = false ->
  getExchangeRates env w = from_remote env (after_miss env w).
Proof.
  intros Hm Hs. destruct w as [mc st tk rd wr ft cs].
  unfold memory_fresh, storage_fresh, after_miss, ticks_after_storage,
    ticks_after_memory in *. simpl in *.
  unfold getExchangeRates, from_memory, from_storage, bind, try_catch, ret,
    log, date_now, read_memoryCache, write_memoryCache, storage_get.
  simpl.
  destruct mc as [c0|]; simpl; [rewrite Hm|]; simpl;
    destruct (storage_get_fails env rd); simpl in *; try reflexivity;
    destruct st as [c1|]; simpl in *; try rewrite Hs;
    rewrite ?app_nil_r; reflexivity.
Qed.

Lemma from_remote_body (env : Env) (w : World) (data : ExchangeRateResponse) :
  remote env (fetches w) = Body data ->
  from_remote env w
  = (Ok (fresh_table data (now env (ticks w))),
     mkWorld (Some (fresh_table data (now env (ticks w))))
             (if storage_set_fails env (writes w) then storage w
              else Some (fresh_table data (now env (ticks w))))
             (S (ticks w)) (reads w) (S (writes w)) (S (fetches w))
             (console w ++ [LogFetching]
              ++ [if storage_set_fails env (writes w) then WarnSaveError
                  else LogSaved])).
Proof.
  intros Hr. destruct w as [mc st tk rd wr ft cs]. simpl in *.
  unfold_worker. simpl. rewrite Hr. simpl.
  destruct (storage_set_fails env wr); simpl; rewrite <- app_assoc; reflexivity.
Qed.

Lemma from_remote_failed (env : Env) (w : World) :
  (forall data, remote env (fetches w) <> Body data) ->
  from_remote env w
  = (Throw (fetch_error (remote env (fetches w))),
     mkWorld (memoryCache w) (storage w) (ticks w) (reads w) (writes w)
             (S (fetches w)) (console w ++ [LogFetching])).
Proof.
  intros Hr. destruct w as [mc st tk rd wr ft cs]. simpl in *.
  unfold_worker. simpl.
  destruct (remote env ft) as [| | |data]; simpl; try reflexivity.
  exfalso. apply (Hr data). reflexivity.
Qed.

(** ** The inverted rates *)

Lemma object_set_ne (o : gmap (list N) number) (k c : list N) (v : number) :
  k <> c -> object_set o k v !! c = o !! c.
Proof.
  intros Hne. unfold object_set.
  repeat case_match; try reflexivity; apply lookup_insert_ne; exact Hne.
Qed.

Lemma object_set_eq (o : gmap (list N) number) (k : list N) (v : number) :
  k <> proto_key -> object_set o k v !! k = Some v.
Proof.
  intros Hne. unfold object_set.
  destruct (string_eqb k proto_key) eqn:Hk.
  - apply string_eqb_eq in Hk. contradiction.
  - case_match; apply lookup_insert_eq.
Qed.

(** An assignment to [__proto__] leaves an object without such an own
    property as it is. *)
Lemma object_set_proto (o : gmap (list N) number) (v : number) :
  o !! proto_key = None -> object_set o proto_key v = o.
Proof. intros Ho. unfold object_set. rewrite Ho. reflexivity. Qed.

Lemma object_set_keeps_proto (o : gmap (list N) number) (k : list N)
    (v : number) :
  o !! proto_key = None -> object_set o k v !! proto_key = None.
Proof.
  intros Ho. destruct (decide (k = proto_key)) as [->|Hne].
  - rewrite object_set_proto by exact Ho. exact Ho.
  - rewrite object_set_ne by exact Hne. exact Ho.
Qed.

Lemma fold_invert_other (l : list (list N * number)) (c : list N) :
  forall m : gmap (list N) number,
    c ∉ l.*1 ->
    fold_left (fun (acc : gmap (list N) number) (e : list N * number) =>
                 object_set acc (fst e) (div one (snd e))) l m !! c
    = m !! c.
Proof.
  induction l as [|[k v] l IH]; intros m Hc; simpl; [reflexivity|].
  rewrite fmap_cons in Hc. apply not_elem_of_cons in Hc as [Hk Hl].
  rewrite IH by exact Hl. simpl in Hk. apply object_set_ne. congruence.
Qed.

Lemma fold_invert_in (l : list (list N * number)) (c : list N) (x : number) :
  forall m : gmap (list N) number,
    NoDup (l.*1) -> (c, x) ∈ l -> c <> proto_key ->
    fold_left (fun (acc : gmap (list N) number) (e : list N * number) =>
                 object_set acc (fst e) (div one (snd e))) l m !! c
    = Some (div one x).
Proof.
  induction l as [|[k v] l IH]; intros m Hnd Hin Hne; simpl.
  - inversion Hin.
  - rewrite fmap_cons in Hnd. apply NoDup_cons in Hnd as [Hk Hnd].
    apply elem_of_cons in Hin as [Heq|Hin].
    + injection Heq as -> ->. rewrite fold_invert_other by exact Hk.
      apply object_set_eq. exact Hne.
    + apply IH; assumption.
Qed.

Lemma fold_invert_proto (l : list (list N * number)) :
  forall m : gmap (list N) number,
    m !! proto_key = None ->
    fold_left (fun (acc : gmap (list N) number) (e : list N * number) =>
                 object_set acc (fst e) (div one (snd e))) l m !! proto_key
    = None.
Proof.
  induction l as [|[k v] l IH]; intros m Hm; simpl; [exact Hm|].
  apply IH, object_set_keeps_proto, Hm.
Qed.

Lemma JPY_not_proto : JPY <> proto_key.
Proof. discriminate. Qed.

(** Every code of the remote answer other than JPY and [__proto__] is
    mapped to the reciprocal of its factor; JPY is mapped to 1; there is
    no entry for [__proto__]. *)
Lemma invert_rates_lookup (remote_rates : gmap (list N) number)
    (c : list N) (x : number) :
  remote_rates !! c = Some x -> c <> JPY -> c <> proto_key ->
  invert_rates remote_rates !! c = Some (div one x).
Proof.
  intros Hc Hne Hproto. unfold invert_rates.
  rewrite object_set_ne by congruence.
  apply fold_invert_in.
  - apply NoDup_fst_map_to_list.
  - apply elem_of_map_to_list. exact Hc.
  - exact Hproto.
Qed.

Lemma invert_rates_JPY (remote_rates : gmap (list N) number) :
  invert_rates remote_rates !! JPY = Some one.
Proof. unfold invert_rates. apply object_set_eq, JPY_not_proto. Qed.

Lemma invert_rates_absent (remote_rates : gmap (list N) number) (c : list N) :
  remote_rates !! c = None -> c <> JPY ->
  invert_rates remote_rates !! c = None.
Proof.
  intros Hc Hne. unfold invert_rates.
  rewrite object_set_ne by congruence.
  rewrite fold_invert_other; [apply lookup_empty|].
  intros Hin. apply list_elem_of_fmap in Hin as ([k v] & -> & Hin).
  apply elem_of_map_to_list in Hin. simpl in Hc. congruence.
Qed.

Lemma invert_rates_proto (remote_rates : gmap (list N) number) :
  invert_rates remote_rates !! proto_key = None.
Proof.
  unfold invert_rates.
  rewrite object_set_ne by exact JPY_not_proto.
  apply fold_invert_proto, lookup_empty.
Qed.

Lemma mul_NaN (a : number) : mul a NaN = NaN.
Proof. destruct a; reflexivity. Qed.

Lemma object_get_own (o : gmap (list N) number) (k : jsstring) (n : number) :
  o !! k = Some n -> object_get o k = Num n.
Proof. intros H. unfold object_get. rewrite H. reflexivity. Qed.

Lemma object_get_inherited (o : gmap (list N) number) (k : jsstring) :
  o !! k = None ->
  object_get o k = if is_prototype_member k then Inherited k else Undefined.
Proof. intros H. unfold object_get. rewrite H. reflexivity. Qed.

(** ** The claims about the service worker *)

Lemma storage_fresh_inv (env : Env) (w : World) :
  storage_fresh env w = true ->
  exists c : CachedRates,
    storage_get_fails env (reads w) = false
    /\ storage w = Some c
    /\ (now env (ticks_after_memory w) - fetchedAt c <? CACHE_DURATION)%Z
       = true.
Proof.
  unfold storage_fresh. intros H. apply andb_true_iff in H as [Hget H].
  apply negb_true_iff in Hget. destruct (storage w) as [c|]; [|discriminate].
  exists c. auto.
Qed.

Lemma memory_fresh_inv (env : Env) (w : World) :
  memory_fresh env w = true ->
  exists c : CachedRates,
    memoryCache w = Some c
    /\ (now env (ticks w) - fetchedAt c <? CACHE_DURATION)%Z = true.
Proof.
  unfold memory_fresh. destruct (memoryCache w) as [c|]; [|discriminate].
  intros H. exists c. auto.
Qed.

Lemma remote_body_or_not (o : FetchOutcome) :
  (exists data, o = Body data) \/ (forall data, o <> Body data).
Proof. destruct o; eauto; right; discriminate. Qed.

(** One call issues at most one fetch. *)
Lemma getExchangeRates_fetches (env : Env) (w : World) :
  fetches w <= fetches (snd (getExchangeRates env w)) <= S (fetches w).
Proof.
  destruct (memory_fresh env w) eqn:Hm.
  - apply memory_fresh_inv in Hm as (c & Hc & Hf).
    rewrite (getExchangeRates_memory_hit env w c) by assumption. simpl. lia.
  - destruct (storage_fresh env w) eqn:Hs.
    + apply storage_fresh_inv in Hs as (c & Hg & Hc & Hf).
      rewrite (getExchangeRates_storage_hit env w c) by assumption.
      simpl. lia.
    + rewrite getExchangeRates_miss by assumption.
      destruct (remote_body_or_not (remote env (fetches (after_miss env w))))
        as [[data Hr]|Hr].
      * rewrite (from_remote_body _ _ data) by exact Hr. simpl. lia.
      * rewrite from_remote_failed by exact Hr. simpl. lia.
Qed.

(** A table that is returned is in the in-process slot afterwards, and it
    was either cached already or stamped during this call. *)
Lemma getExchangeRates_ok (env : Env) (w w1 : World) (t : CachedRates) :
  getExchangeRates env w = (Ok t, w1) ->
  memoryCache w1 = Some t
  /\ (fetches w1 = fetches w
      \/ (fetches w1 = S (fetches w)
          /\ exists k, ticks w <= k /\ fetchedAt t = now env k
                       /\ ticks w1 = S k)).
Proof.
  destruct (memory_fresh env w) eqn:Hm.
  - apply memory_fresh_inv in Hm as (c & Hc & Hf).
    rewrite (getExchangeRates_memory_hit env w c) by assumption.
    intros H. injection H as <- <-. simpl. auto.
  - destruct (storage_fresh env w) eqn:Hs.
    + apply storage_fresh_inv in Hs as (c & Hg & Hc & Hf).
      rewrite (getExchangeRates_storage_hit env w c) by assumption.
      intros H. injection H as <- <-. simpl. auto.
    + rewrite getExchangeRates_miss by assumption.
      destruct (remote_body_or_not (remote env (fetches (after_miss env w))))
        as [[data Hr]|Hr].
      * rewrite (from_remote_body _ _ data) by exact Hr.
        intros H. injection H as <- <-. simpl. split; [reflexivity|].
        right. split; [reflexivity|].
        exists (ticks_after_storage env w). repeat split.
        unfold ticks_after_storage, ticks_after_memory.
        destruct (storage_get_fails env (reads w)), (storage w),
          (memoryCache w); lia.
      * rewrite from_remote_failed by exact Hr. discriminate.
Qed.

(** C4, as amended.  When [getExchangeRates] yields a table,
    [convertToYen] fails with the unsupported-currency error exactly when
    what the table gives for the code is falsy: the table has no entry
    for the code and the code is not the name of a member of
    [Object.prototype], or the entry is 0 or NaN.  For a truthy entry it
    returns the product of the amount and the rate, the rate and the date
    of the table, with no rounding step of its own.  For a code without an
    entry that names a member of [Object.prototype] it returns that member
    as the rate and NaN as the amount in yen.  When [getExchangeRates]
    fails, that failure is passed on. *)
Theorem convertToYen_unsupported_iff (env : Env) (w : World) (amount : number)
    (code : CurrencyCode) :
  match getExchangeRates env w with
  | (Ok t, w') =>
      (fst (convertToYen amount code env w) = Throw (UnsupportedCurrency code)
       <-> ((rates t !! code = None /\ is_prototype_member code = false)
            \/ exists r, rates t !! code = Some r /\ truthy r = false))
      /\ (forall r, rates t !! code = Some r -> truthy r = true ->
          convertToYen amount code env w
          = (Ok (mkConversion (mul amount r) (Num r) (date t)), w'))
      /\ (rates t !! code = None -> is_prototype_member code = true ->
          convertToYen amount code env w
          = (Ok (mkConversion NaN (Inherited code) (date t)), w'))
  | (Throw e, w') => convertToYen amount code env w = (Throw e, w')
  end.
Proof.
  unfold convertToYen, bind.
  destruct (getExchangeRates env w) as [[t|e] w']; [|reflexivity].
  unfold ret, throw. cbv zeta.
  destruct (rates t !! code) as [r|] eqn:Hr.
  - rewrite (object_get_own _ _ _ Hr). simpl.
    destruct (truthy r) eqn:Ht; simpl; (split; [split|split]).
    + discriminate.
    + intros [[H _]|(r' & H & Hf)]; [discriminate|]. congruence.
    + intros r' [= <-] _. reflexivity.
    + discriminate.
    + intros _. right. exists r. auto.
    + reflexivity.
    + intros r' [= <-] Ht'. congruence.
    + discriminate.
  - rewrite (object_get_inherited _ _ Hr).
    destruct (is_prototype_member code) eqn:Hp; simpl; (split; [split|split]).
    + discriminate.
    + intros [[_ H]|(r' & H & _)]; discriminate.
    + discriminate.
    + intros _ _. rewrite mul_NaN. reflexivity.
    + intros _. left. auto.
    + reflexivity.
    + discriminate.
    + discriminate.
Qed.

(** C4 on scenario 4: 10 USD at 150 yen are 1500 yen, a code without an
    entry is unsupported, and [toString] is not. *)
Lemma convertToYen_unsupported_iff_witness :
  convertToYen (of_Z 10) USD (steady_env 0 false false NetworkFailure)
    (mkWorld (Some table_2024) None 0 0 0 0 [])
  = (Ok (mkConversion (of_Z 1500) (Num (of_Z 150)) (lit "2024-01-01")),
     mkWorld (Some table_2024) None 1 0 0 0 [LogMemoryHit])
  /\ fst (convertToYen (of_Z 10) (lit "XXX")
            (steady_env 0 false false NetworkFailure)
            (mkWorld (Some table_2024) None 0 0 0 0 []))
     = Throw (UnsupportedCurrency (lit "XXX"))
  /\ convertToYen (of_Z 10) (lit "toString")
       (steady_env 0 false false NetworkFailure)
       (mkWorld (Some table_2024) None 0 0 0 0 [])
     = (Ok (mkConversion NaN (Inherited (lit "toString")) (lit "2024-01-01")),
        mkWorld (Some table_2024) None 1 0 0 0 [LogMemoryHit]).
Proof.
  pose proof (convertToYen_unsupported_iff
                (steady_env 0 false false NetworkFailure)
                (mkWorld (Some table_2024) None 0 0 0 0 []) (of_Z 10) USD)
    as Husd.
  pose proof (convertToYen_unsupported_iff
                (steady_env 0 false false NetworkFailure)
                (mkWorld (Some table_2024) None 0 0 0 0 []) (of_Z 10)
                (lit "XXX")) as Hxxx.
  pose proof (convertToYen_unsupported_iff
                (steady_env 0 false false NetworkFailure)
                (mkWorld (Some table_2024) None 0 0 0 0 []) (of_Z 10)
                (lit "toString")) as Hts.
  rewrite (getExchangeRates_memory_hit _ _ table_2024) in Husd, Hxxx, Hts
    by reflexivity.
  split; [|split].
  - apply (proj1 (proj2 Husd) (of_Z 150)); vm_compute; reflexivity.
  - apply (proj1 Hxxx). left. split; vm_compute; reflexivity.
  - apply (proj2 (proj2 Hts)); vm_compute; reflexivity.
Defined.

(** C4 as stated fails, in both directions.  The remote answer
    [{"USD": 1e999}] is read as the factor infinity, the table gets the
    entry [USD: 0], and the conversion of a USD amount is refused as
    unsupported although the table has an entry for USD.  And the table
    [{USD: 150, JPY: 1}] has no entry for [toString], yet the conversion
    of that code is not refused: it returns NaN yen. *)
Lemma refusal_is_not_absence :
  (fst (getExchangeRates
          (steady_env 0 false false (Body (usd_answer (S754_infinity false))))
          empty_world)
   = Ok (fresh_table (usd_answer (S754_infinity false)) 0)
   /\ rates (fresh_table (usd_answer (S754_infinity false)) 0) !! USD
      = Some zero
   /\ fst (convertToYen (of_Z 10) USD
             (steady_env 0 false false
                (Body (usd_answer (S754_infinity false))))
             empty_world)
      = Throw (UnsupportedCurrency USD))
  /\ (fst (getExchangeRates (steady_env 0 false false NetworkFailure)
             (mkWorld (Some table_2024) None 0 0 0 0 []))
      = Ok table_2024
      /\ rates table_2024 !! lit "toString" = None
      /\ fst (convertToYen (of_Z 10) (lit "toString")
                (steady_env 0 false false NetworkFailure)
                (mkWorld (Some table_2024) None 0 0 0 0 []))
         = Ok (mkConversion NaN (Inherited (lit "toString"))
                            (lit "2024-01-01"))).
Proof.
  split.
  - assert (Hrun : getExchangeRates
                     (steady_env 0 false false
                        (Body (usd_answer (S754_infinity false))))
                     empty_world
                   = from_remote
                       (steady_env 0 false false
                          (Body (usd_answer (S754_infinity false))))
                       (after_miss
                          (steady_env 0 false false
                             (Body (usd_answer (S754_infinity false))))
                          empty_world))
      by (apply getExchangeRates_miss; reflexivity).
    rewrite (from_remote_body _ _ (usd_answer (S754_infinity false))) in Hrun
      by reflexivity.
    assert (Hrate : rates (fresh_table (usd_answer (S754_infinity false)) 0)
                      !! USD = Some zero).
    { simpl. rewrite (invert_rates_lookup _ USD (S754_infinity false)).
      - reflexivity.
      - apply lookup_insert_eq.
      - discriminate.
      - discriminate. }
    split; [rewrite Hrun; reflexivity|]. split; [exact Hrate|].
    unfold convertToYen, bind. rewrite Hrun. vm_compute. reflexivity.
  - assert (Hrun : getExchangeRates (steady_env 0 false false NetworkFailure)
                     (mkWorld (Some table_2024) None 0 0 0 0 [])
                   = (Ok table_2024,
                      mkWorld (Some table_2024) None 1 0 0 0 [LogMemoryHit]))
      by (apply getExchangeRates_memory_hit; reflexivity).
    split; [rewrite Hrun; reflexivity|].
    split; [vm_compute; reflexivity|].
    unfold convertToYen, bind. rewrite Hrun. vm_compute. reflexivity.
Qed.

(** C5, as amended.  When neither tier holds a fresh table and the remote
    fetch succeeds, the call returns a table that maps every code of the
    answer other than JPY and [__proto__] to the reciprocal of its factor
    and JPY to 1, and has no entry for [__proto__] even when the answer
    has that key (reading it gives the prototype object); the table
    carries the date of the answer and the clock reading taken after the
    answer arrived; it is in the in-process slot afterwards, and in the
    persisted store when the write succeeded (the store is left as it was
    when the write failed).  Exactly one fetch was issued. *)
Theorem getExchangeRates_fetched_table (env : Env) (w : World)
    (data : ExchangeRateResponse) :
  memory_fresh env w = false ->
  storage_fresh env w = false ->
  remote env (fetches w) = Body data ->
  exists t : CachedRates,
    fst (getExchangeRates env w) = Ok t
    /\ (forall c x, resp_rates data !! c = Some x ->
        c <> JPY -> c <> proto_key ->
        rates t !! c = Some (div one x))
    /\ rates t !! JPY = Some one
    /\ (rates t !! proto_key = None
        /\ object_get (rates t) proto_key = Inherited proto_key)
    /\ date t = resp_date data
    /\ fetchedAt t = now env (ticks_after_storage env w)
    /\ memoryCache (snd (getExchangeRates env w)) = Some t
    /\ (storage_set_fails env (writes w) = false ->
        storage (snd (getExchangeRates env w)) = Some t)
    /\ (storage_set_fails env (writes w) = true ->
        storage (snd (getExchangeRates env w)) = storage w)
    /\ fetches (snd (getExchangeRates env w)) = S (fetches w).
Proof.
  intros Hm Hs Hr.
  exists (fresh_table data (now env (ticks_after_storage env w))).
  rewrite getExchangeRates_miss by assumption.
  rewrite (from_remote_body _ _ data) by exact Hr.
  split; [reflexivity|]. split.
  { intros c x Hc Hne Hproto. apply invert_rates_lookup; assumption. }
  split; [apply invert_rates_JPY|]. split.
  { pose proof (invert_rates_proto (resp_rates data)) as Hp.
    split; [exact Hp|].
    apply (object_get_inherited _ proto_key) in Hp. exact Hp. }
  simpl. repeat split.
  - intros ->. reflexivity.
  - intros ->. reflexivity.
Qed.

(** C5 on a freshly started worker whose remote source answers
    [{"USD": 1/150}] at time 0. *)
Lemma getExchangeRates_fetched_table_witness :
  exists t : CachedRates,
    fst (getExchangeRates scenario_env empty_world) = Ok t
    /\ rates t !! USD = Some (div one (div one (of_Z 150)))
    /\ rates t !! JPY = Some one
    /\ fetchedAt t = 0%Z
    /\ memoryCache (snd (getExchangeRates scenario_env empty_world)) = Some t
    /\ storage (snd (getExchangeRates scenario_env empty_world)) = Some t.
Proof.
  destruct (getExchangeRates_fetched_table scenario_env empty_world
              (usd_answer (div one (of_Z 150))))
    as (t & Hok & Hrates & Hjpy & _ & _ & Hat & Hmem & Hsto & _ & _);
    try reflexivity.
  exists t. split; [exact Hok|]. split.
  - apply Hrates; [apply lookup_insert_eq | discriminate | discriminate].
  - split; [exact Hjpy|]. split; [exact Hat|]. split; [exact Hmem|].
    apply Hsto. reflexivity.
Defined.

(** C5 as stated fails.  With a store that refuses the write the fetched
    table is returned but is not in the persisted tier.  Were JPY among
    the codes of the answer, its entry would be 1 and not the reciprocal of
    its factor.  And a key [__proto__] of the answer is not mapped at all:
    the table built from [{"__proto__": 2}] has the entry for JPY and no
    other. *)
Lemma fetched_table_not_persisted :
  (fst (getExchangeRates
          (steady_env 0 false true (Body (usd_answer (of_Z 2)))) empty_world)
   = Ok (fresh_table (usd_answer (of_Z 2)) 0)
   /\ storage (snd (getExchangeRates
                      (steady_env 0 false true (Body (usd_answer (of_Z 2))))
                      empty_world))
      = None)
  /\ (resp_rates (jpy_answer (of_Z 2)) !! JPY
      = Some (of_Z 2)
      /\ rates (fresh_table (jpy_answer (of_Z 2)) 0) !! JPY = Some (of_Z 1)
      /\ div one (of_Z 2) <> of_Z 1)
  /\ (resp_rates (proto_answer (of_Z 2)) !! proto_key = Some (of_Z 2)
      /\ fst (getExchangeRates
                (steady_env 0 false false (Body (proto_answer (of_Z 2))))
                empty_world)
         = Ok (fresh_table (proto_answer (of_Z 2)) 0)
      /\ rates (fresh_table (proto_answer (of_Z 2)) 0) !! proto_key = None
      /\ rates (fresh_table (proto_answer (of_Z 2)) 0) = {[ JPY := one ]}).
Proof.
  split; [|split].
  - rewrite getExchangeRates_miss by reflexivity.
    rewrite (from_remote_body _ _ (usd_answer (of_Z 2))) by reflexivity.
    split; reflexivity.
  - split; [apply lookup_insert_eq|]. split; [apply invert_rates_JPY|].
    vm_compute. discriminate.
  - split; [apply lookup_insert_eq|]. split.
    { rewrite getExchangeRates_miss by reflexivity.
      rewrite (from_remote_body _ _ (proto_answer (of_Z 2))) by reflexivity.
      reflexivity. }
    split; [apply invert_rates_proto|].
    vm_compute. reflexivity.
Qed.

Lemma getExchangeRates_miss_fetches (env : Env) (w : World) :
  memory_fresh env w = false -> storage_fresh env w = false ->
  fetches (snd (getExchangeRates env w)) = S (fetches w).
Proof.
  intros Hm Hs. rewrite getExchangeRates_miss by assumption.
  destruct (remote_body_or_not (remote env (fetches (after_miss env w))))
    as [[data Hr]|Hr].
  - rewrite (from_remote_body _ _ data) by exact Hr. reflexivity.
  - rewrite from_remote_failed by exact Hr. reflexivity.
Qed.

(** A call that starts with a table in the in-process slot reads the
    clock. *)
Lemma getExchangeRates_reads_clock (env : Env) (w : World) (c : CachedRates) :
  memoryCache w = Some c ->
  ticks w < ticks (snd (getExchangeRates env w)).
Proof.
  intros Hc.
  destruct (memory_fresh env w) eqn:Hm.
  - apply memory_fresh_inv in Hm as (c' & Hc' & Hf).
    rewrite (getExchangeRates_memory_hit env w c') by assumption.
    simpl. lia.
  - destruct (storage_fresh env w) eqn:Hs.
    + apply storage_fresh_inv in Hs as (c' & Hg & Hc' & Hf).
      rewrite (getExchangeRates_storage_hit env w c') by assumption.
      simpl. unfold ticks_after_memory. rewrite Hc. lia.
    + rewrite getExchangeRates_miss by assumption.
      assert (Hlt : ticks w < ticks (after_miss env w)).
      { simpl. unfold ticks_after_storage, ticks_after_memory. rewrite Hc.
        destruct (storage_get_fails env (reads w)), (storage w); lia. }
      destruct (remote_body_or_not (remote env (fetches (after_miss env w))))
        as [[data Hr]|Hr].
      * rewrite (from_remote_body _ _ data) by exact Hr.
        cbn [snd ticks]. lia.
      * rewrite from_remote_failed by exact Hr. cbn [snd ticks]. lia.
Qed.

(** C6, as amended.  (1) Two calls one after the other, the first of
    which returns a table, with the clock readings that these two calls
    make less than the cache duration apart, issue at most one fetch
    between them.  (2) A fresh in-process table is returned without
    touching the store or the remote source.  (3) Otherwise a fresh
    persisted table is put into the in-process slot and returned, without
    a fetch.  (4) A call that finds no fresh table in either tier issues
    exactly one fetch. *)
Theorem getExchangeRates_freshness (env : Env) (w : World) :
  (forall t w1,
     getExchangeRates env w = (Ok t, w1) ->
     readings_within env (ticks w) (ticks (snd (getExchangeRates env w1))) ->
     fetches (snd (getExchangeRates env w1)) <= S (fetches w))
  /\ (memory_fresh env w = true ->
      exists c,
        memoryCache w = Some c
        /\ fst (getExchangeRates env w) = Ok c
        /\ memoryCache (snd (getExchangeRates env w)) = Some c
        /\ storage (snd (getExchangeRates env w)) = storage w
        /\ reads (snd (getExchangeRates env w)) = reads w
        /\ writes (snd (getExchangeRates env w)) = writes w
        /\ fetches (snd (getExchangeRates env w)) = fetches w)
  /\ (memory_fresh env w = false -> storage_fresh env w = true ->
      exists c,
        storage w = Some c
        /\ fst (getExchangeRates env w) = Ok c
        /\ memoryCache (snd (getExchangeRates env w)) = Some c
        /\ writes (snd (getExchangeRates env w)) = writes w
        /\ fetches (snd (getExchangeRates env w)) = fetches w)
  /\ (memory_fresh env w = false -> storage_fresh env w = false ->
      fetches (snd (getExchangeRates env w)) = S (fetches w)).
Proof.
  split; [|split; [|split]].
  - intros t w1 Hrun Hwin.
    apply getExchangeRates_ok in Hrun
      as (Hmem & [Hsame|(Hone & k & Hk & Hat & Htick)]).
    + rewrite <- Hsame. apply getExchangeRates_fetches.
    + pose proof (getExchangeRates_reads_clock env w1 t Hmem) as Hread.
      assert (Hfresh : (now env (ticks w1) - fetchedAt t <? CACHE_DURATION)%Z
                       = true).
      { apply Z.ltb_lt. rewrite Hat. apply Hwin; lia. }
      rewrite (getExchangeRates_memory_hit env w1 t Hmem Hfresh).
      simpl. lia.
  - intros Hm. apply memory_fresh_inv in Hm as (c & Hc & Hf).
    exists c. rewrite (getExchangeRates_memory_hit env w c) by assumption.
    simpl. auto 10.
  - intros Hm Hs. apply storage_fresh_inv in Hs as (c & Hg & Hc & Hf).
    exists c. rewrite (getExchangeRates_storage_hit env w c) by assumption.
    simpl. auto 10.
  - apply getExchangeRates_miss_fetches.
Qed.

Lemma scenario_two_calls :
  getExchangeRates scenario_env empty_world
  = (Ok (fresh_table (usd_answer (div one (of_Z 150))) 0),
     after_call scenario_env empty_world)
  /\ ticks (snd (getExchangeRates scenario_env
                   (after_call scenario_env empty_world))) = 2.
Proof. split; vm_compute; reflexivity. Qed.

(** C6 on scenario 6: the first call at T fetches; the call at T + 30 min
    returns the table in memory without a fetch; the call at T + 90 min
    issues exactly one fetch.  And the calls at T and at T + 30 min, whose
    two clock readings lie 30 minutes apart, issue one fetch between
    them. *)
Lemma getExchangeRates_freshness_witness :
  fetches (after_call scenario_env empty_world) = 1
  /\ (exists c,
        memoryCache (after_call scenario_env empty_world) = Some c
        /\ fst (getExchangeRates scenario_env
                  (after_call scenario_env empty_world)) = Ok c
        /\ fetches (after_call scenario_env
                      (after_call scenario_env empty_world))
           = fetches (after_call scenario_env empty_world))
  /\ fetches
       (after_call scenario_env
          (after_call scenario_env (after_call scenario_env empty_world)))
     = S (fetches (after_call scenario_env
                     (after_call scenario_env empty_world)))
  /\ (readings_within scenario_env (ticks empty_world)
        (ticks (snd (getExchangeRates scenario_env
                       (after_call scenario_env empty_world))))
      /\ fetches (snd (getExchangeRates scenario_env
                         (after_call scenario_env empty_world)))
         <= S (fetches empty_world)).
Proof.
  split; [|split; [|split]].
  - apply (getExchangeRates_freshness scenario_env empty_world);
      vm_compute; reflexivity.
  - destruct (proj1 (proj2 (getExchangeRates_freshness scenario_env
                              (after_call scenario_env empty_world))))
      as (c & Hc & Hok & _ & _ & _ & _ & Hf); [vm_compute; reflexivity|].
    exists c. auto.
  - apply (getExchangeRates_freshness scenario_env
             (after_call scenario_env (after_call scenario_env empty_world)));
      vm_compute; reflexivity.
  - assert (Hwin : readings_within scenario_env (ticks empty_world)
                     (ticks (snd (getExchangeRates scenario_env
                                    (after_call scenario_env empty_world))))).
    { rewrite (proj2 scenario_two_calls). intros i j Hi Hj. simpl in Hi, Hj.
      destruct i as [|[|i]]; [| |lia];
        (destruct j as [|[|j]]; [| |lia]); vm_compute; reflexivity. }
    split; [exact Hwin|].
    exact (proj1 (getExchangeRates_freshness scenario_env empty_world)
             _ _ (proj1 scenario_two_calls) Hwin).
Defined.

(** C6 as stated fails.  With a remote source that answers 503, two calls
    at the same instant on a worker without a cached table issue two
    fetches: a failed fetch leaves nothing in the cache. *)
Lemma two_calls_two_fetches :
  fst (getExchangeRates (steady_env 0 false false (HttpStatus 503))
         empty_world)
  = Throw (ApiError 503)
  /\ fetches
       (snd (getExchangeRates (steady_env 0 false false (HttpStatus 503))
               (snd (getExchangeRates
                       (steady_env 0 false false (HttpStatus 503))
                       empty_world))))
     = 2
  /\ within_window (steady_env 0 false false (HttpStatus 503)) 0.
Proof.
  split; [reflexivity|]. split; [reflexivity|].
  intros i j _ _. reflexivity.
Qed.

Lemma fetch_error_not_storage (o : FetchOutcome) :
  fetch_error o <> StorageFailure.
Proof. destruct o; discriminate. Qed.

(** C7.  No call of [getExchangeRates] fails with a storage failure.
    When the read of the persisted store fails, the call goes on to the
    remote fetch from the state a miss leaves, and issues that one fetch.
    When the fetch succeeds and the write of the store fails, the fetched
    table is returned and is in the in-process slot, the store being left
    as it was. *)
Theorem storage_failure_not_propagated (env : Env) (w : World) :
  fst (getExchangeRates env w) <> Throw StorageFailure
  /\ (memory_fresh env w = false ->
      storage_get_fails env (reads w) = true ->
      getExchangeRates env w = from_remote env (after_miss env w)
      /\ memoryCache (after_miss env w) = memoryCache w
      /\ fetches (snd (getExchangeRates env w)) = S (fetches w))
  /\ (forall data,
        memory_fresh env w = false ->
        storage_fresh env w = false ->
        remote env (fetches w) = Body data ->
        storage_set_fails env (writes w) = true ->
        fst (getExchangeRates env w)
        = Ok (fresh_table data (now env (ticks_after_storage env w)))
        /\ memoryCache (snd (getExchangeRates env w))
           = Some (fresh_table data (now env (ticks_after_storage env w)))
        /\ storage (snd (getExchangeRates env w)) = storage w).
Proof.
  split; [|split].
  - destruct (memory_fresh env w) eqn:Hm.
    + apply memory_fresh_inv in Hm as (c & Hc & Hf).
      rewrite (getExchangeRates_memory_hit env w c) by assumption. discriminate.
    + destruct (storage_fresh env w) eqn:Hs.
      * apply storage_fresh_inv in Hs as (c & Hg & Hc & Hf).
        rewrite (getExchangeRates_storage_hit env w c) by assumption.
        discriminate.
      * rewrite getExchangeRates_miss by assumption.
        destruct (remote_body_or_not (remote env (fetches (after_miss env w))))
          as [[data Hr]|Hr].
        -- rewrite (from_remote_body _ _ data) by exact Hr. discriminate.
        -- rewrite from_remote_failed by exact Hr. simpl.
           intros H. injection H as H.
           exact (fetch_error_not_storage _ H).
  - intros Hm Hget.
    assert (Hs : storage_fresh env w = false)
      by (unfold storage_fresh; rewrite Hget; reflexivity).
    split; [apply getExchangeRates_miss; assumption|].
    split; [reflexivity|].
    apply getExchangeRates_miss_fetches; assumption.
  - intros data Hm Hs Hr Hset.
    rewrite getExchangeRates_miss by assumption.
    rewrite (from_remote_body _ _ data) by exact Hr. simpl.
    rewrite Hset. auto.
Qed.

(** C7 on a worker whose store fails on every read and every write: the
    call still returns the fetched table and keeps it in memory. *)
Lemma storage_failure_not_propagated_witness :
  fst (getExchangeRates (steady_env 0 true true (Body (usd_answer (of_Z 2))))
         empty_world)
  = Ok (fresh_table (usd_answer (of_Z 2)) 0)
  /\ memoryCache
       (snd (getExchangeRates
               (steady_env 0 true true (Body (usd_answer (of_Z 2))))
               empty_world))
     = Some (fresh_table (usd_answer (of_Z 2)) 0)
  /\ fetches
       (snd (getExchangeRates
               (steady_env 0 true true (Body (usd_answer (of_Z 2))))
               empty_world))
     = 1.
Proof.
  destruct (storage_failure_not_propagated
              (steady_env 0 true true (Body (usd_answer (of_Z 2))))
              empty_world) as (_ & Hread & Hwrite).
  destruct Hread as (_ & _ & Hf); try reflexivity.
  destruct (Hwrite (usd_answer (of_Z 2))) as (Hok & Hmem & _);
    try reflexivity.
  split; [exact Hok|]. split; [exact Hmem | exact Hf].
Defined.

(** * Further properties *)

(** ** The rate cache *)

(** X1.  A call of [getExchangeRates] that fails has issued exactly one
    fetch, fails with the error of that fetch, and leaves the in-process
    table and the persisted record as they were; nothing was written. *)
Theorem failed_call_keeps_caches (env : Env) (w w' : World) (e : Error) :
  getExchangeRates env w = (Throw e, w') ->
  memoryCache w' = memoryCache w
  /\ storage w' = storage w
  /\ writes w' = writes w
  /\ fetches w' = S (fetches w)
  /\ e = fetch_error (remote env (fetches w))
  /\ forall data, remote env (fetches w) <> Body data.
Proof.
  destruct (memory_fresh env w) eqn:Hm.
  - apply memory_fresh_inv in Hm as (c & Hc & Hf).
    rewrite (getExchangeRates_memory_hit env w c) by assumption. discriminate.
  - destruct (storage_fresh env w) eqn:Hs.
    + apply storage_fresh_inv in Hs as (c & Hg & Hc & Hf).
      rewrite (getExchangeRates_storage_hit env w c) by assumption.
      discriminate.
    + rewrite getExchangeRates_miss by assumption.
      destruct (remote_body_or_not (remote env (fetches (after_miss env w))))
        as [[data Hr]|Hr].
      * rewrite (from_remote_body _ _ data) by exact Hr. discriminate.
      * rewrite from_remote_failed by exact Hr.
        intros H. injection H as <- <-. simpl. auto 10.
Qed.

Lemma failed_call_keeps_caches_witness :
  memoryCache
    (after_call (steady_env (minutes 90) false false (HttpStatus 503))
       (mkWorld (Some table_2024) (Some table_2024) 0 0 0 0 []))
  = Some table_2024
  /\ storage
       (after_call (steady_env (minutes 90) false false (HttpStatus 503))
          (mkWorld (Some table_2024) (Some table_2024) 0 0 0 0 []))
     = Some table_2024.
Proof.
  destruct (failed_call_keeps_caches
              (steady_env (minutes 90) false false (HttpStatus 503))
              (mkWorld (Some table_2024) (Some table_2024) 0 0 0 0 [])
              (after_call (steady_env (minutes 90) false false (HttpStatus 503))
                 (mkWorld (Some table_2024) (Some table_2024) 0 0 0 0 []))
              (ApiError 503))
    as (Hm & Hs & _); [vm_compute; reflexivity|].
  split; [exact Hm | exact Hs].
Defined.

(** X2.  One call reads the clock at most three times, reads the store at
    most once, writes it at most once and fetches at most once; it writes
    only after a fetch, and fetches only after having tried the store. *)
Theorem one_call_io_bounds (env : Env) (w : World) :
  (ticks w <= ticks (after_call env w) <= ticks w + 3)
  /\ (reads w <= reads (after_call env w) <= S (reads w))
  /\ (writes w <= writes (after_call env w) <= S (writes w))
  /\ (fetches w <= fetches (after_call env w) <= S (fetches w))
  /\ writes (after_call env w) - writes w
     <= fetches (after_call env w) - fetches w
  /\ fetches (after_call env w) - fetches w
     <= reads (after_call env w) - reads w.
Proof.
  unfold after_call. destruct (memory_fresh env w) eqn:Hm.
  - apply memory_fresh_inv in Hm as (c & Hc & Hf).
    rewrite (getExchangeRates_memory_hit env w c) by assumption. simpl. lia.
  - destruct (storage_fresh env w) eqn:Hs.
    + apply storage_fresh_inv in Hs as (c & Hg & Hc & Hf).
      rewrite (getExchangeRates_storage_hit env w c) by assumption.
      unfold ticks_after_memory. simpl. destruct (memoryCache w); lia.
    + rewrite getExchangeRates_miss by assumption.
      assert (Ht : ticks w <= ticks_after_storage env w <= ticks w + 2).
      { unfold ticks_after_storage, ticks_after_memory.
        destruct (storage_get_fails env (reads w)), (storage w),
          (memoryCache w); lia. }
      destruct (remote_body_or_not (remote env (fetches (after_miss env w))))
        as [[data Hr]|Hr].
      * rewrite (from_remote_body _ _ data) by exact Hr. simpl. lia.
      * rewrite from_remote_failed by exact Hr. simpl. lia.
Qed.

(** X3.  A table that [getExchangeRates] returns is in the in-process slot
    afterwards and is not stale: some clock reading taken during the call
    lies less than the cache duration after its [fetchedAt]. *)
Theorem returned_table_is_fresh (env : Env) (w w' : World) (t : CachedRates) :
  getExchangeRates env w = (Ok t, w') ->
  memoryCache w' = Some t
  /\ exists k, ticks w <= k < ticks w'
               /\ (now env k - fetchedAt t < CACHE_DURATION)%Z.
Proof.
  destruct (memory_fresh env w) eqn:Hm.
  - apply memory_fresh_inv in Hm as (c & Hc & Hf).
    rewrite (getExchangeRates_memory_hit env w c) by assumption.
    intros H. injection H as <- <-. simpl. split; [reflexivity|].
    exists (ticks w). apply Z.ltb_lt in Hf. split; [lia | exact Hf].
  - destruct (storage_fresh env w) eqn:Hs.
    + apply storage_fresh_inv in Hs as (c & Hg & Hc & Hf).
      rewrite (getExchangeRates_storage_hit env w c) by assumption.
      intros H. injection H as <- <-. simpl. split; [reflexivity|].
      exists (ticks_after_memory w). apply Z.ltb_lt in Hf.
      split; [|exact Hf].
      unfold ticks_after_memory. destruct (memoryCache w); lia.
    + rewrite getExchangeRates_miss by assumption.
      destruct (remote_body_or_not (remote env (fetches (after_miss env w))))
        as [[data Hr]|Hr].
      * rewrite (from_remote_body _ _ data) by exact Hr.
        intros H. injection H as <- <-. simpl. split; [reflexivity|].
        exists (ticks_after_storage env w). split.
        -- unfold ticks_after_storage, ticks_after_memory.
           destruct (storage_get_fails env (reads w)), (storage w),
             (memoryCache w); lia.
        -- unfold CACHE_DURATION. lia.
      * rewrite from_remote_failed by exact Hr. discriminate.
Qed.

Lemma returned_table_is_fresh_witness :
  memoryCache (after_call scenario_env empty_world)
  = Some (fresh_table (usd_answer (div one (of_Z 150))) 0)
  /\ exists k, 0 <= k < ticks (after_call scenario_env empty_world)
               /\ (scenario_clock k - 0 < CACHE_DURATION)%Z.
Proof.
  apply (returned_table_is_fresh scenario_env empty_world
           (after_call scenario_env empty_world)
           (fresh_table (usd_answer (div one (of_Z 150))) 0)).
  vm_compute. reflexivity.
Defined.

(** X4.  After a fetch the table has entries exactly for JPY and for the
    codes of the remote answer other than [__proto__].  Converting a code
    the answer did not list, other than JPY and the names of the members
    of [Object.prototype], is refused as unsupported; converting
    [__proto__], or an unlisted name of another such member, is not
    refused and gives NaN yen. *)
Theorem unlisted_code_unsupported (env : Env) (w : World)
    (data : ExchangeRateResponse) (amount : number) (c : CurrencyCode) :
  memory_fresh env w = false ->
  storage_fresh env w = false ->
  remote env (fetches w) = Body data ->
  exists t : CachedRates,
    fst (getExchangeRates env w) = Ok t
    /\ (forall c', is_Some (rates t !! c')
                   <-> c' = JPY
                       \/ (c' <> proto_key /\ is_Some (resp_rates data !! c')))
    /\ (resp_rates data !! c = None -> c <> JPY ->
        is_prototype_member c = false ->
        fst (convertToYen amount c env w) = Throw (UnsupportedCurrency c))
    /\ (resp_rates data !! c = None \/ c = proto_key ->
        is_prototype_member c = true ->
        fst (convertToYen amount c env w)
        = Ok (mkConversion NaN (Inherited c) (date t))).
Proof.
  intros Hm Hs Hr.
  exists (fresh_table data (now env (ticks_after_storage env w))).
  split; [|split; [|split]].
  - rewrite getExchangeRates_miss by assumption.
    rewrite (from_remote_body _ _ data) by exact Hr. reflexivity.
  - intros c'. simpl. destruct (decide (c' = JPY)) as [->|Hne].
    + rewrite invert_rates_JPY. split; [auto | intros _; eexists; reflexivity].
    + destruct (decide (c' = proto_key)) as [->|Hproto].
      * rewrite invert_rates_proto.
        split; [intros [? H]; discriminate|].
        intros [H|[H _]]; contradiction.
      * destruct (resp_rates data !! c') as [x|] eqn:Hc.
        -- rewrite (invert_rates_lookup _ _ x) by assumption.
           split; [intros _; right; split; [assumption|]|intros _];
             eexists; reflexivity.
        -- rewrite invert_rates_absent by assumption.
           split; [intros [? H]; discriminate|].
           intros [H|[_ [? H]]]; [contradiction|discriminate].
  - intros Hc Hne Hp. unfold convertToYen, bind.
    rewrite getExchangeRates_miss by assumption.
    rewrite (from_remote_body _ _ data) by exact Hr. cbv zeta.
    rewrite object_get_inherited
      by (apply invert_rates_absent; assumption).
    rewrite Hp. reflexivity.
  - intros Hc Hp. unfold convertToYen, bind.
    rewrite getExchangeRates_miss by assumption.
    rewrite (from_remote_body _ _ data) by exact Hr. cbv zeta.
    assert (Hnone : invert_rates (resp_rates data) !! c = None).
    { destruct Hc as [Hc| ->]; [|apply invert_rates_proto].
      apply invert_rates_absent; [exact Hc|].
      intros ->. discriminate. }
    rewrite object_get_inherited by exact Hnone.
    rewrite Hp. simpl. rewrite mul_NaN. reflexivity.
Qed.

Lemma unlisted_code_unsupported_witness :
  fst (convertToYen (of_Z 10) (lit "EUR") scenario_env empty_world)
  = Throw (UnsupportedCurrency (lit "EUR")).
Proof.
  destruct (unlisted_code_unsupported scenario_env empty_world
              (usd_answer (div one (of_Z 150))) (of_Z 10) (lit "EUR")
              eq_refl eq_refl eq_refl)
    as (t & _ & _ & H & _).
  apply H; [reflexivity | discriminate | reflexivity].
Defined.

(** ** Settings and messages *)

Lemma spread_as_partial (base s : ExtensionSettings) :
  spread base (as_partial s) = s.
Proof. destruct s. reflexivity. Qed.

(** X5.  Settings written by [setSettings] are what [getSettings] returns
    next, provided that read works: the write stores the merged settings
    whole, and the merge with the defaults gives them back. *)
Theorem settings_round_trip (settings : PartialSettings) (env : SyncEnv)
    (st st' : SyncStore) (updated : ExtensionSettings) :
  setSettings settings env st = (Ok updated, st') ->
  sync_get_fails env (sync_reads st') = false ->
  fst (getSettings env st') = updated.
Proof.
  unfold setSettings, getSettings.
  destruct (sync_get_fails env (sync_reads st)); simpl;
    destruct (sync_set_fails env (sync_writes st)); try discriminate;
    intros H; injection H as <- <-; simpl; intros ->; simpl;
    apply spread_as_partial.
Qed.

Lemma settings_round_trip_witness :
  fst (getSettings sync_ok
         (snd (setSettings (mkPartial (Some false) None None) sync_ok
                 empty_sync)))
  = mkSettings false true (of_Z 200).
Proof.
  apply (settings_round_trip (mkPartial (Some false) None None) sync_ok
           empty_sync); reflexivity.
Defined.

(** X6.  [setSettings] changes only the fields its argument has: with a
    store whose reads work, switching [enabled] leaves [showOriginalAmount]
    and [tooltipDelay] as [getSettings] returned them before, and sets
    [enabled] as asked. *)
Theorem toggle_keeps_other_settings (b : bool) (env : SyncEnv)
    (st st' : SyncStore) (updated : ExtensionSettings) :
  sync_get_fails env (sync_reads st) = false ->
  setSettings (mkPartial (Some b) None None) env st = (Ok updated, st') ->
  enabled updated = b
  /\ showOriginalAmount updated = showOriginalAmount (fst (getSettings env st))
  /\ tooltipDelay updated = tooltipDelay (fst (getSettings env st)).
Proof.
  unfold setSettings, getSettings. intros ->. simpl.
  destruct (sync_set_fails env (sync_writes st)); [discriminate|].
  intros H. injection H as <- <-. auto.
Qed.

Lemma toggle_keeps_other_settings_witness :
  enabled (mkSettings false false (of_Z 500)) = false
  /\ showOriginalAmount (mkSettings false false (of_Z 500))
     = showOriginalAmount
         (fst (getSettings sync_ok
                 (mkSync (Some (mkPartial (Some true) (Some false)
                                          (Some (of_Z 500)))) 0 0)))
  /\ tooltipDelay (mkSettings false false (of_Z 500))
     = tooltipDelay
         (fst (getSettings sync_ok
                 (mkSync (Some (mkPartial (Some true) (Some false)
                                          (Some (of_Z 500)))) 0 0))).
Proof.
  apply (toggle_keeps_other_settings false sync_ok
           (mkSync (Some (mkPartial (Some true) (Some false)
                                    (Some (of_Z 500)))) 0 0)
           (mkSync (Some (as_partial (mkSettings false false (of_Z 500))))
                   1 1));
    reflexivity.
Defined.

(** X7.  When the read inside [setSettings] fails, the settings written
    are the defaults overlaid with the argument: fields stored before and
    not named in the argument are replaced by their defaults.  When the
    write fails, the failure is thrown and the stored record is left as it
    was. *)
Theorem setSettings_on_failures (settings : PartialSettings) (env : SyncEnv)
    (st : SyncStore) :
  (sync_get_fails env (sync_reads st) = true ->
   sync_set_fails env (sync_writes st) = false ->
   fst (setSettings settings env st) = Ok (spread DEFAULT_SETTINGS settings)
   /\ stored_settings (snd (setSettings settings env st))
      = Some (as_partial (spread DEFAULT_SETTINGS settings)))
  /\ (sync_set_fails env (sync_writes st) = true ->
      fst (setSettings settings env st) = Throw StorageFailure
      /\ stored_settings (snd (setSettings settings env st))
         = stored_settings st).
Proof.
  unfold setSettings, getSettings. split.
  - intros -> Hset. simpl. rewrite Hset. auto.
  - intros Hset. destruct (sync_get_fails env (sync_reads st)); simpl;
      rewrite Hset; auto.
Qed.

Lemma setSettings_on_failures_witness :
  stored_settings
    (snd (setSettings (mkPartial (Some false) None None)
            (mkSyncEnv (fun _ => true) (fun _ => false))
            (mkSync (Some (mkPartial None None (Some (of_Z 500)))) 0 0)))
  = Some (mkPartial (Some false) (Some true) (Some (of_Z 200)))
  /\ stored_settings
       (snd (setSettings (mkPartial (Some false) None None)
               (mkSyncEnv (fun _ => false) (fun _ => true))
               (mkSync (Some (mkPartial None None (Some (of_Z 500)))) 0 0)))
     = Some (mkPartial None None (Some (of_Z 500))).
Proof.
  split.
  - apply (proj1 (setSettings_on_failures (mkPartial (Some false) None None)
                    (mkSyncEnv (fun _ => true) (fun _ => false))
                    (mkSync (Some (mkPartial None None (Some (of_Z 500))))
                            0 0)));
      reflexivity.
  - apply (proj2 (setSettings_on_failures (mkPartial (Some false) None None)
                    (mkSyncEnv (fun _ => false) (fun _ => true))
                    (mkSync (Some (mkPartial None None (Some (of_Z 500))))
                            0 0)));
      reflexivity.
Defined.

(** X8.  Every answer of [handleMessage] is either a success with data
    and no error, or a failure with an error and no data; the error of a
    failed operation, and only that, is added to the error log. *)
Theorem response_envelope (env : Env) (senv : SyncEnv) (message : Message)
    (w : Worker) :
  (exists d,
     fst (handleMessage env senv message w) = mkMsgResponse true (Some d) None
     /\ error_log (snd (handleMessage env senv message w)) = error_log w)
  \/ (exists e,
        fst (handleMessage env senv message w)
        = mkMsgResponse false None (Some (MessageOf e))
        /\ error_log (snd (handleMessage env senv message w))
           = error_log w ++ [MessageOf e])
  \/ (fst (handleMessage env senv message w)
      = mkMsgResponse false None (Some UnknownMessageType)
      /\ snd (handleMessage env senv message w) = w).
Proof.
  unfold handleMessage, succeeded, failed.
  destruct (string_eqb (msg_type message) (lit "CONVERT_TO_YEN")).
  { destruct (convertToYen _ _ env (cache w)) as [[r|e] c]; simpl; eauto. }
  destruct (string_eqb (msg_type message) (lit "GET_ALL_RATES")).
  { destruct (getExchangeRates env (cache w)) as [[r|e] c]; simpl; eauto. }
  destruct (string_eqb (msg_type message) (lit "GET_SETTINGS")).
  { destruct (getSettings senv (sync w)) as [r s]; simpl; eauto. }
  destruct (string_eqb (msg_type message) (lit "SET_SETTINGS")).
  { destruct (setSettings _ senv (sync w)) as [[r|e] s]; simpl; eauto. }
  right. right. auto.
Qed.

(** X9.  A message whose type is none of the four the [switch] names is
    answered with the unknown-type failure and changes nothing; this
    includes [GET_EXCHANGE_RATE], which [MessageType] declares. *)
Theorem unknown_message_type (env : Env) (senv : SyncEnv) (message : Message)
    (w : Worker) :
  ~ In (msg_type message) known_types ->
  handleMessage env senv message w
  = (mkMsgResponse false None (Some UnknownMessageType), w).
Proof.
  intros Hn. unfold handleMessage.
  assert (Hne : forall t, In (lit t) known_types ->
                string_eqb (msg_type message) (lit t) = false).
  { intros t Ht. destruct (string_eqb _ _) eqn:E; [|reflexivity].
    apply string_eqb_eq in E. rewrite <- E in Ht. contradiction. }
  rewrite !Hne; [reflexivity| | | |]; simpl; auto 6.
Qed.

Lemma unknown_message_type_witness :
  handleMessage scenario_env sync_ok
    (mkMessage (lit "GET_EXCHANGE_RATE") (of_Z 1) USD no_settings)
    (mkWorker empty_world empty_sync [])
  = (mkMsgResponse false None (Some UnknownMessageType),
     mkWorker empty_world empty_sync []).
Proof.
  apply unknown_message_type. vm_compute.
  intros [H|[H|[H|[H|[]]]]]; discriminate H.
Defined.

(** X10.  A settings message never touches the rate cache and a rate
    message never touches the settings store; a [GET_SETTINGS] message
    succeeds whatever the store does. *)
Theorem messages_keep_apart (env : Env) (senv : SyncEnv) (message : Message)
    (w : Worker) :
  (msg_type message = lit "GET_SETTINGS"
   \/ msg_type message = lit "SET_SETTINGS" ->
   cache (snd (handleMessage env senv message w)) = cache w)
  /\ (msg_type message = lit "CONVERT_TO_YEN"
      \/ msg_type message = lit "GET_ALL_RATES" ->
      sync (snd (handleMessage env senv message w)) = sync w)
  /\ (msg_type message = lit "GET_SETTINGS" ->
      success (fst (handleMessage env senv message w)) = true).
Proof.
  unfold handleMessage, succeeded, failed. split; [|split].
  - intros [->| ->]; simpl.
    + destruct (getSettings senv (sync w)); reflexivity.
    + destruct (setSettings _ senv (sync w)) as [[r|e] s]; reflexivity.
  - intros [->| ->]; simpl.
    + destruct (convertToYen _ _ env (cache w)) as [[r|e] c]; reflexivity.
    + destruct (getExchangeRates env (cache w)) as [[r|e] c]; reflexivity.
  - intros ->. simpl. destruct (getSettings senv (sync w)); reflexivity.
Qed.

Lemma messages_keep_apart_witness :
  success
    (fst (handleMessage scenario_env
            (mkSyncEnv (fun _ => true) (fun _ => true))
            (mkMessage (lit "GET_SETTINGS") (of_Z 1) USD no_settings)
            (mkWorker empty_world empty_sync [])))
  = true.
Proof.
  apply (messages_keep_apart scenario_env
           (mkSyncEnv (fun _ => true) (fun _ => true))
           (mkMessage (lit "GET_SETTINGS") (of_Z 1) USD no_settings)
           (mkWorker empty_world empty_sync [])).
  reflexivity.
Defined.

(** ** [parseAmount] *)

(** X11.  [parseAmount] never returns NaN, a negative number or a number
    above [MAX_AMOUNT]: its result is 0, or lies above 0 and at most at
    1e9. *)
Theorem parseAmount_zero_or_in_range (t : jsstring) :
  isNaN (parseAmount t) = false
  /\ (parseAmount t = zero
      \/ (lt zero (parseAmount t) = true
          /\ le (parseAmount t) MAX_AMOUNT = true)).
Proof.
  split; [|apply parseAmount_range].
  unfold parseAmount. set (a := parseFloat _).
  destruct (isNaN a) eqn:Hn; [reflexivity|]. simpl.
  destruct (le a zero || gt a MAX_AMOUNT); [reflexivity | exact Hn].
Qed.

Lemma trimStart_Forall (P : char -> Prop) (s : jsstring) :
  Forall P s -> Forall P (trimStart s).
Proof.
  intros H. induction H as [|c s Hc Hs IH]; simpl; [constructor|].
  destruct (is_space c); [exact IH | constructor; assumption].
Qed.

Lemma trim_Forall (P : char -> Prop) (s : jsstring) :
  Forall P s -> Forall P (trim s).
Proof.
  intros H. unfold trim, trimEnd.
  apply Forall_rev, trimStart_Forall, Forall_rev, trimStart_Forall, H.
Qed.

Lemma filter_Forall (P : char -> Prop) (q : char -> bool) (s : jsstring) :
  Forall P s -> Forall P (List.filter q s).
Proof.
  intros H. induction H as [|c s Hc Hs IH]; simpl; [constructor|].
  destruct (q c); [constructor; assumption | exact IH].
Qed.

Lemma read_digits_none (s : jsstring) (acc : N) (n : nat) :
  Forall (fun c => is_digit c = false) s ->
  read_digits s acc n = (acc, n, s).
Proof. intros H. destruct H as [|c s Hc Hs]; simpl; [|rewrite Hc]; reflexivity. Qed.

(** Without a digit [parseFloat] finds no number: NaN, or an infinity for
    the text [Infinity]. *)
Lemma parseFloat_without_digit (s : jsstring) :
  Forall (fun c => is_digit c = false) s ->
  parseFloat s = NaN \/ exists neg, parseFloat s = S754_infinity neg.
Proof.
  intros H. unfold parseFloat.
  apply (trimStart_Forall _ _) in H.
  assert (Hs : Forall (fun c => is_digit c = false) (snd (read_sign (trimStart s)))).
  { unfold read_sign. destruct H as [|c r Hc Hr]; simpl; [constructor|].
    destruct c as [|p]; simpl; [constructor; assumption|].
    repeat (destruct p as [p|p|]; simpl; try (constructor; assumption);
            try assumption). }
  destruct (read_sign (trimStart s)) as [neg s1]. simpl in Hs.
  destruct (starts_with (lit "Infinity") s1); [right; eauto|].
  rewrite read_digits_none by exact Hs.
  destruct Hs as [|c r Hc Hr]; [left; reflexivity|].
  destruct (N.eq_dec c 46%N) as [->|Hne].
  - rewrite read_digits_none by exact Hr. left. reflexivity.
  - left. destruct c as [|p]; [reflexivity|].
    repeat (destruct p as [p|p|]; try reflexivity; try congruence).
Qed.

Lemma parseAmount_no_digit (s : jsstring) :
  Forall (fun c => is_digit c = false) s -> parseAmount s = zero.
Proof.
  intros H. unfold parseAmount.
  destruct (parseFloat_without_digit
              (List.filter (fun c => negb (char_eqb c 44%N)) (trim s)))
    as [->|[[|] ->]]; [apply filter_Forall, trim_Forall, H| | |]; reflexivity.
Qed.

(** X12.  A string without a digit parses to 0, whatever else it holds
    (the empty string, white space, commas, a sign, the word
    [Infinity]). *)
Theorem parseAmount_without_digit (s : jsstring) :
  Forall (fun c => is_digit c = false) s -> parseAmount s = zero.
Proof.
  intros H. unfold parseAmount.
  assert (Hclean : Forall (fun c => is_digit c = false)
                     (List.filter (fun c => negb (char_eqb c 44%N)) (trim s))).
  { apply filter_Forall, trim_Forall, H. }
  destruct (parseFloat_without_digit _ Hclean) as [->|[sign ->]].
  - reflexivity.
  - destruct sign; reflexivity.
Qed.

Lemma parseAmount_without_digit_witness :
  parseAmount (lit " -Infinity, ") = zero.
Proof.
  apply parseAmount_without_digit. repeat constructor.
Defined.

Lemma trimStart_no_space (s : jsstring) :
  Forall (fun c => is_space c = false) s -> trimStart s = s.
Proof. intros H. destruct H as [|c s Hc Hs]; simpl; [|rewrite Hc]; reflexivity. Qed.

Lemma trim_no_space (s : jsstring) :
  Forall (fun c => is_space c = false) s -> trim s = s.
Proof.
  intros H. unfold trim, trimEnd.
  rewrite (trimStart_no_space s) by exact H.
  rewrite trimStart_no_space by (apply Forall_rev; exact H).
  apply rev_involutive.
Qed.

Lemma filter_twice {A} (q : A -> bool) (l : list A) :
  List.filter q (List.filter q l) = List.filter q l.
Proof.
  induction l as [|a l IH]; simpl; [reflexivity|].
  destruct (q a) eqn:Ha; simpl; [rewrite Ha, IH|]; auto.
Qed.

(** X13.  Commas do not count: in a string without white space, removing
    every comma leaves the parsed amount unchanged. *)
Theorem parseAmount_ignores_commas (s : jsstring) :
  Forall (fun c => is_space c = false) s ->
  parseAmount (List.filter (fun c => negb (char_eqb c 44%N)) s)
  = parseAmount s.
Proof.
  intros H. unfold parseAmount.
  rewrite (trim_no_space s) by exact H.
  rewrite trim_no_space by (apply filter_Forall; exact H).
  rewrite filter_twice. reflexivity.
Qed.

Lemma parseAmount_ignores_commas_witness :
  parseAmount (lit "1234.50") = parseAmount (lit "1,234.50").
Proof.
  apply (parseAmount_ignores_commas (lit "1,234.50")).
  repeat constructor.
Defined.

(** ** What [detectCurrencies] finds and what it drops *)

Lemma exec_input (re re' : RegExpObject) (text : jsstring) (m : MatchArray) :
  exec re text = (Some m, re') -> input m = text.
Proof.
  unfold exec. destruct (length text <? lastIndex re); [discriminate|].
  destruct (search _ _ _ _ _) as [[[a j] c]|]; [|discriminate].
  intros H. injection H as <- <-. reflexivity.
Qed.

Lemma matches_input (text : jsstring) (fuel : nat) :
  forall re : RegExpObject,
    Forall (fun m => input m = text) (matches fuel re text).
Proof.
  induction fuel as [|fuel IH]; intros re; simpl; [constructor|].
  destruct (exec re text) as [[m|] re'] eqn:He; [|constructor].
  constructor; [eapply exec_input; eassumption | apply IH].
Qed.

Lemma substring_Forall (P : char -> Prop) (t : jsstring) (i j : nat) :
  Forall P t -> Forall P (substring t i j).
Proof.
  intros H. unfold substring. apply Forall_take, Forall_drop, H.
Qed.

Lemma group_text_Forall (P : char -> Prop) (m : MatchArray) (n : nat) :
  Forall P (input m) -> Forall P (group_text m n).
Proof.
  intros H. unfold group_text, group.
  destruct (get_capture (groups m) n) as [[a b]|]; [|constructor].
  apply substring_Forall. exact H.
Qed.

(** Each rule parses the text of one of its groups. *)
Lemma patterns_amount_of_group :
  Forall (fun rule =>
            exists n, forall m,
              getAmount rule m = parseAmount (group_text m n))
         CURRENCY_PATTERNS.
Proof.
  repeat constructor;
    solve [exists 1; reflexivity | exists 2; reflexivity].
Qed.

Lemma omap_none {A B} (f : A -> option B) (l : list A) :
  Forall (fun a => f a = None) l -> omap f l = [].
Proof.
  intros H. induction H as [|a l Ha Hl IH]; cbn; [reflexivity|].
  rewrite Ha. exact IH.
Qed.

Lemma rule_candidates_without_digit (rule : PatternRule) (text : jsstring) :
  (exists n, forall m, getAmount rule m = parseAmount (group_text m n)) ->
  Forall (fun c => is_digit c = false) text ->
  rule_candidates rule text = [].
Proof.
  intros [n Hn] Htext. unfold rule_candidates. apply omap_none.
  eapply Forall_impl; [apply matches_input|].
  intros m Hm. simpl in Hm. unfold candidate.
  rewrite Hn, parseAmount_no_digit.
  - rewrite orb_true_r. reflexivity.
  - apply group_text_Forall. rewrite Hm. exact Htext.
Qed.

(** X14.  A text without a digit, the empty text included, has no
    match. *)
Theorem detectCurrencies_without_digit (f : nat -> nat) (text : jsstring) :
  Forall (fun c => is_digit c = false) text ->
  detectCurrencies (patterns_in_state f) text = Some ([], CURRENCY_PATTERNS).
Proof.
  intros Htext. rewrite detectCurrencies_detected. unfold detected.
  replace (flat_map (fun r => rule_candidates r text) CURRENCY_PATTERNS)
    with (@nil DetectedCurrency); [reflexivity|].
  symmetry.
  pose proof patterns_amount_of_group as Hp.
  induction Hp as [|rule rules Hr Hp IH]; simpl; [reflexivity|].
  rewrite rule_candidates_without_digit by assumption. exact IH.
Qed.

Lemma detectCurrencies_without_digit_witness :
  detectCurrencies CURRENCY_PATTERNS (lit "US$ and $, or EUR")
  = Some ([], CURRENCY_PATTERNS).
Proof.
  apply (detectCurrencies_without_digit (fun _ => 0)).
  repeat constructor.
Defined.

Lemma take_or_overlapped (acc : list (nat * DetectedCurrency))
    (c : nat * DetectedCurrency) :
  nonempty_span (snd c) ->
  Forall (fun e => nonempty_span (snd e)) acc ->
  In c (take acc c)
  \/ exists e, In e acc /\ overlap (snd e) (snd c).
Proof.
  intros Hc Hne. unfold take. rewrite tagged_spans.
  destruct (isOverlapping _ _ _) eqn:Ho.
  - right. apply isOverlapping_true in Ho;
      [|exact Hc|apply Forall_map; exact Hne].
    apply Exists_exists in Ho as (d & Hd & Hov).
    apply list_elem_of_In, in_map_iff in Hd as (e & <- & He).
    exists e. unfold overlap. tauto.
  - left. apply in_or_app. right. left. reflexivity.
Qed.

Lemma take_nonempty (acc : list (nat * DetectedCurrency))
    (c : nat * DetectedCurrency) :
  nonempty_span (snd c) ->
  Forall (fun e => nonempty_span (snd e)) acc ->
  Forall (fun e => nonempty_span (snd e)) (take acc c).
Proof.
  intros Hc Hne. unfold take. destruct (isOverlapping _ _ _); [exact Hne|].
  apply Forall_app. split; [exact Hne|]. constructor; [exact Hc|constructor].
Qed.

Lemma fold_take_or_overlapped (cs : list (nat * DetectedCurrency)) :
  forall (acc : list (nat * DetectedCurrency)) (c : nat * DetectedCurrency),
    Forall (fun e => nonempty_span (snd e)) cs ->
    Forall (fun e => nonempty_span (snd e)) acc ->
    In c cs ->
    In c (fold_left take cs acc)
    \/ exists e, In e (fold_left take cs acc) /\ overlap (snd e) (snd c).
Proof.
  induction cs as [|c0 cs IH]; intros acc c Hcs Hacc Hin; [destruct Hin|].
  inversion Hcs as [|? ? Hc0 Hcs']; subst. simpl.
  destruct Hin as [->|Hin].
  - destruct (take_or_overlapped acc c Hc0 Hacc) as [H|(e & He & Hov)].
    + left. apply fold_take_keeps. exact H.
    + right. exists e. split; [|exact Hov].
      apply fold_take_keeps. apply (fold_take_keeps [c]). exact He.
  - apply IH; [exact Hcs'|apply take_nonempty; assumption|exact Hin].
Qed.

(** X15.  No candidate is lost without cause: every candidate of a text
    is among the matches returned, or overlaps one of them. *)
Theorem candidate_returned_or_overlapped (f : nat -> nat) (text : jsstring) :
  exists out : list DetectedCurrency,
    detectCurrencies (patterns_in_state f) text = Some (out, CURRENCY_PATTERNS)
    /\ Forall (fun c => In (snd c) out
                        \/ exists d, In d out /\ overlap d (snd c))
              (candidates text).
Proof.
  exists (detected text). split; [apply detectCurrencies_detected|].
  apply Forall_forall. intros c Hc%list_elem_of_In.
  destruct (fold_take_or_overlapped (candidates text) [] c) as [H|(e & He & Hov)];
    [apply candidates_nonempty|constructor|exact Hc| |].
  - left. rewrite detected_retained. apply sort_by_start_In.
    apply in_map. exact H.
  - right. exists (snd e). split; [|exact Hov].
    rewrite detected_retained. apply sort_by_start_In.
    apply in_map. exact He.
Qed.

(** ** Detection at a point *)

Lemma detectFromTargetElement_stable (f : nat -> nat) (el : Element)
    (x y : number) :
  exists g,
    detectFromTargetElement (patterns_in_state f) el x y
    = Some (target_match el x y, patterns_in_state g).
Proof.
  unfold target_match, detectFromTargetElement.
  destruct (existsb _ excluded_tags); [exists f; reflexivity|].
  destruct ((length (element_text el) <? 1) || _); [exists f; reflexivity|].
  destruct (gt _ _ || gt _ _); [exists f; reflexivity|].
  destruct (negb _); [exists f; reflexivity|].
  rewrite detectCurrencies_detected.
  rewrite (detectCurrencies_initial (element_text el) _ eq_refl).
  exists (fun _ => 0). reflexivity.
Qed.

Lemma target_match_sound (el : Element) (x y : number) :
  sound_result (target_match el x y).
Proof.
  unfold target_match, detectFromTargetElement.
  destruct (existsb _ excluded_tags); [exact I|].
  destruct ((length (element_text el) <? 1) || _); [exact I|].
  destruct (gt _ _ || gt _ _); [exact I|].
  destruct (negb _); [exact I|].
  rewrite (detectCurrencies_initial (element_text el) _ eq_refl).
  pose proof (detected_well_formed (element_text el)) as Hw.
  destruct (detected (element_text el)) as [|d rest]; [exact I|].
  inversion Hw as [|? ? (Hne & (_ & Hlen & _) & Hjpy & Hpos & Hmax) _]; subst.
  simpl. unfold sound_match. auto.
Qed.

Lemma first_match_sound (els : list Element) (x y : number) :
  sound_result (first_match els x y).
Proof.
  induction els as [|el els IH]; simpl; [exact I|].
  pose proof (target_match_sound el x y) as Hs.
  destruct (target_match el x y); [exact Hs | exact IH].
Qed.

Lemma walk_parents_first_match (x y : number) (ancestors : list Element) :
  forall (depth : nat) (f : nat -> nat),
    exists g,
      walk_parents (patterns_in_state f) ancestors depth x y
      = Some (first_match (firstn (maxDepth - depth)
                                  (below_boundary ancestors)) x y,
              patterns_in_state g).
Proof.
  induction ancestors as [|a rest IH]; intros depth f;
    cbn [walk_parents below_boundary].
  - exists f. rewrite firstn_nil. reflexivity.
  - destruct (depth <? maxDepth) eqn:Hd.
    + apply Nat.ltb_lt in Hd.
      destruct (existsb _ boundary_tags).
      { exists f. rewrite firstn_nil. reflexivity. }
      replace (maxDepth - depth) with (S (maxDepth - S depth)) by lia.
      cbn [firstn first_match].
      assert (Hstep : forall f1, exists g,
                match detectFromTargetElement (patterns_in_state f1) a x y with
                | Some (Some d, p) => Some (Some d, p)
                | Some (None, p) => walk_parents p rest (S depth) x y
                | None => None
                end
                = Some (match target_match a x y with
                        | Some d => Some d
                        | None => first_match
                                    (firstn (maxDepth - S depth)
                                            (below_boundary rest)) x y
                        end, patterns_in_state g)).
      { intros f1.
        destruct (detectFromTargetElement_stable f1 a x y) as [g1 ->].
        destruct (target_match a x y); [exists g1; reflexivity|].
        apply IH. }
      destruct (includes_char (toLowerCase (tagName a)) 45%N);
        [|apply Hstep].
      destruct (detectFromTargetElement_stable f a x y) as [g1 E].
      rewrite E.
      destruct (target_match a x y) eqn:Ht; [exists g1; reflexivity|].
      destruct (Hstep g1) as [g2 E2]. exists g2. exact E2.
    + apply Nat.ltb_ge in Hd. exists f.
      replace (maxDepth - depth) with 0 by lia. reflexivity.
Qed.

(** X16.  [detectFromParentElements] returns the match of the nearest
    ancestor that has one, looking at the ancestors below the first
    [body], [html] or [head] and at no more than fifteen of them; reading a
    custom element twice changes nothing, and neither does the state of
    the pattern objects. *)
Theorem detectFromParentElements_nearest (f : nat -> nat)
    (ancestors : list Element) (x y : number) :
  (exists g,
     detectFromParentElements (patterns_in_state f) ancestors x y
     = Some (first_match (reachable_ancestors ancestors) x y,
             patterns_in_state g))
  /\ length (reachable_ancestors ancestors) <= 15
  /\ Forall (fun a => existsb (string_eqb (toLowerCase (tagName a)))
                             boundary_tags = false)
            (reachable_ancestors ancestors).
Proof.
  split; [|split].
  - unfold detectFromParentElements, reachable_ancestors.
    destruct (walk_parents_first_match x y ancestors 0 f) as [g E].
    exists g. rewrite E. reflexivity.
  - unfold reachable_ancestors. rewrite length_firstn. unfold maxDepth. lia.
  - unfold reachable_ancestors. apply Forall_take.
    induction ancestors as [|a rest IH]; cbn [below_boundary];
      [constructor|].
    destruct (existsb _ boundary_tags) eqn:Hb; [constructor|].
    constructor; assumption.
Qed.

Lemma substring_substring (t : jsstring) (a b i j : nat) :
  j <= length (substring t a b) ->
  substring (substring t a b) i j = substring t (i + a) (j + a).
Proof.
  intros Hj. unfold substring in *.
  rewrite length_firstn, length_skipn in Hj.
  rewrite skipn_firstn_comm, firstn_firstn, skipn_skipn.
  f_equal. lia.
Qed.

Lemma substring_bounded (t : jsstring) (a b : nat) :
  length (substring t a b) + a <= Nat.max a (length t).
Proof.
  unfold substring. rewrite length_firstn, length_skipn. lia.
Qed.

Lemma first_at_offset_inv (node : CaretNode) (x y : number) (rel start : nat)
    (currencies : list DetectedCurrency) (d : DetectedCurrency) :
  first_at_offset node currencies rel start x y = Some d ->
  exists c,
    In c currencies
    /\ startIndex c <= rel <= endIndex c
    /\ d = mkDetected (code c) (amount c) (originalText c)
                      (startIndex c + start) (endIndex c + start)
    /\ isPointInTextRange node (startIndex c + start) (endIndex c + start) x y
       = true.
Proof.
  induction currencies as [|c rest IH]; simpl; [discriminate|].
  destruct ((startIndex c <=? rel) && (rel <=? endIndex c)) eqn:Hin.
  - destruct (isPointInTextRange node _ _ x y) eqn:Hp.
    + intros H. injection H as <-. exists c.
      apply andb_true_iff in Hin as [H1 H2].
      apply Nat.leb_le in H1, H2. auto.
    + intros H. apply IH in H as (c' & Hc & H). exists c'. auto.
  - intros H. apply IH in H as (c' & Hc & H). exists c'. auto.
Qed.

Lemma detectFromCaretRange_stable (f : nat -> nat) (doc : Document)
    (x y : number) :
  exists g,
    detectFromCaretRange (patterns_in_state f) doc x y
    = Some (caret_match doc x y, patterns_in_state g).
Proof.
  unfold caret_match, detectFromCaretRange.
  destruct (doc x y) as [| |node offset]; try (exists f; reflexivity).
  destruct (negb (isTextNode node)); [exists f; reflexivity|].
  rewrite detectCurrencies_detected.
  rewrite (detectCurrencies_initial _ _ eq_refl).
  exists (fun _ => 0). reflexivity.
Qed.

(** What a match found at the caret satisfies, in terms of the text node. *)
Lemma caret_match_inv (doc : Document) (x y : number) (d : DetectedCurrency) :
  caret_match doc x y = Some d ->
  exists node offset,
    doc x y = CaretAt node offset
    /\ isTextNode node = true
    /\ startIndex d <= offset <= endIndex d
    /\ endIndex d <= length (node_text node)
    /\ originalText d
       = substring (node_text node) (startIndex d) (endIndex d)
    /\ isPointInTextRange node (startIndex d) (endIndex d) x y = true
    /\ sound_match d.
Proof.
  unfold caret_match, detectFromCaretRange.
  destruct (doc x y) as [| |node offset]; try discriminate.
  destruct (isTextNode node) eqn:Htext; simpl; [|discriminate].
  rewrite (detectCurrencies_initial _ _ eq_refl).
  fold (node_text node). set (text := node_text node).
  set (start := offset - 50). set (stop := Nat.min (length text) (offset + 50)).
  intros H. apply first_at_offset_inv in H as (c & Hc & Hrel & -> & Hp).
  pose proof (detected_well_formed (substring_any text start stop)) as Hw.
  rewrite Forall_forall in Hw.
  destruct (Hw c (proj2 (list_elem_of_In _ _) Hc))
    as (Hne & (Htxt & Hlen & Hpos) & Hjpy & Hamt & Hmax).
  unfold nonempty_span in Hne.
  assert (Hsub : endIndex c <= length (substring_any text start stop)).
  { rewrite Htxt in Hlen. unfold substring at 1 in Hlen.
    rewrite length_firstn, length_skipn in Hlen. lia. }
  assert (Horder : start <= stop).
  { destruct (Nat.le_gt_cases start stop) as [|Hgt]; [assumption|].
    exfalso. unfold substring_any in Hsub.
    assert (Hz : length (substring text (Nat.min start stop)
                                   (Nat.max start stop)) = 0).
    { unfold substring. rewrite length_firstn, length_skipn.
      unfold stop in *. lia. }
    lia. }
  unfold substring_any in *.
  rewrite Nat.min_l, Nat.max_r in * by assumption.
  exists node, offset. simpl.
  pose proof (substring_bounded text start stop) as Hb.
  assert (Hstop : stop <= length text) by (unfold stop; lia).
  assert (Hstart : start <= offset) by (unfold start; lia).
  assert (Hoff : offset - start + start = offset) by lia.
  assert (Hnode : node_text node = text) by reflexivity.
  clearbody start stop text.
  rewrite Hnode.
  repeat split; simpl; auto; try lia.
  rewrite Htxt. apply substring_substring. exact Hsub.
Qed.

(** X17.  A match [detectFromCaretRange] returns lies in the text node
    under the caret: the caret offset is inside its span, its span is
    within the node's text, its [originalText] is the text of that span
    (the indices found in the 100-character window are shifted back
    correctly), and the point is within 5 of the box of that span. *)
Theorem detectFromCaretRange_in_node (f : nat -> nat) (doc : Document)
    (x y : number) (d : DetectedCurrency) (st : list PatternRule) :
  detectFromCaretRange (patterns_in_state f) doc x y = Some (Some d, st) ->
  exists node offset,
    doc x y = CaretAt node offset
    /\ isTextNode node = true
    /\ startIndex d <= offset <= endIndex d
    /\ endIndex d <= length (node_text node)
    /\ originalText d
       = substring (node_text node) (startIndex d) (endIndex d)
    /\ isPointInTextRange node (startIndex d) (endIndex d) x y = true.
Proof.
  intros H.
  destruct (detectFromCaretRange_stable f doc x y) as [g E].
  rewrite E in H. injection H as H _.
  apply caret_match_inv in H as (node & offset & H1 & H2 & H3 & H4 & H5 & H6 & _).
  exists node, offset. auto 10.
Qed.

(** X17 on a text of 68 characters with the caret at 60: the window starts
    at 10, the match is at 48 to 52 of the window and at 58 to 62 of the
    node. *)
Lemma detectFromCaretRange_in_node_witness :
  detectFromCaretRange CURRENCY_PATTERNS hotel_document (of_Z 10) (of_Z 10)
  = Some (Some (detected_as "USD" (of_Z 100) "$100" 58 62), CURRENCY_PATTERNS)
  /\ exists node offset,
       hotel_document (of_Z 10) (of_Z 10) = CaretAt node offset
       /\ isTextNode node = true
       /\ 58 <= offset <= 62
       /\ 62 <= length (node_text node)
       /\ lit "$100" = substring (node_text node) 58 62
       /\ isPointInTextRange node 58 62 (of_Z 10) (of_Z 10) = true.
Proof.
  assert (H : detectFromCaretRange CURRENCY_PATTERNS hotel_document
                (of_Z 10) (of_Z 10)
              = Some (Some (detected_as "USD" (of_Z 100) "$100" 58 62),
                      CURRENCY_PATTERNS)).
  { unfold detectFromCaretRange, hotel_document.
    cbn [negb isTextNode text_node nodeText].
    rewrite (detectCurrencies_initial _
               [detected_as "USD" (of_Z 100) "$100" 48 52])
      by (vm_compute; reflexivity).
    apply (f_equal (fun r => Some (r, CURRENCY_PATTERNS))).
    vm_compute. reflexivity. }
  split; [exact H|].
  exact (detectFromCaretRange_in_node (fun _ => 0) _ _ _ _ _ H).
Defined.

Lemma caret_match_sound (doc : Document) (x y : number) :
  sound_result (caret_match doc x y).
Proof.
  destruct (caret_match doc x y) as [d|] eqn:E; [|exact I].
  apply caret_match_inv in E as (node & offset & _ & _ & _ & _ & _ & _ & Hs).
  exact Hs.
Qed.

Lemma point_match_sound (doc : Document) (element : Element)
    (ancestors : list Element) (x y : number) :
  sound_result (point_match doc element ancestors x y).
Proof.
  unfold point_match.
  pose proof (caret_match_sound doc x y) as Hc.
  destruct (caret_match doc x y); [exact Hc|]. simpl.
  pose proof (target_match_sound element x y) as Ht.
  destruct (target_match element x y); [exact Ht|]. simpl.
  apply first_match_sound.
Qed.

Lemma detectCurrencyAtPoint_point_match (f : nat -> nat) (doc : Document)
    (element : Element) (ancestors : list Element) (x y : number) :
  exists g,
    detectCurrencyAtPoint (patterns_in_state f) doc element ancestors x y
    = Some (point_match doc element ancestors x y, patterns_in_state g).
Proof.
  unfold detectCurrencyAtPoint, point_match.
  destruct (detectFromCaretRange_stable f doc x y) as [g1 ->].
  destruct (caret_match doc x y); [exists g1; reflexivity|].
  destruct (detectFromTargetElement_stable g1 element x y) as [g2 ->].
  destruct (target_match element x y); [exists g2; reflexivity|].
  unfold detectFromParentElements, reachable_ancestors.
  destruct (walk_parents_first_match x y ancestors 0 g2) as [g3 ->].
  exists g3. reflexivity.
Qed.

(** X18.  [detectCurrencyAtPoint] always returns, whatever state the
    pattern objects are in, and its answer is the first of: the match at
    the caret, the match of the element, the match of the nearest
    reachable ancestor; a later method is asked only when the earlier ones
    found nothing. *)
Theorem detectCurrencyAtPoint_first_of_three (f : nat -> nat) (doc : Document)
    (element : Element) (ancestors : list Element) (x y : number) :
  exists g r,
    detectCurrencyAtPoint (patterns_in_state f) doc element ancestors x y
    = Some (r, patterns_in_state g)
    /\ r = point_match doc element ancestors x y
    /\ (forall d, caret_match doc x y = Some d -> r = Some d)
    /\ (forall d, caret_match doc x y = None ->
                  target_match element x y = Some d -> r = Some d)
    /\ (caret_match doc x y = None -> target_match element x y = None ->
        r = first_match (reachable_ancestors ancestors) x y).
Proof.
  destruct (detectCurrencyAtPoint_point_match f doc element ancestors x y)
    as [g E].
  exists g, (point_match doc element ancestors x y).
  split; [exact E|]. split; [reflexivity|].
  unfold point_match. repeat split.
  - intros d ->. reflexivity.
  - intros d -> ->. reflexivity.
  - intros -> ->. reflexivity.
Qed.

Lemma price_span_match :
  detectFromTargetElement CURRENCY_PATTERNS price_span (of_Z 10) (of_Z 10)
  = Some (Some (detected_as "USD" (of_Z 100) "$100" 0 4), CURRENCY_PATTERNS).
Proof.
  rewrite detectFromTargetElement_passed by (vm_compute; reflexivity).
  rewrite (detectCurrencies_initial _
             [detected_as "USD" (of_Z 100) "$100" 0 4])
    by (vm_compute; reflexivity).
  reflexivity.
Qed.

Lemma price_span_at_point :
  detectCurrencyAtPoint CURRENCY_PATTERNS no_caret price_span []
    (of_Z 10) (of_Z 10)
  = Some (Some (detected_as "USD" (of_Z 100) "$100" 0 4), CURRENCY_PATTERNS).
Proof.
  unfold detectCurrencyAtPoint.
  change (detectFromCaretRange CURRENCY_PATTERNS no_caret (of_Z 10) (of_Z 10))
    with (Some (@None DetectedCurrency, CURRENCY_PATTERNS)).
  cbv iota beta. rewrite price_span_match. reflexivity.
Qed.

(** X19.  Whatever [detectCurrencyAtPoint] returns, by any of its three
    methods, has an amount above 0 and at most [MAX_AMOUNT], a code other
    than JPY, and a non-empty span as long as its [originalText]. *)
Theorem detectCurrencyAtPoint_sound (f : nat -> nat) (doc : Document)
    (element : Element) (ancestors : list Element) (x y : number)
    (d : DetectedCurrency) (st : list PatternRule) :
  detectCurrencyAtPoint (patterns_in_state f) doc element ancestors x y
  = Some (Some d, st) ->
  sound_match d.
Proof.
  intros H.
  destruct (detectCurrencyAtPoint_point_match f doc element ancestors x y)
    as [g E].
  rewrite E in H. injection H as H _.
  pose proof (point_match_sound doc element ancestors x y) as Hs.
  rewrite H in Hs. exact Hs.
Qed.

Lemma detectCurrencyAtPoint_sound_witness :
  sound_match (detected_as "USD" (of_Z 100) "$100" 0 4).
Proof.
  exact (detectCurrencyAtPoint_sound (fun _ => 0) no_caret price_span []
           (of_Z 10) (of_Z 10) _ _ price_span_at_point).
Defined.

(** ** The mouse handler *)

Lemma same_currency_refl (c : DetectedCurrency) : same_currency c c = true.
Proof.
  unfold same_currency. apply andb_true_iff. split.
  - apply string_eqb_eq. reflexivity.
  - apply Nat.eqb_refl.
Qed.

Lemma processMousePosition_outcome (f : nat -> nat) (doc : Document)
    (st : PageState) (event : HoverEvent) :
  pagePatterns st = patterns_in_state f ->
  insideTooltip event = false ->
  exists g,
    processMousePosition doc st event
    = let r := hover_outcome (lastDetectedCurrency st)
                 (point_match doc (target event) (targetAncestors event)
                    (clientX event) (clientY event))
                 (clientX event) (clientY event) in
      Some (fst r, mkPage (snd r) (patterns_in_state g)).
Proof.
  intros Hp Hin. unfold processMousePosition. rewrite Hin, Hp.
  destruct (detectCurrencyAtPoint_point_match f doc (target event)
              (targetAncestors event) (clientX event) (clientY event))
    as [g ->].
  exists g. unfold hover_outcome.
  destruct (point_match _ _ _ _ _) as [c|];
    destruct (lastDetectedCurrency st) as [l|]; try reflexivity.
  destruct (same_currency l c); reflexivity.
Qed.

Lemma hover_price_span :
  processMousePosition no_caret fresh_page over_price_span
  = Some ([ShowTooltip (detected_as "USD" (of_Z 100) "$100" 0 4)
             (of_Z 10) (of_Z 10)],
          mkPage (Some (detected_as "USD" (of_Z 100) "$100" 0 4))
                 CURRENCY_PATTERNS).
Proof.
  unfold processMousePosition, over_price_span, fresh_page.
  cbn [insideTooltip pagePatterns target targetAncestors clientX clientY
       lastDetectedCurrency].
  rewrite price_span_at_point. reflexivity.
Qed.

(** X20.  The tooltip is shown only for a match that differs from the one
    remembered: a [showTooltip] call is the only call of its event, is
    made at the pointer of the event for the match at that point, which
    is sound, is remembered afterwards, and is not the same currency
    (text and start) as the one remembered before. *)
Theorem tooltip_shown_for_new_match (f : nat -> nat) (doc : Document)
    (st st' : PageState) (event : HoverEvent) (calls : list TooltipCall)
    (c : DetectedCurrency) (x y : number) :
  pagePatterns st = patterns_in_state f ->
  processMousePosition doc st event = Some (calls, st') ->
  In (ShowTooltip c x y) calls ->
  calls = [ShowTooltip c x y]
  /\ x = clientX event /\ y = clientY event
  /\ insideTooltip event = false
  /\ point_match doc (target event) (targetAncestors event)
       (clientX event) (clientY event) = Some c
  /\ sound_match c
  /\ lastDetectedCurrency st' = Some c
  /\ (forall last, lastDetectedCurrency st = Some last ->
                   same_currency last c = false).
Proof.
  intros Hp H Hin.
  destruct (insideTooltip event) eqn:Hinside.
  { unfold processMousePosition in H. rewrite Hinside in H.
    injection H as <- _. destruct Hin as [Hin|[]]. discriminate. }
  destruct (processMousePosition_outcome f doc st event Hp Hinside) as [g E].
  rewrite E in H. clear E. cbv zeta in H.
  pose proof (point_match_sound doc (target event) (targetAncestors event)
                (clientX event) (clientY event)) as Hs.
  unfold hover_outcome in H.
  destruct (point_match _ _ _ _ _) as [c'|];
    destruct (lastDetectedCurrency st) as [l|]; simpl in H.
  - destruct (same_currency l c') eqn:Hsame; simpl in H;
      injection H as <- <-; destruct Hin as [Hin|[]]; [discriminate|].
    injection Hin as -> -> ->.
    do 5 (split; [reflexivity|]). split; [exact Hs|].
    split; [reflexivity|]. intros last [= <-]. exact Hsame.
  - injection H as <- <-. destruct Hin as [Hin|[]].
    injection Hin as -> -> ->.
    do 5 (split; [reflexivity|]). split; [exact Hs|].
    split; [reflexivity|]. intros last [=].
  - injection H as <- <-. destruct Hin as [Hin|[]]. discriminate.
  - injection H as <- <-. destruct Hin.
Qed.

Lemma tooltip_shown_for_new_match_witness :
  [ShowTooltip (detected_as "USD" (of_Z 100) "$100" 0 4) (of_Z 10) (of_Z 10)]
  = [ShowTooltip (detected_as "USD" (of_Z 100) "$100" 0 4) (of_Z 10) (of_Z 10)]
  /\ of_Z 10 = clientX over_price_span /\ of_Z 10 = clientY over_price_span
  /\ insideTooltip over_price_span = false
  /\ point_match no_caret (target over_price_span)
       (targetAncestors over_price_span)
       (clientX over_price_span) (clientY over_price_span)
     = Some (detected_as "USD" (of_Z 100) "$100" 0 4)
  /\ sound_match (detected_as "USD" (of_Z 100) "$100" 0 4)
  /\ lastDetectedCurrency
       (mkPage (Some (detected_as "USD" (of_Z 100) "$100" 0 4))
               CURRENCY_PATTERNS)
     = Some (detected_as "USD" (of_Z 100) "$100" 0 4)
  /\ (forall last, lastDetectedCurrency fresh_page = Some last ->
                   same_currency last
                     (detected_as "USD" (of_Z 100) "$100" 0 4) = false).
Proof.
  exact (tooltip_shown_for_new_match (fun _ => 0) no_caret fresh_page _
           over_price_span _ _ _ _ eq_refl hover_price_span
           (or_introl eq_refl)).
Defined.

(** X21.  Handling the same event a second time neither shows nor hides
    the tooltip and leaves the remembered match as it is. *)
Theorem same_event_twice (f : nat -> nat) (doc : Document)
    (st st1 : PageState) (event : HoverEvent) (calls1 : list TooltipCall) :
  pagePatterns st = patterns_in_state f ->
  processMousePosition doc st event = Some (calls1, st1) ->
  exists calls2 st2,
    processMousePosition doc st1 event = Some (calls2, st2)
    /\ Forall (fun c => is_show c = false /\ is_hide c = false) calls2
    /\ lastDetectedCurrency st2 = lastDetectedCurrency st1.
Proof.
  intros Hp H.
  destruct (insideTooltip event) eqn:Hinside.
  { unfold processMousePosition in *. rewrite Hinside in *.
    injection H as _ <-. exists [CancelHideTooltip], st.
    repeat split. repeat constructor. }
  destruct (processMousePosition_outcome f doc st event Hp Hinside) as [g E].
  rewrite E in H. clear E. cbv zeta in H. injection H as _ <-.
  destruct (processMousePosition_outcome g doc
              (mkPage (snd (hover_outcome (lastDetectedCurrency st)
                              (point_match doc (target event)
                                 (targetAncestors event)
                                 (clientX event) (clientY event))
                              (clientX event) (clientY event)))
                      (patterns_in_state g))
              event eq_refl Hinside) as [g2 E2].
  rewrite E2. clear E2. cbv zeta.
  eexists _, _. split; [reflexivity|].
  cbn [lastDetectedCurrency]. unfold hover_outcome.
  destruct (point_match _ _ _ _ _) as [c|];
    destruct (lastDetectedCurrency st) as [l|].
  - destruct (same_currency l c) eqn:Hsame; cbn [fst snd].
    + rewrite Hsame. cbn [fst snd]. split; [repeat constructor | reflexivity].
    + rewrite same_currency_refl. cbn [fst snd].
      split; [repeat constructor | reflexivity].
  - cbn [fst snd]. rewrite same_currency_refl. cbn [fst snd].
    split; [repeat constructor | reflexivity].
  - cbn [fst snd]. split; [constructor | reflexivity].
  - cbn [fst snd]. split; [constructor | reflexivity].
Qed.

Lemma same_event_twice_witness :
  exists calls2 st2,
    processMousePosition no_caret
      (mkPage (Some (detected_as "USD" (of_Z 100) "$100" 0 4))
              CURRENCY_PATTERNS)
      over_price_span = Some (calls2, st2)
    /\ Forall (fun c => is_show c = false /\ is_hide c = false) calls2
    /\ lastDetectedCurrency st2
       = Some (detected_as "USD" (of_Z 100) "$100" 0 4).
Proof.
  exact (same_event_twice (fun _ => 0) no_caret fresh_page _
           over_price_span _ eq_refl hover_price_span).
Defined.

(** X22.  The tooltip is hidden only when a match was remembered and the
    point has none now: a [hideTooltip] call is the only call of its
    event, and afterwards nothing is remembered. *)
Theorem tooltip_hidden_when_match_lost (f : nat -> nat) (doc : Document)
    (st st' : PageState) (event : HoverEvent) (calls : list TooltipCall) :
  pagePatterns st = patterns_in_state f ->
  processMousePosition doc st event = Some (calls, st') ->
  In HideTooltip calls ->
  calls = [HideTooltip]
  /\ insideTooltip event = false
  /\ lastDetectedCurrency st <> None
  /\ point_match doc (target event) (targetAncestors event)
       (clientX event) (clientY event) = None
  /\ lastDetectedCurrency st' = None.
Proof.
  intros Hp H Hin.
  destruct (insideTooltip event) eqn:Hinside.
  { unfold processMousePosition in H. rewrite Hinside in H.
    injection H as <- _. destruct Hin as [Hin|[]]. discriminate. }
  destruct (processMousePosition_outcome f doc st event Hp Hinside) as [g E].
  rewrite E in H. clear E. cbv zeta in H. unfold hover_outcome in H.
  destruct (point_match _ _ _ _ _) as [c'|];
    destruct (lastDetectedCurrency st) as [l|]; simpl in H.
  - destruct (same_currency l c'); simpl in H; injection H as <- <-;
      destruct Hin as [Hin|[]]; discriminate.
  - injection H as <- <-. destruct Hin as [Hin|[]]. discriminate.
  - injection H as <- <-. repeat split; auto; discriminate.
  - injection H as <- <-. destruct Hin.
Qed.

Lemma hover_plain_span (last : DetectedCurrency) :
  processMousePosition no_caret (mkPage (Some last) CURRENCY_PATTERNS)
    over_plain_span
  = Some ([HideTooltip], mkPage None CURRENCY_PATTERNS).
Proof.
  unfold processMousePosition, over_plain_span.
  cbn [insideTooltip pagePatterns target targetAncestors clientX clientY
       lastDetectedCurrency].
  unfold detectCurrencyAtPoint.
  change (detectFromCaretRange CURRENCY_PATTERNS no_caret (of_Z 10) (of_Z 10))
    with (Some (@None DetectedCurrency, CURRENCY_PATTERNS)).
  cbv iota beta.
  rewrite detectFromTargetElement_passed by (vm_compute; reflexivity).
  rewrite (detectCurrencies_initial _ []) by (vm_compute; reflexivity).
  reflexivity.
Qed.

Lemma tooltip_hidden_when_match_lost_witness :
  [HideTooltip] = [HideTooltip]
  /\ insideTooltip over_plain_span = false
  /\ lastDetectedCurrency
       (mkPage (Some (detected_as "USD" (of_Z 100) "$100" 0 4))
               CURRENCY_PATTERNS) <> None
  /\ point_match no_caret (target over_plain_span)
       (targetAncestors over_plain_span)
       (clientX over_plain_span) (clientY over_plain_span) = None
  /\ lastDetectedCurrency (mkPage None CURRENCY_PATTERNS) = None.
Proof.
  exact (tooltip_hidden_when_match_lost (fun _ => 0) no_caret
           (mkPage (Some (detected_as "USD" (of_Z 100) "$100" 0 4))
                   CURRENCY_PATTERNS)
           _ over_plain_span _ eq_refl
           (hover_plain_span (detected_as "USD" (of_Z 100) "$100" 0 4))
           (or_introl eq_refl)).
Defined.

(** ** Timers *)

Lemma list_filter_Forall {A} (P : A -> Prop) (q : A -> bool) (l : list A) :
  Forall P l -> Forall (fun t => P t /\ q t = true) (List.filter q l).
Proof.
  intros H. induction H as [|t l Ht Hl IH]; simpl; [constructor|].
  destruct (q t) eqn:Hq; [constructor; auto | exact IH].
Qed.

Lemma list_filter_keeps {A} (P : A -> Prop) (q : A -> bool) (l : list A) :
  Forall P l -> Forall P (List.filter q l).
Proof.
  intros H. apply list_filter_Forall with (q := q) in H.
  eapply Forall_impl; [exact H|]. simpl. intros t [Ht _]. exact Ht.
Qed.

Lemma distinct_handles_filter (q : nat * Callback -> bool)
    (l : list (nat * Callback)) :
  distinct_handles l -> distinct_handles (List.filter q l).
Proof.
  induction l as [|t l IH]; simpl; [auto|]. intros [Ht Hl].
  destruct (q t); simpl; [split|]; auto using list_filter_keeps.
Qed.

Lemma distinct_handles_snoc (l : list (nat * Callback)) (t : nat * Callback) :
  distinct_handles l -> Forall (fun u => fst u <> fst t) l ->
  distinct_handles (l ++ [t]).
Proof.
  induction l as [|u l IH]; simpl; [auto|]. intros [Hu Hl] Hall.
  inversion Hall as [|? ? Hut Hrest]; subst. split; [|auto].
  apply Forall_app. split; [exact Hu|]. constructor; [congruence|constructor].
Qed.

Lemma table_ok_clear (id : nat) (tb : TimerTable) :
  table_ok tb -> table_ok (clearTimeout id tb).
Proof.
  intros (Hn & Hb & Hd). unfold table_ok, clearTimeout. simpl.
  auto using list_filter_keeps, distinct_handles_filter.
Qed.

Lemma table_ok_set (cb : Callback) (tb : TimerTable) :
  table_ok tb -> table_ok (snd (setTimeout cb tb)).
Proof.
  intros (Hn & Hb & Hd). unfold table_ok, setTimeout. simpl.
  split; [lia|]. split.
  - apply Forall_app. split.
    + eapply Forall_impl; [exact Hb|]. simpl. lia.
    + constructor; [simpl; lia | constructor].
  - apply distinct_handles_snoc; [exact Hd|].
    eapply Forall_impl; [exact Hb|]. simpl. lia.
Qed.

Lemma timers_ok_clear (m s : option nat) (id : nat) (tb : TimerTable) :
  timers_ok m s tb -> timers_ok m s (clearTimeout id tb).
Proof.
  intros [Ht Ho]. split; [apply table_ok_clear; exact Ht|].
  apply list_filter_keeps. exact Ho.
Qed.

Lemma timers_ok_clear_if_set (m s timer : option nat) (tb : TimerTable) :
  timers_ok m s tb -> timers_ok m s (snd (clear_if_set timer tb)).
Proof.
  intros H. destruct timer as [[|n]|]; simpl; auto using timers_ok_clear.
Qed.

Lemma no_move_clear_if_set (timer : option nat) (tb : TimerTable) :
  no_move tb -> no_move (snd (clear_if_set timer tb)).
Proof.
  intros H. destruct timer as [[|n]|]; simpl; auto.
  apply list_filter_keeps. exact H.
Qed.

Lemma no_show_clear_if_set (timer : option nat) (tb : TimerTable) :
  no_show tb -> no_show (snd (clear_if_set timer tb)).
Proof.
  intros H. destruct timer as [[|n]|]; simpl; auto.
  apply list_filter_keeps. exact H.
Qed.

(** Clearing the timer a variable names leaves no callback that the
    variable owns. *)
Lemma clear_show_timer (m s : option nat) (tb : TimerTable) :
  timers_ok m s tb -> no_show (snd (clear_if_set s tb)).
Proof.
  intros [(Hn & Hb & Hd) Ho]. unfold no_show.
  assert (Hboth : Forall (fun t => (0 < fst t < next_handle tb)
                                   /\ owned m s t) (pending tb)).
  { apply Forall_and. auto. }
  destruct s as [[|n]|]; simpl.
  - eapply Forall_impl; [exact Hboth|]. simpl.
    intros [id cb] [Hid Hown]. unfold owned, is_show_timer in *. simpl in *.
    destruct cb; try reflexivity. destruct Hown as [[= Heq] _]. lia.
  - apply list_filter_Forall with (q := fun t => negb (fst t =? S n)) in Hboth.
    eapply Forall_impl; [exact Hboth|]. simpl.
    intros [id cb] [[Hid Hown] Hq]. unfold owned, is_show_timer in *.
    simpl in *. destruct cb; try reflexivity.
    destruct Hown as [[= Heq] _]. subst id.
    rewrite Nat.eqb_refl in Hq. discriminate.
  - eapply Forall_impl; [exact Hboth|]. simpl.
    intros [id cb] [Hid Hown]. unfold owned, is_show_timer in *. simpl in *.
    destruct cb; try reflexivity. destruct Hown as [[=] _].
Qed.

Lemma clear_move_timer (m s : option nat) (tb : TimerTable) :
  timers_ok m s tb -> no_move (snd (clear_if_set m tb)).
Proof.
  intros [(Hn & Hb & Hd) Ho]. unfold no_move.
  assert (Hboth : Forall (fun t => (0 < fst t < next_handle tb)
                                   /\ owned m s t) (pending tb)).
  { apply Forall_and. auto. }
  destruct m as [[|n]|]; simpl.
  - eapply Forall_impl; [exact Hboth|]. simpl.
    intros [id cb] [Hid Hown]. unfold owned, is_move in *. simpl in *.
    destruct cb; try reflexivity. injection Hown as Heq. lia.
  - apply list_filter_Forall with (q := fun t => negb (fst t =? S n)) in Hboth.
    eapply Forall_impl; [exact Hboth|]. simpl.
    intros [id cb] [[Hid Hown] Hq]. unfold owned, is_move in *.
    simpl in *. destruct cb; try reflexivity.
    injection Hown as Heq. subst id.
    rewrite Nat.eqb_refl in Hq. discriminate.
  - eapply Forall_impl; [exact Hboth|]. simpl.
    intros [id cb] [Hid Hown]. unfold owned, is_move in *. simpl in *.
    destruct cb; try reflexivity. discriminate.
Qed.

(** Without a pending show callback [showTimer] may be anything, and
    likewise for the move callback. *)
Lemma timers_ok_any_show (m s s' : option nat) (tb : TimerTable) :
  timers_ok m s tb -> no_show tb -> timers_ok m s' tb.
Proof.
  intros [Ht Ho] Hno. split; [exact Ht|].
  assert (Hboth := proj2 (Forall_and _ _) (conj Ho Hno)).
  eapply Forall_impl; [exact Hboth|]. simpl.
  intros [id cb] [Hown Hs]. unfold owned, is_show_timer in *. simpl in *.
  destruct cb; auto. discriminate.
Qed.

Lemma timers_ok_any_move (m m' s : option nat) (tb : TimerTable) :
  timers_ok m s tb -> no_move tb -> timers_ok m' s tb.
Proof.
  intros [Ht Ho] Hno. split; [exact Ht|].
  assert (Hboth := proj2 (Forall_and _ _) (conj Ho Hno)).
  eapply Forall_impl; [exact Hboth|]. simpl.
  intros [id cb] [Hown Hs]. unfold owned, is_move in *. simpl in *.
  destruct cb; auto. discriminate.
Qed.

Lemma timers_ok_set (m s : option nat) (cb : Callback) (tb : TimerTable) :
  timers_ok m s tb -> owned m s (next_handle tb, cb) ->
  timers_ok m s (snd (setTimeout cb tb)).
Proof.
  intros [Ht Ho] Hnew. split; [apply table_ok_set; exact Ht|].
  simpl. apply Forall_app. split; [exact Ho|].
  constructor; [exact Hnew | constructor].
Qed.

Lemma no_move_set (cb : Callback) (tb : TimerTable) :
  no_move tb -> is_move (0, cb) = false -> no_move (snd (setTimeout cb tb)).
Proof.
  intros H Hcb. unfold no_move. simpl. apply Forall_app. split; [exact H|].
  constructor; [exact Hcb | constructor].
Qed.

Lemma showTooltip_ok (m : option nat) (c : DetectedCurrency) (x y : number)
    (tt : TooltipTimers) (tb : TimerTable) :
  timers_ok m (showTimer tt) tb -> sound_match c ->
  timers_ok m (showTimer (fst (showTooltip c x y tt tb)))
            (snd (showTooltip c x y tt tb))
  /\ (no_move tb -> no_move (snd (showTooltip c x y tt tb))).
Proof.
  intros H Hc. unfold showTooltip.
  pose proof (clear_show_timer _ _ _ H) as Hno.
  pose proof (timers_ok_clear_if_set _ _ (showTimer tt) _ H) as H1.
  pose proof (no_move_clear_if_set (showTimer tt) tb) as Hm1.
  destruct (clear_if_set (showTimer tt) tb) as [s1 tb1]. simpl in *.
  pose proof (timers_ok_clear_if_set _ _ (hideTimer tt) _ H1) as H2.
  pose proof (no_show_clear_if_set (hideTimer tt) _ Hno) as Hno2.
  pose proof (no_move_clear_if_set (hideTimer tt) tb1) as Hm2.
  destruct (clear_if_set (hideTimer tt) tb1) as [h tb2]. simpl in *.
  split.
  - apply timers_ok_set.
    + eapply timers_ok_any_show; eassumption.
    + split; [reflexivity | exact Hc].
  - intros Hm. apply no_move_set; auto.
Qed.

Lemma hideTooltip_ok (m : option nat) (tt : TooltipTimers) (tb : TimerTable) :
  timers_ok m (showTimer tt) tb ->
  timers_ok m (showTimer (fst (hideTooltip tt tb))) (snd (hideTooltip tt tb))
  /\ (no_move tb -> no_move (snd (hideTooltip tt tb)))
  /\ Forall (fun t => is_show_timer t = false)
            (pending (snd (hideTooltip tt tb))).
Proof.
  intros H. unfold hideTooltip.
  pose proof (clear_show_timer _ _ _ H) as Hno.
  pose proof (timers_ok_clear_if_set _ _ (showTimer tt) _ H) as H1.
  pose proof (no_move_clear_if_set (showTimer tt) tb) as Hm1.
  destruct (clear_if_set (showTimer tt) tb) as [s1 tb1]. simpl in *.
  split; [|split].
  - apply timers_ok_set; [|exact I].
    eapply timers_ok_any_show; eassumption.
  - intros Hm. apply no_move_set; auto.
  - apply Forall_app. split; [exact Hno|]. constructor; [reflexivity|constructor].
Qed.

Lemma cancelHideTooltip_ok (m : option nat) (tt : TooltipTimers)
    (tb : TimerTable) :
  timers_ok m (showTimer tt) tb ->
  timers_ok m (showTimer (fst (cancelHideTooltip tt tb)))
            (snd (cancelHideTooltip tt tb))
  /\ (no_move tb -> no_move (snd (cancelHideTooltip tt tb))).
Proof.
  intros H. unfold cancelHideTooltip.
  pose proof (timers_ok_clear_if_set _ _ (hideTimer tt) _ H) as H1.
  pose proof (no_move_clear_if_set (hideTimer tt) tb) as Hm1.
  destruct (clear_if_set (hideTimer tt) tb) as [h tb1]. simpl in *. auto.
Qed.

Lemma destroyTooltip_ok (m : option nat) (tt : TooltipTimers)
    (tb : TimerTable) :
  timers_ok m (showTimer tt) tb ->
  timers_ok m (showTimer (fst (destroyTooltip tt tb)))
            (snd (destroyTooltip tt tb)).
Proof.
  intros H. unfold destroyTooltip.
  pose proof (clear_show_timer _ _ _ H) as Hno.
  pose proof (timers_ok_clear_if_set _ _ (showTimer tt) _ H) as H1.
  destruct (clear_if_set (showTimer tt) tb) as [s1 tb1]. simpl in *.
  pose proof (timers_ok_clear_if_set _ _ (hideTimer tt) _ H1) as H2.
  pose proof (no_show_clear_if_set (hideTimer tt) _ Hno) as Hno2.
  destruct (clear_if_set (hideTimer tt) tb1) as [h tb2]. simpl in *.
  eapply timers_ok_any_show; eassumption.
Qed.

Lemma tooltip_calls_ok (m : option nat) (calls : list TooltipCall) :
  forall (tt : TooltipTimers) (tb : TimerTable),
    timers_ok m (showTimer tt) tb ->
    Forall (fun c => match c with
                     | ShowTooltip d _ _ => sound_match d
                     | _ => True
                     end) calls ->
    timers_ok m (showTimer (fst (tooltip_calls calls tt tb)))
              (snd (tooltip_calls calls tt tb))
    /\ (no_move tb -> no_move (snd (tooltip_calls calls tt tb))).
Proof.
  unfold tooltip_calls.
  induction calls as [|c calls IH]; intros tt tb H Hs; simpl; [auto|].
  inversion Hs as [|? ? Hc Hrest]; subst.
  assert (Hstep : timers_ok m (showTimer (fst (tooltip_call c tt tb)))
                            (snd (tooltip_call c tt tb))
                  /\ (no_move tb -> no_move (snd (tooltip_call c tt tb)))).
  { destruct c as [|d x y|]; simpl.
    - apply cancelHideTooltip_ok. exact H.
    - apply showTooltip_ok; assumption.
    - destruct (hideTooltip_ok m tt tb H) as (H1 & H2 & _). auto. }
  destruct Hstep as [H1 Hm1].
  destruct (tooltip_call c tt tb) as [tt1 tb1]. simpl in *.
  destruct (IH tt1 tb1 H1 Hrest) as [H2 Hm2]. auto.
Qed.

Lemma processMousePosition_calls_sound (f : nat -> nat) (doc : Document)
    (st st' : PageState) (event : HoverEvent) (calls : list TooltipCall) :
  pagePatterns st = patterns_in_state f ->
  processMousePosition doc st event = Some (calls, st') ->
  Forall (fun c => match c with
                   | ShowTooltip d _ _ => sound_match d
                   | _ => True
                   end) calls
  /\ exists g, pagePatterns st' = patterns_in_state g.
Proof.
  intros Hp H.
  destruct (insideTooltip event) eqn:Hinside.
  { unfold processMousePosition in H. rewrite Hinside in H.
    injection H as <- <-. split; [repeat constructor | eauto]. }
  destruct (processMousePosition_outcome f doc st event Hp Hinside) as [g E].
  rewrite E in H. clear E. cbv zeta in H. injection H as <- <-.
  split; [|exists g; reflexivity].
  pose proof (point_match_sound doc (target event) (targetAncestors event)
                (clientX event) (clientY event)) as Hs.
  unfold hover_outcome.
  destruct (point_match _ _ _ _ _) as [c|];
    destruct (lastDetectedCurrency st) as [l|]; simpl;
    try destruct (same_currency l c); simpl;
    first [ constructor; [first [exact Hs | exact I] | constructor]
          | constructor ].
Qed.

Lemma handleMouseMove_ok (event : HoverEvent) (w : Window) :
  window_ok w -> window_ok (handleMouseMove event w).
Proof.
  intros [Ht Hp]. unfold handleMouseMove.
  destruct (negb (isEnabled (content w))); [split; assumption|].
  split; [|exact Hp]. cbn [setTimeout content tooltip timers mouseMoveTimer].
  pose proof (clear_move_timer _ _ _ Ht) as Hno.
  pose proof (timers_ok_clear_if_set _ _ (mouseMoveTimer (content w)) _ Ht)
    as H1.
  apply (timers_ok_set _ _ (MoveCallback event));
    [|reflexivity].
  eapply timers_ok_any_move; eassumption.
Qed.

Lemma forget_and_hide_ok (w : Window) :
  window_ok w -> window_ok (forget_and_hide w).
Proof.
  intros [Ht Hp]. unfold forget_and_hide.
  destruct (hideTooltip_ok _ _ _ Ht) as (H1 & _ & _).
  destruct (hideTooltip (tooltip w) (timers w)) as [tt tb].
  split; [exact H1 | exact Hp].
Qed.

Lemma runTimer_ok (doc : Document) (id : nat) (w : Window) :
  window_ok w -> window_ok (runTimer doc id w).
Proof.
  intros [Ht [f Hp]]. unfold runTimer.
  destruct (List.find _ _) as [[id' cb]|] eqn:Hfind;
    [|split; [exact Ht | eauto]].
  apply find_some in Hfind as [Hin Hid]. simpl in Hid.
  apply Nat.eqb_eq in Hid. subst id'.
  pose proof (timers_ok_clear _ _ id _ Ht) as H0.
  destruct cb as [event|c x y|]; [|split; [exact H0 | eauto]..].
  assert (Hno : no_move (clearTimeout id (timers w))).
  { destruct Ht as [_ Ho]. unfold no_move. simpl.
    assert (Hm : mouseMoveTimer (content w) = Some id).
    { rewrite List.Forall_forall in Ho. exact (Ho _ Hin). }
    apply list_filter_Forall with (q := fun t => negb (fst t =? id)) in Ho.
    eapply Forall_impl; [exact Ho|]. simpl.
    intros [id' cb] [Hown Hq]. unfold owned, is_move in *. simpl in *.
    destruct cb; try reflexivity.
    rewrite Hm in Hown. injection Hown as Heq. subst id'.
    rewrite Nat.eqb_refl in Hq. discriminate. }
  destruct (processMousePosition doc (pageState (content w)) event)
    as [[calls st']|] eqn:Hproc; [|split; [exact H0 | eauto]].
  destruct (processMousePosition_calls_sound f _ _ _ _ _ Hp Hproc)
    as [Hs Hg].
  destruct (tooltip_calls_ok _ calls _ _ H0 Hs) as [H1 Hm1].
  destruct (tooltip_calls calls (tooltip w) (clearTimeout id (timers w)))
    as [tt tb].
  split; [|exact Hg]. simpl in *.
  eapply timers_ok_any_move; [exact H1 | auto].
Qed.

Lemma step_ok (doc : Document) (e : Event) (w : Window) :
  window_ok w -> window_ok (step doc e w).
Proof.
  intros H. destruct e as [event|rt| |enabled|enabled| |id]; simpl.
  - apply handleMouseMove_ok. exact H.
  - destruct rt as [r|]; simpl; [|apply forget_and_hide_ok; exact H].
    destruct (inTooltip r); [exact H|].
    destruct (negb (inBody r)); [apply forget_and_hide_ok|]; exact H.
  - apply forget_and_hide_ok. exact H.
  - exact H.
  - destruct H as [Ht Hp]. unfold settingsChanged.
    destruct (negb enabled); [|split; assumption].
    destruct (hideTooltip_ok _ _ _ Ht) as (H1 & _ & _).
    destruct (hideTooltip (tooltip w) (timers w)) as [tt tb].
    split; [exact H1 | exact Hp].
  - destruct H as [Ht Hp].
    pose proof (destroyTooltip_ok _ _ _ Ht) as H1.
    destruct (destroyTooltip (tooltip w) (timers w)) as [tt tb].
    split; [exact H1 | exact Hp].
  - apply runTimer_ok. exact H.
Qed.

Lemma run_events_ok (doc : Document) (events : list Event) :
  forall w, window_ok w -> window_ok (run_events doc events w).
Proof.
  unfold run_events. induction events as [|e events IH]; intros w H; simpl;
    [exact H|].
  apply IH, step_ok, H.
Qed.

Lemma initial_window_ok : window_ok initial_window.
Proof.
  split.
  - split; [|constructor]. split; [simpl; lia|]. split; constructor.
  - exists (fun _ => 0). reflexivity.
Qed.

Lemma reachable_ok (doc : Document) (events : list Event) :
  window_ok (run_events doc events initial_window).
Proof. apply run_events_ok, initial_window_ok. Qed.

Lemma run_events_snoc (doc : Document) (events : list Event) (e : Event)
    (w : Window) :
  run_events doc (events ++ [e]) w = step doc e (run_events doc events w).
Proof. unfold run_events. rewrite fold_left_app. reflexivity. Qed.

Lemma filter_none {A} (q : A -> bool) (l : list A) :
  Forall (fun t => q t = false) l -> List.filter q l = [].
Proof.
  intros H. induction H as [|t l Ht Hl IH]; simpl; [reflexivity|].
  rewrite Ht. exact IH.
Qed.

Lemma at_most_one (q : nat * Callback -> bool) (id : nat)
    (l : list (nat * Callback)) :
  distinct_handles l ->
  Forall (fun t => q t = true -> fst t = id) l ->
  length (List.filter q l) <= 1.
Proof.
  induction l as [|t l IH]; simpl; [lia|]. intros [Ht Hd] Hall.
  inversion Hall as [|? ? Hq Hrest]; subst.
  destruct (q t) eqn:Hqt; [|auto].
  rewrite filter_none; [simpl; lia|].
  assert (Hboth := proj2 (Forall_and _ _) (conj Ht Hrest)).
  eapply Forall_impl; [exact Hboth|]. simpl.
  intros u [Hne Hu]. destruct (q u); [|reflexivity].
  exfalso. apply Hne. rewrite Hu, Hq by reflexivity. reflexivity.
Qed.

(** X23.  However the events of a page follow one another, at most one
    mouse-move callback and at most one show callback are waiting to run:
    the one [mouseMoveTimer] names and the one [showTimer] names. *)
Theorem one_move_and_one_show_pending (doc : Document) (events : list Event) :
  let w := run_events doc events initial_window in
  length (List.filter is_move (pending (timers w))) <= 1
  /\ length (List.filter is_show_timer (pending (timers w))) <= 1
  /\ (forall id event, In (id, MoveCallback event) (pending (timers w)) ->
                       mouseMoveTimer (content w) = Some id)
  /\ (forall id c x y, In (id, ShowCallback c x y) (pending (timers w)) ->
                       showTimer (tooltip w) = Some id).
Proof.
  intros w. destruct (reachable_ok doc events) as [[(Hn & Hb & Hd) Ho] _].
  fold w in Hn, Hb, Hd, Ho.
  assert (Hmove : forall id event,
             In (id, MoveCallback event) (pending (timers w)) ->
             mouseMoveTimer (content w) = Some id).
  { intros id event Hin. rewrite List.Forall_forall in Ho.
    exact (Ho _ Hin). }
  assert (Hshow : forall id c x y,
             In (id, ShowCallback c x y) (pending (timers w)) ->
             showTimer (tooltip w) = Some id).
  { intros id c x y Hin. rewrite List.Forall_forall in Ho.
    exact (proj1 (Ho _ Hin)). }
  split; [|split; [|split; assumption]].
  - destruct (mouseMoveTimer (content w)) as [m|] eqn:Hm.
    + apply (at_most_one _ m); [exact Hd|].
      eapply Forall_impl; [exact Ho|]. simpl.
      intros [id cb]. unfold owned, is_move. simpl.
      destruct cb; try discriminate. intros [= ->]. reflexivity.
    + rewrite filter_none; [simpl; lia|].
      eapply Forall_impl; [exact Ho|]. simpl.
      intros [id cb]. unfold owned, is_move. simpl.
      destruct cb; try reflexivity. discriminate.
  - destruct (showTimer (tooltip w)) as [m|] eqn:Hm.
    + apply (at_most_one _ m); [exact Hd|].
      eapply Forall_impl; [exact Ho|]. simpl.
      intros [id cb]. unfold owned, is_show_timer. simpl.
      destruct cb; try discriminate. intros [[= ->] _]. reflexivity.
    + rewrite filter_none; [simpl; lia|].
      eapply Forall_impl; [exact Ho|]. simpl.
      intros [id cb]. unfold owned, is_show_timer. simpl.
      destruct cb; try reflexivity. intros [[=] _].
Qed.

(** X24.  Mouse moves are debounced: when the script is enabled, after a
    mouse move the only mouse-move callback waiting is the one of that
    move, so a move followed by another before its timer runs is never
    handled. *)
Theorem mouse_move_debounced (doc : Document) (events : list Event)
    (event : HoverEvent) :
  let w := run_events doc events initial_window in
  isEnabled (content w) = true ->
  exists id,
    List.filter is_move (pending (timers (step doc (MouseMove event) w)))
    = [(id, MoveCallback event)]
    /\ mouseMoveTimer (content (step doc (MouseMove event) w)) = Some id.
Proof.
  intros w Hen. destruct (reachable_ok doc events) as [Ht _]. fold w in Ht.
  simpl. unfold handleMouseMove. rewrite Hen. simpl.
  pose proof (clear_move_timer _ _ _ Ht) as Hno.
  exists (next_handle (snd (clear_if_set (mouseMoveTimer (content w))
                                         (timers w)))).
  split; [|reflexivity].
  rewrite List.filter_app, filter_none by exact Hno. reflexivity.
Qed.

(** X25.  Whatever happens on a page, a tooltip is only ever scheduled
    for a sound match: every show callback waiting to run carries an
    amount above 0 and at most [MAX_AMOUNT] and a code other than JPY. *)
Theorem scheduled_show_is_sound (doc : Document) (events : list Event)
    (id : nat) (c : DetectedCurrency) (x y : number) :
  In (id, ShowCallback c x y)
     (pending (timers (run_events doc events initial_window))) ->
  sound_match c.
Proof.
  intros Hin. destruct (reachable_ok doc events) as [[_ Ho] _].
  rewrite List.Forall_forall in Ho. exact (proj2 (Ho _ Hin)).
Qed.

(** X26.  Scrolling, leaving the document and switching the extension
    off cancel a scheduled tooltip: after such an event no show callback
    is waiting, and a hide callback named by [hideTimer] is. *)
Theorem hide_cancels_scheduled_show (doc : Document) (events : list Event)
    (e : Event) :
  always_hides e = true ->
  let w := run_events doc (events ++ [e]) initial_window in
  (forall id c x y, ~ In (id, ShowCallback c x y) (pending (timers w)))
  /\ exists id, hideTimer (tooltip w) = Some id
                /\ In (id, HideCallback) (pending (timers w)).
Proof.
  intros He w. unfold w. rewrite run_events_snoc.
  destruct (reachable_ok doc events) as [Ht _].
  set (w0 := run_events doc events initial_window) in *.
  assert (Hhide : forall c,
             let r := hideTooltip (tooltip w0) (timers w0) in
             let w1 := mkWindow c (fst r) (snd r) in
             (forall id d x y,
                 ~ In (id, ShowCallback d x y) (pending (timers w1)))
             /\ exists id, hideTimer (tooltip w1) = Some id
                           /\ In (id, HideCallback) (pending (timers w1))).
  { intros c r w1. destruct (hideTooltip_ok _ _ _ Ht) as (_ & _ & Hno).
    split.
    - intros id d x y Hin. rewrite List.Forall_forall in Hno.
      apply Hno in Hin. discriminate.
    - unfold w1, r, hideTooltip.
      destruct (clear_if_set (showTimer (tooltip w0)) (timers w0))
        as [s tb1].
      simpl. eexists. split; [reflexivity|].
      apply in_or_app. right. left. reflexivity. }
  assert (Hforget : forall w1, w1 = forget_and_hide w0 ->
             (forall id d x y,
                 ~ In (id, ShowCallback d x y) (pending (timers w1)))
             /\ exists id, hideTimer (tooltip w1) = Some id
                           /\ In (id, HideCallback) (pending (timers w1))).
  { intros w1 ->. unfold forget_and_hide.
    specialize (Hhide (mkContent (isEnabled (content w0))
                         (mouseMoveTimer (content w0))
                         (mkPage None (pagePatterns (pageState (content w0)))))).
    destruct (hideTooltip (tooltip w0) (timers w0)) as [tt tb].
    exact Hhide. }
  destruct e as [event|rt| |enabled|enabled| |id]; simpl in He;
    try discriminate; simpl.
  - destruct rt as [r|]; [|apply Hforget; reflexivity].
    apply andb_true_iff in He as [H1 H2]. simpl.
    destruct (inTooltip r); [discriminate|]. rewrite H2.
    apply Hforget. reflexivity.
  - apply Hforget. reflexivity.
  - unfold settingsChanged. rewrite He.
    specialize (Hhide (mkContent enabled (mouseMoveTimer (content w0))
                                 (pageState (content w0)))).
    destruct (hideTooltip (tooltip w0) (timers w0)) as [tt tb].
    exact Hhide.
Qed.

Lemma hover_then_timer :
  pending (timers (run_events no_caret
                     [MouseMove over_price_span; TimerRuns 1] initial_window))
  = [(2, ShowCallback (detected_as "USD" (of_Z 100) "$100" 0 4)
            (of_Z 10) (of_Z 10))].
Proof.
  unfold run_events, initial_window.
  cbn -[processMousePosition CURRENCY_PATTERNS over_price_span].
  change (mkPage None CURRENCY_PATTERNS) with fresh_page.
  rewrite hover_price_span. reflexivity.
Qed.

(** X24 after a move over [price_span]: a move over [plain_span] leaves
    only its own callback waiting. *)
Lemma mouse_move_debounced_witness :
  exists id,
    List.filter is_move
      (pending (timers (step no_caret (MouseMove over_plain_span)
                          (run_events no_caret [MouseMove over_price_span]
                             initial_window))))
    = [(id, MoveCallback over_plain_span)]
    /\ mouseMoveTimer
         (content (step no_caret (MouseMove over_plain_span)
                     (run_events no_caret [MouseMove over_price_span]
                        initial_window)))
       = Some id.
Proof.
  exact (mouse_move_debounced no_caret [MouseMove over_price_span]
           over_plain_span eq_refl).
Defined.

(** X25 for the show callback set when the timer of a move over
    [price_span] has run. *)
Lemma scheduled_show_is_sound_witness :
  sound_match (detected_as "USD" (of_Z 100) "$100" 0 4).
Proof.
  apply (scheduled_show_is_sound no_caret
           [MouseMove over_price_span; TimerRuns 1] 2 _ (of_Z 10) (of_Z 10)).
  rewrite hover_then_timer. left. reflexivity.
Defined.

(** X26 for a scroll while the tooltip for [price_span] is scheduled. *)
Lemma hide_cancels_scheduled_show_witness :
  let w := run_events no_caret
             ([MouseMove over_price_span; TimerRuns 1] ++ [Scroll])
             initial_window in
  (forall id c x y, ~ In (id, ShowCallback c x y) (pending (timers w)))
  /\ exists id, hideTimer (tooltip w) = Some id
                /\ In (id, HideCallback) (pending (timers w)).
Proof.
  exact (hide_cancels_scheduled_show no_caret
           [MouseMove over_price_span; TimerRuns 1] Scroll eq_refl).
Defined.
